(** * The Monkey bytecode compiler and virtual machine

    A shallow embedding of [pkg/code], [pkg/compiler], [pkg/vm] and
    [pkg/repl] of the Monkey compiler, and the properties of its
    specification proved (or refuted) against that embedding.

    Conventions of the embedding:
    - a Go [byte], [int], [int64] or [uint16] is a [Z]; conversions write
      their wrap-around out ([uint16], [wrap64]);
    - a Go slice is a [list]; an index or slice expression outside the
      bounds is a run-time panic, modelled by [Panic];
    - a Go [error] result is an [option string] ([None] is [nil]);
    - a method with a pointer receiver is a function from the receiver's
      state to an [outcome] holding the result and the new state;
    - a pointer to a heap object is an address of type [N]; two objects are
      the same object when their addresses are equal. *)

From Stdlib Require Import ZArith Lia String DecimalString.
From stdpp Require Import prelude strings gmap.

Open Scope Z_scope.

(** ** Go run-time conventions *)

Inductive outcome (A : Type) : Type :=
| Ok (a : A)
| Panic.
Arguments Ok {A} a.
Arguments Panic {A}.

#[global] Instance outcome_ret : MRet outcome := fun A a => Ok a.
#[global] Instance outcome_bind : MBind outcome := fun A B f m =>
  match m with
  | Ok a => f a
  | Panic => Panic
  end.

(** A method on a receiver of type [S] returning an [A]. *)
Definition M (S A : Type) : Type := S -> outcome (A * S).

#[global] Instance M_ret {S} : MRet (M S) := fun A a s => Ok (a, s).
#[global] Instance M_bind {S} : MBind (M S) := fun A B f m s =>
  match m s with
  | Ok (a, s') => f a s'
  | Panic => Panic
  end.

Definition get {S} : M S S := fun s => Ok (s, s).
Definition put {S} (s : S) : M S unit := fun _ => Ok (tt, s).
Definition lift {S A} (o : outcome A) : M S A := fun s =>
  match o with
  | Ok a => Ok (a, s)
  | Panic => Panic
  end.

Definition error : Type := option string.

(** [if err := m; err != nil { return err }; k] *)
Definition check {S} (m : M S error) (k : M S error) : M S error := fun s =>
  match m s with
  | Ok (None, s') => k s'
  | r => r
  end.

Notation "'check!' m ';;;' k" := (check m k)
  (at level 20, m at level 100, k at level 200, right associativity,
   format "'[v' 'check!'  m ';;;' '/' k ']'").

(** Unfolds the monad's operations, to run a method on a given receiver. *)
Ltac run_monad :=
  unfold mbind, mret, M_bind, M_ret, outcome_bind, outcome_ret, lift, get, put.

(** [l[i]] *)
Definition index {A} (l : list A) (i : Z) : outcome A :=
  if (0 <=? i) && (i <? Z.of_nat (length l)) then
    match l !! Z.to_nat i with
    | Some a => Ok a
    | None => Panic
    end
  else Panic.

(** [l[i] = x] *)
Definition store {A} (l : list A) (i : Z) (x : A) : outcome (list A) :=
  if (0 <=? i) && (i <? Z.of_nat (length l)) then Ok (<[Z.to_nat i := x]> l)
  else Panic.

(** [l[i:]] *)
Definition slice_from {A} (l : list A) (i : Z) : outcome (list A) :=
  if (0 <=? i) && (i <=? Z.of_nat (length l)) then Ok (drop (Z.to_nat i) l)
  else Panic.

(** [l[:i]], for [i] within the length of [l] *)
Definition slice_to {A} (l : list A) (i : Z) : outcome (list A) :=
  if (0 <=? i) && (i <=? Z.of_nat (length l)) then Ok (take (Z.to_nat i) l)
  else Panic.

Definition len {A} (l : list A) : Z := Z.of_nat (length l).

(** [%d] *)
Definition itoa (z : Z) : string := NilZero.string_of_int (Z.to_int z).

(** [%04d], for a non-negative number *)
Definition itoa04 (z : Z) : string :=
  let s := itoa z in
  (if z <? 10 then "000" else if z <? 100 then "00"
   else if z <? 1000 then "0" else "") +:+ s.

(** The line feed of a format string. *)
Definition LF : string := String.String (Ascii.ascii_of_nat 10) EmptyString.

Abbreviation byte := Z (only parsing).

(** [uint16(o)] of an [int] *)
Definition uint16 (o : Z) : Z := Z.land o 65535.

(** The value an [int64] computation wraps to. *)
Definition wrap64 (z : Z) : Z :=
  (z + 9223372036854775808) mod 18446744073709551616 - 9223372036854775808.

(** [binary.BigEndian.PutUint16(b, v)] *)
Definition PutUint16 (b : list byte) (v : Z) : outcome (list byte) :=
  match b with
  | _ :: _ :: rest => Ok (Z.land (Z.shiftr v 8) 255 :: Z.land v 255 :: rest)
  | _ => Panic
  end.

(** [binary.BigEndian.Uint16(b)] *)
Definition Uint16 (b : list byte) : outcome Z :=
  match b with
  | b0 :: b1 :: _ => Ok (Z.lor b1 (Z.shiftl b0 8))
  | _ => Panic
  end.

(** ** [pkg/code]: the instruction codec *)

Module code.

Abbreviation Instructions := (list byte) (only parsing).
Abbreviation Opcode := byte (only parsing).

Record Definition_ : Type := mkDefinition {
  Name : string;
  OperandWidths : list Z
}.

Definition OpNull : Opcode := 0.
Definition OpConstant : Opcode := 1.
Definition OpPop : Opcode := 2.
Definition OpJump : Opcode := 3.
Definition OpJumpNotTruthy : Opcode := 4.
Definition OpTrue : Opcode := 5.
Definition OpFalse : Opcode := 6.
Definition OpBang : Opcode := 7.
Definition OpMinus : Opcode := 8.
Definition OpAdd : Opcode := 9.
Definition OpSub : Opcode := 10.
Definition OpMul : Opcode := 11.
Definition OpDiv : Opcode := 12.
Definition OpEqual : Opcode := 13.
Definition OpNotEqual : Opcode := 14.
Definition OpLessThan : Opcode := 15.
Definition OpGreaterThan : Opcode := 16.
Definition OpGetGlobal : Opcode := 17.
Definition OpSetGlobal : Opcode := 18.
Definition OpArray : Opcode := 19.

(** Modelled from the spec: the constant [OpHash], which the virtual machine
    dispatches on but the opcode enumeration of [code.go] does not declare.
    It takes the value that follows [OpArray]; [definitions] has no entry
    for it. *)
Definition OpHash : Opcode := 20.

(** The map [definitions], in the order of its literal. *)
Definition definitions : list (Opcode * Definition_) :=
  [ (OpNull, mkDefinition "OpNull" []);
    (OpConstant, mkDefinition "OpConstant" [2]);
    (OpPop, mkDefinition "OpPop" []);
    (OpJump, mkDefinition "OpJump" [2]);
    (OpJumpNotTruthy, mkDefinition "OpJumpNotTruthy" [2]);
    (OpBang, mkDefinition "OpBang" []);
    (OpMinus, mkDefinition "OpMinus" []);
    (OpTrue, mkDefinition "OpTrue" []);
    (OpFalse, mkDefinition "OpFalse" []);
    (OpAdd, mkDefinition "OpAdd" []);
    (OpSub, mkDefinition "OpSub" []);
    (OpMul, mkDefinition "OpMul" []);
    (OpDiv, mkDefinition "OpDiv" []);
    (OpEqual, mkDefinition "OpEqual" []);
    (OpNotEqual, mkDefinition "OpNotEqual" []);
    (OpLessThan, mkDefinition "OpLessThan" []);
    (OpGreaterThan, mkDefinition "OpGreaterThan" []);
    (OpGetGlobal, mkDefinition "OpGetGlobal" [2]);
    (OpSetGlobal, mkDefinition "OpSetGlobal" [2]);
    (OpArray, mkDefinition "OpArray" [2]) ].

(** [definitions[op]] *)
Fixpoint assoc (m : list (Opcode * Definition_)) (op : Opcode)
  : option Definition_ :=
  match m with
  | [] => None
  | (k, d) :: m' => if k =? op then Some d else assoc m' op
  end.

Definition Lookup (op : byte) : Definition_ + string :=
  match assoc definitions op with
  | Some def => inl def
  | None => inr ("opcode " +:+ itoa op +:+ " undefined")
  end.

(** The loop [for i, o := range operands] of [Make]. *)
Fixpoint Make_operands (widths : list Z) (i : nat) (operands : list Z)
    (offset : Z) (instruction : list byte) : outcome (list byte) :=
  match operands with
  | [] => Ok instruction
  | o :: operands' =>
    match widths !! i with
    | None => Panic
    | Some width =>
      instruction' ←
        (if width =? 2 then
           tail ← slice_from instruction offset;
           tail' ← PutUint16 tail (uint16 o);
           Ok (take (Z.to_nat offset) instruction ++ tail')
         else Ok instruction);
      Make_operands widths (S i) operands' (offset + width) instruction'
    end
  end.

Definition Make (op : Opcode) (operands : list Z) : outcome (list byte) :=
  match assoc definitions op with
  | None => Ok []
  | Some def =>
    let instructionsLen := fold_left Z.add (OperandWidths def) 1 in
    let instruction := op :: replicate (Z.to_nat (instructionsLen - 1)) 0 in
    Make_operands (OperandWidths def) 0 operands 1 instruction
  end.

Definition ReadUint16 (ins : Instructions) : outcome Z := Uint16 ins.

(** The loop [for i, width := range def.OperandWidths] of [ReadOperands];
    [operands] is accumulated in order. *)
Fixpoint ReadOperands_loop (widths : list Z) (ins : Instructions) (offset : Z)
  : outcome (list Z * Z) :=
  match widths with
  | [] => Ok ([], offset)
  | width :: widths' =>
    operand ←
      (if width =? 2 then
         tail ← slice_from ins offset;
         ReadUint16 tail
       else Ok 0);
    '(operands, offset') ← ReadOperands_loop widths' ins (offset + width);
    Ok (operand :: operands, offset')
  end.

Definition ReadOperands (def : Definition_) (ins : Instructions)
  : outcome (list Z * Z) :=
  ReadOperands_loop (OperandWidths def) ins 0.

Definition fmtInstruction (def : Definition_) (operands : list Z) : string :=
  let operandCount := len (OperandWidths def) in
  if negb (len operands =? operandCount) then
    "ERROR: operand len " +:+ itoa (len operands) +:+
    " does not match defined " +:+ itoa operandCount +:+ LF
  else
    match OperandWidths def, operands with
    | [], _ => Name def
    | [_], o :: _ => Name def +:+ " " +:+ itoa o
    | _, _ => "ERROR: unhandled operandCount for " +:+ Name def +:+ LF
    end.

(** One iteration of the loop of [Instructions.String], entered with
    [i < len(ins)]: the new value of [i] and the text appended to [out]. *)
Definition String_iter (ins : Instructions) (i : Z) : outcome (Z * string) :=
  b ← index ins i;
  match Lookup b with
  | inr err => Ok (i, "ERROR: " +:+ err +:+ LF)
  | inl def =>
    rest ← slice_from ins (i + 1);
    '(operands, read) ← ReadOperands def rest;
    Ok (i + 1 + read,
        itoa04 i +:+ " " +:+ fmtInstruction def operands +:+ LF)
  end.

(** [Instructions.String], run for at most [fuel] iterations of its loop;
    [None] when the loop has not finished by then. *)
Fixpoint String_loop (fuel : nat) (ins : Instructions) (i : Z) (out : string)
  : option (outcome string) :=
  if i <? len ins then
    match fuel with
    | O => None
    | S fuel' =>
      match String_iter ins i with
      | Ok (i', line) => String_loop fuel' ins i' (out +:+ line)
      | Panic => Some Panic
      end
    end
  else Some (Ok out).

Definition String_ (fuel : nat) (ins : Instructions) : option (outcome string) :=
  String_loop fuel ins 0 "".

End code.

(** ** [pkg/object] of the interpreter: run-time values

    The package is not part of this repository; the virtual machine uses
    its value types, their [Type] tags and the [Hashable] capability.  An
    object is held by pointer: the first field of every constructor is its
    address, and a [nil] interface value is [None]. *)

Module object.

Definition ObjectType : Type := string.

Definition INTEGER_OBJ : ObjectType := "INTEGER".
Definition BOOLEAN_OBJ : ObjectType := "BOOLEAN".
Definition STRING_OBJ : ObjectType := "STRING".
Definition NULL_OBJ : ObjectType := "NULL".
Definition ARRAY_OBJ : ObjectType := "ARRAY".
Definition HASH_OBJ : ObjectType := "HASH".

Record HashKey : Type := mkHashKey {
  KeyType : ObjectType;
  KeyValue : Z
}.

#[local] Unset Elimination Schemes.

Inductive Object : Type :=
| Integer (addr : N) (Value : Z)
| Boolean (addr : N) (Value : bool)
| String (addr : N) (Value : string)
| Null (addr : N)
| Array (addr : N) (Elements : list (option Object))
| Hash (addr : N) (Pairs : list (HashKey * (Object * option Object))).

#[local] Set Elimination Schemes.

Definition address (o : Object) : N :=
  match o with
  | Integer a _ | Boolean a _ | String a _ | Null a | Array a _ | Hash a _ => a
  end.

Definition Type_ (o : Object) : ObjectType :=
  match o with
  | Integer _ _ => INTEGER_OBJ
  | Boolean _ _ => BOOLEAN_OBJ
  | String _ _ => STRING_OBJ
  | Null _ => NULL_OBJ
  | Array _ _ => ARRAY_OBJ
  | Hash _ _ => HASH_OBJ
  end.

(** [left == right] on two interface values holding pointers. *)
Definition same (left right : option Object) : bool :=
  match left, right with
  | None, None => true
  | Some l, Some r => (address l =? address r)%N
  | _, _ => false
  end.

(** Modelled from the spec: the 64-bit key of a string, here the FNV-1a
    hash of its bytes. *)
Definition fnv1a (s : string) : Z :=
  fold_left
    (fun h c => (Z.lxor h (Z.of_N (Ascii.N_of_ascii c)) * 1099511628211)
                  mod 18446744073709551616)
    (list_ascii_of_string s) 14695981039346656037.

(** Modelled from the spec: [HashKey()] of the values that are [Hashable];
    [None] for a value that is not. *)
Definition HashKey_ (o : Object) : option HashKey :=
  match o with
  | Integer _ v => Some (mkHashKey INTEGER_OBJ (v mod 18446744073709551616))
  | Boolean _ v => Some (mkHashKey BOOLEAN_OBJ (if v then 1 else 0))
  | String _ v => Some (mkHashKey STRING_OBJ (fnv1a v))
  | _ => None
  end.

Definition HashKey_eqb (a b : HashKey) : bool :=
  String.eqb (KeyType a) (KeyType b) && (KeyValue a =? KeyValue b).

(** [pairs[k] = v] on a Go map, kept as an association list. *)
Fixpoint map_set {V} (pairs : list (HashKey * V)) (k : HashKey) (v : V)
  : list (HashKey * V) :=
  match pairs with
  | [] => [(k, v)]
  | (k', v') :: pairs' =>
    if HashKey_eqb k' k then (k, v) :: pairs' else (k', v') :: map_set pairs' k v
  end.

End object.

(** ** [pkg/ast] of the interpreter: the syntax tree

    The package is not part of this repository; these are the node kinds
    the compiler dispatches on, and some of those it rejects. *)

Module ast.

#[local] Unset Elimination Schemes.

Inductive Expression : Type :=
| Identifier (Value : string)
| IntegerLiteral (Value : Z)
| StringLiteral (Value : string)
| Boolean (Value : bool)
| PrefixExpression (Operator : string) (Right : Expression)
| InfixExpression (Left : Expression) (Operator : string) (Right : Expression)
| IfExpression (Condition : Expression) (Consequence : BlockStatement)
    (Alternative : option BlockStatement)
| ArrayLiteral (Elements : list Expression)
| HashLiteral (Pairs : list (Expression * Expression))
| IndexExpression (Left : Expression) (Index : Expression)
| FunctionLiteral (Parameters : list string) (Body : BlockStatement)
| CallExpression (Function : Expression) (Arguments : list Expression)
with Statement : Type :=
| LetStatement (Name : string) (Value : Expression)
| ReturnStatement (ReturnValue : Expression)
| ExpressionStatement (Expression_ : Expression)
| BlockStatement_ (Block : BlockStatement)
with BlockStatement : Type :=
| Block (Statements : list Statement).

#[local] Set Elimination Schemes.

Definition Program : Type := list Statement.

(** A value of the interface [ast.Node]. *)
Inductive Node : Type :=
| NProgram (p : Program)
| NStatement (s : Statement)
| NBlock (b : BlockStatement)
| NExpression (e : Expression).

(** [%T] of an expression node. *)
Definition kind (e : Expression) : string :=
  match e with
  | Identifier _ => "*ast.Identifier"
  | IntegerLiteral _ => "*ast.IntegerLiteral"
  | StringLiteral _ => "*ast.StringLiteral"
  | Boolean _ => "*ast.Boolean"
  | PrefixExpression _ _ => "*ast.PrefixExpression"
  | InfixExpression _ _ _ => "*ast.InfixExpression"
  | IfExpression _ _ _ => "*ast.IfExpression"
  | ArrayLiteral _ => "*ast.ArrayLiteral"
  | HashLiteral _ => "*ast.HashLiteral"
  | IndexExpression _ _ => "*ast.IndexExpression"
  | FunctionLiteral _ _ => "*ast.FunctionLiteral"
  | CallExpression _ _ => "*ast.CallExpression"
  end.

End ast.

(** Induction on the syntax tree. *)
Section AstInduction.

Variables (P : ast.Expression -> Prop) (Q : ast.Statement -> Prop)
  (R : ast.BlockStatement -> Prop).

Hypotheses
  (HIdentifier : forall v, P (ast.Identifier v))
  (HInteger : forall v, P (ast.IntegerLiteral v))
  (HString : forall v, P (ast.StringLiteral v))
  (HBoolean : forall v, P (ast.Boolean v))
  (HPrefix : forall op r, P r -> P (ast.PrefixExpression op r))
  (HInfix : forall l op r, P l -> P r -> P (ast.InfixExpression l op r))
  (HIf : forall c consequence alt,
      P c -> R consequence -> match alt with Some a => R a | None => True end ->
      P (ast.IfExpression c consequence alt))
  (HArray : forall es, Forall P es -> P (ast.ArrayLiteral es))
  (HHash : forall ps, P (ast.HashLiteral ps))
  (HIndex : forall l i, P (ast.IndexExpression l i))
  (HFunction : forall ps b, P (ast.FunctionLiteral ps b))
  (HCall : forall f args, P (ast.CallExpression f args))
  (HLet : forall n v, P v -> Q (ast.LetStatement n v))
  (HReturn : forall v, Q (ast.ReturnStatement v))
  (HExpressionStatement : forall e, P e -> Q (ast.ExpressionStatement e))
  (HBlockStatement : forall b, R b -> Q (ast.BlockStatement_ b))
  (HBlock : forall ss, Forall Q ss -> R (ast.Block ss)).

Fixpoint Expression_induction (e : ast.Expression) : P e :=
  match e with
  | ast.Identifier v => HIdentifier v
  | ast.IntegerLiteral v => HInteger v
  | ast.StringLiteral v => HString v
  | ast.Boolean v => HBoolean v
  | ast.PrefixExpression op r => HPrefix op r (Expression_induction r)
  | ast.InfixExpression l op r =>
    HInfix l op r (Expression_induction l) (Expression_induction r)
  | ast.IfExpression c consequence alt =>
    HIf c consequence alt (Expression_induction c) (Block_induction consequence)
      (match alt return match alt with Some a => R a | None => True end with
       | Some a => Block_induction a
       | None => I
       end)
  | ast.ArrayLiteral es =>
    HArray es
      ((fix elements (es : list ast.Expression) : Forall P es :=
          match es with
          | [] => @List.Forall_nil _ P
          | e :: es' => @List.Forall_cons _ P e es' (Expression_induction e) (elements es')
          end) es)
  | ast.HashLiteral ps => HHash ps
  | ast.IndexExpression l i => HIndex l i
  | ast.FunctionLiteral ps b => HFunction ps b
  | ast.CallExpression f args => HCall f args
  end
with Statement_induction (s : ast.Statement) : Q s :=
  match s with
  | ast.LetStatement n v => HLet n v (Expression_induction v)
  | ast.ReturnStatement v => HReturn v
  | ast.ExpressionStatement e => HExpressionStatement e (Expression_induction e)
  | ast.BlockStatement_ b => HBlockStatement b (Block_induction b)
  end
with Block_induction (b : ast.BlockStatement) : R b :=
  match b with
  | ast.Block ss =>
    HBlock ss
      ((fix statements (ss : list ast.Statement) : Forall Q ss :=
          match ss with
          | [] => @List.Forall_nil _ Q
          | s :: ss' => @List.Forall_cons _ Q s ss' (Statement_induction s) (statements ss')
          end) ss)
  end.

End AstInduction.

(** ** [pkg/compiler] *)

Module compiler.

Record Symbol : Type := mkSymbol {
  Name : string;
  Index : Z
}.

(** Modelled from the spec: the symbol table, whose source file is not part
    of the repository.  A single scope; [Define] gives a name the next
    unused index, in definition order, and replaces an earlier binding of
    the name; [Resolve] is a lookup. *)
Record SymbolTable : Type := mkSymbolTable {
  store_ : gmap string Symbol;
  numDefinitions : Z
}.

Definition NewSymbolTable : SymbolTable := mkSymbolTable ∅ 0.

Definition Define (name : string) (s : SymbolTable) : Symbol * SymbolTable :=
  let symbol := mkSymbol name (numDefinitions s) in
  (symbol, mkSymbolTable (<[name := symbol]> (store_ s)) (numDefinitions s + 1)).

Definition Resolve (name : string) (s : SymbolTable) : option Symbol :=
  store_ s !! name.

Record Bytecode : Type := mkBytecode {
  Instructions : code.Instructions;
  Constants : list object.Object
}.

Record EmittedInstruction : Type := mkEmitted {
  OpCode : code.Opcode;
  Position : Z
}.

(** The struct [Compiler]; [heap] is not a field of it but the next free
    address of the allocator, which the compiler advances when it builds a
    constant. *)
Record Compiler : Type := mkCompiler {
  instructions : code.Instructions;
  constants : list object.Object;
  lastInstruction : EmittedInstruction;
  previousInstruction : EmittedInstruction;
  symbolTable : SymbolTable;
  heap : N
}.

Definition NewWithState (symbolTable : SymbolTable)
    (constants : list object.Object) (heap : N) : Compiler :=
  mkCompiler [] constants (mkEmitted 0 0) (mkEmitted 0 0) symbolTable heap.

(** The addresses 0, 1 and 2 hold the virtual machine's [True], [False] and
    [Null]; the first object allocated afterwards is at 3. *)
Definition New : Compiler :=
  mkCompiler [] [] (mkEmitted 0 0) (mkEmitted 0 0) NewSymbolTable 3.

Definition Bytecode_ (c : Compiler) : Bytecode :=
  mkBytecode (instructions c) (constants c).

Definition addConstant (obj : object.Object) : M Compiler Z := fun c =>
  let posNewConstant := len (constants c) in
  Ok (posNewConstant,
      mkCompiler (instructions c) (constants c ++ [obj]) (lastInstruction c)
        (previousInstruction c) (symbolTable c) (heap c)).

Definition addInstruction (ins : list byte) : M Compiler Z := fun c =>
  let posNewInstruction := len (instructions c) in
  Ok (posNewInstruction,
      mkCompiler (instructions c ++ ins) (constants c) (lastInstruction c)
        (previousInstruction c) (symbolTable c) (heap c)).

Definition setLastInstruction (op : code.Opcode) (pos : Z) : M Compiler unit :=
  fun c =>
  let previous := lastInstruction c in
  let last := mkEmitted op pos in
  Ok (tt,
      mkCompiler (instructions c) (constants c) last previous (symbolTable c)
        (heap c)).

Definition emit (op : code.Opcode) (operands : list Z) : M Compiler Z :=
  ins ← lift (code.Make op operands);
  pos ← addInstruction ins;
  setLastInstruction op pos;;
  mret pos.

Definition lastInstructionIsPop (c : Compiler) : bool :=
  OpCode (lastInstruction c) =? code.OpPop.

Definition removeLastPop : M Compiler unit := fun c =>
  ins ← slice_to (instructions c) (Position (lastInstruction c));
  Ok (tt,
      mkCompiler ins (constants c) (previousInstruction c)
        (previousInstruction c) (symbolTable c) (heap c)).

(** The loop of [replaceInstruction], from index [i] on. *)
Fixpoint replaceInstruction_loop (pos : Z) (newInstruction : list byte) (i : Z)
    (ins : code.Instructions) : outcome code.Instructions :=
  match newInstruction with
  | [] => Ok ins
  | b :: rest =>
    ins' ← store ins (pos + i) b;
    replaceInstruction_loop pos rest (i + 1) ins'
  end.

Definition replaceInstruction (pos : Z) (newInstruction : list byte)
  : M Compiler unit := fun c =>
  ins ← replaceInstruction_loop pos newInstruction 0 (instructions c);
  Ok (tt,
      mkCompiler ins (constants c) (lastInstruction c) (previousInstruction c)
        (symbolTable c) (heap c)).

Definition changeOperand (opPos : Z) (operand : Z) : M Compiler unit :=
  c ← get;
  op ← lift (index (instructions c) opPos);
  newInstruction ← lift (code.Make op [operand]);
  replaceInstruction opPos newInstruction.

(** [c.symbolTable.Define(name)] *)
Definition define (name : string) : M Compiler Symbol := fun c =>
  let '(symbol, table) := Define name (symbolTable c) in
  Ok (symbol,
      mkCompiler (instructions c) (constants c) (lastInstruction c)
        (previousInstruction c) table (heap c)).

(** [&object.Integer{...}] and [&object.String{...}]: a new object at the
    next free address. *)
Definition alloc (mk : N -> object.Object) : M Compiler object.Object :=
  fun c =>
  Ok (mk (heap c),
      mkCompiler (instructions c) (constants c) (lastInstruction c)
        (previousInstruction c) (symbolTable c) (heap c + 1)%N).

Definition nil_ : M Compiler error := mret None.
Definition Errorf (msg : string) : M Compiler error := mret (Some msg).

(** [if c.lastInstructionIsPop() { c.removeLastPop() }] *)
Definition dropLastPop : M Compiler unit :=
  c ← get;
  if lastInstructionIsPop c then removeLastPop else mret tt.

(** [Compile], by the kind of its node.  An unsupported node is reported
    with its [%T]; the rendering of its fields by [%+v] is left out of the
    message. *)
Fixpoint CompileExpression (node : ast.Expression) : M Compiler error :=
  match node with
  | ast.InfixExpression Left Operator Right =>
    check! CompileExpression Left;;;
    check! CompileExpression Right;;;
    if String.eqb Operator "+" then emit code.OpAdd [];; nil_
    else if String.eqb Operator "-" then emit code.OpSub [];; nil_
    else if String.eqb Operator "*" then emit code.OpMul [];; nil_
    else if String.eqb Operator "/" then emit code.OpDiv [];; nil_
    else if String.eqb Operator "==" then emit code.OpEqual [];; nil_
    else if String.eqb Operator "!=" then emit code.OpNotEqual [];; nil_
    else if String.eqb Operator "<" then emit code.OpLessThan [];; nil_
    else if String.eqb Operator ">" then emit code.OpGreaterThan [];; nil_
    else Errorf ("unknown operator " +:+ Operator)
  | ast.PrefixExpression Operator Right =>
    check! CompileExpression Right;;;
    if String.eqb Operator "!" then emit code.OpBang [];; nil_
    else if String.eqb Operator "-" then emit code.OpMinus [];; nil_
    else Errorf ("unknown prefix operator " +:+ Operator)
  | ast.IfExpression Condition Consequence Alternative =>
    check! CompileExpression Condition;;;
    jumpNotTruthyPos ← emit code.OpJumpNotTruthy [9999];
    check! CompileBlock Consequence;;;
    dropLastPop;;
    jumpPos ← emit code.OpJump [9999];
    c ← get;
    let afterConsequencePos := len (instructions c) in
    changeOperand jumpNotTruthyPos afterConsequencePos;;
    check! (match Alternative with
            | None => emit code.OpNull [];; nil_
            | Some Alternative =>
              check! CompileBlock Alternative;;;
              dropLastPop;; nil_
            end);;;
    c ← get;
    let afterAlternativePos := len (instructions c) in
    changeOperand jumpPos afterAlternativePos;;
    nil_
  | ast.Identifier Value =>
    c ← get;
    match Resolve Value (symbolTable c) with
    | None => Errorf ("undefined identifier " +:+ Value)
    | Some symbol => emit code.OpGetGlobal [Index symbol];; nil_
    end
  | ast.ArrayLiteral Elements =>
    check! (fix elements (es : list ast.Expression) : M Compiler error :=
              match es with
              | [] => nil_
              | e :: es' => check! CompileExpression e;;; elements es'
              end) Elements;;;
    emit code.OpArray [len Elements];; nil_
  | ast.StringLiteral Value =>
    string ← alloc (fun a => object.String a Value);
    i ← addConstant string;
    emit code.OpConstant [i];; nil_
  | ast.IntegerLiteral Value =>
    integer ← alloc (fun a => object.Integer a Value);
    i ← addConstant integer;
    emit code.OpConstant [i];; nil_
  | ast.Boolean Value =>
    if Value then emit code.OpTrue [];; nil_
    else emit code.OpFalse [];; nil_
  | _ => Errorf ("unsupported node encountered " +:+ ast.kind node)
  end
with CompileStatement (node : ast.Statement) : M Compiler error :=
  match node with
  | ast.ExpressionStatement Expression =>
    check! CompileExpression Expression;;;
    emit code.OpPop [];; nil_
  | ast.BlockStatement_ Block => CompileBlock Block
  | ast.LetStatement Name Value =>
    check! CompileExpression Value;;;
    symbol ← define Name;
    emit code.OpSetGlobal [Index symbol];; nil_
  | ast.ReturnStatement _ =>
    Errorf "unsupported node encountered *ast.ReturnStatement"
  end
with CompileBlock (node : ast.BlockStatement) : M Compiler error :=
  match node with
  | ast.Block Statements =>
    (fix statements (ss : list ast.Statement) : M Compiler error :=
       match ss with
       | [] => nil_
       | s :: ss' => check! CompileStatement s;;; statements ss'
       end) Statements
  end.

(** The loop of the [*ast.Program] case. *)
Fixpoint CompileStatements (ss : list ast.Statement) : M Compiler error :=
  match ss with
  | [] => nil_
  | s :: ss' => check! CompileStatement s;;; CompileStatements ss'
  end.

Definition Compile (node : ast.Node) : M Compiler error :=
  match node with
  | ast.NProgram p => CompileStatements p
  | ast.NStatement s => CompileStatement s
  | ast.NBlock b => CompileBlock b
  | ast.NExpression e => CompileExpression e
  end.

End compiler.

(** ** [pkg/vm] *)

Module vm.

Definition StackSize : Z := 2048.
Definition GlobalSize : Z := 65536.

Definition True_ : object.Object := object.Boolean 0 true.
Definition False_ : object.Object := object.Boolean 1 false.
Definition Null : object.Object := object.Null 2.

(** The struct [VM]; [heap] is not a field of it but the next free address
    of the allocator. *)
Record VM : Type := mkVM {
  constants : list object.Object;
  instructions : code.Instructions;
  global : list (option object.Object);
  stack : list (option object.Object);
  sp : Z;
  heap : N
}.

Definition NewWithState (bytecode : compiler.Bytecode)
    (global : list (option object.Object)) (heap : N) : VM :=
  mkVM (compiler.Constants bytecode) (compiler.Instructions bytecode) global
    (replicate (Z.to_nat StackSize) None) 0 heap.

Definition New (bytecode : compiler.Bytecode) (heap : N) : VM :=
  mkVM (compiler.Constants bytecode) (compiler.Instructions bytecode)
    (replicate (Z.to_nat GlobalSize) None)
    (replicate (Z.to_nat StackSize) None) 0 heap.

Definition set_stack (vm : VM) (stack : list (option object.Object)) (sp : Z)
  : VM :=
  mkVM (constants vm) (instructions vm) (global vm) stack sp (heap vm).

Definition set_global (vm : VM) (global : list (option object.Object)) : VM :=
  mkVM (constants vm) (instructions vm) global (stack vm) (sp vm) (heap vm).

Definition LastPoppedStackElement (vm : VM) : outcome (option object.Object) :=
  index (stack vm) (sp vm).

Definition push (o : option object.Object) : M VM error := fun vm =>
  if sp vm >=? StackSize then Ok (Some "stack overflow", vm)
  else
    stack' ← store (stack vm) (sp vm) o;
    Ok (None, set_stack vm stack' (sp vm + 1)).

Definition pop : M VM (option object.Object) := fun vm =>
  o ← index (stack vm) (sp vm - 1);
  Ok (o, set_stack vm (stack vm) (sp vm - 1)).

(** A new object at the next free address. *)
Definition alloc (mk : N -> object.Object) : M VM object.Object := fun vm =>
  Ok (mk (heap vm),
      mkVM (constants vm) (instructions vm) (global vm) (stack vm) (sp vm)
        (heap vm + 1)%N).

(** [o.Type()], a method call on an interface value. *)
Definition typeOf (o : option object.Object) : M VM object.ObjectType :=
  match o with
  | Some o => mret (object.Type_ o)
  | None => lift Panic
  end.

Definition Errorf (msg : string) : M VM error := mret (Some msg).

Definition isTruthy (obj : option object.Object) : bool :=
  match obj with
  | Some (object.Boolean _ Value) => Value
  | Some (object.Null _) => false
  | _ => true
  end.

Definition nativeBoolToBooleanObject (result : bool) : option object.Object :=
  if result then Some True_ else Some False_.

Definition executeMinusOperator : M VM error :=
  operand ← pop;
  t ← typeOf operand;
  if negb (String.eqb t object.INTEGER_OBJ) then
    Errorf ("unsupported type for negation: " +:+ t)
  else
    match operand with
    | Some (object.Integer _ value) =>
      r ← alloc (fun a => object.Integer a (wrap64 (- value)));
      push (Some r)
    | _ => lift Panic
    end.

Definition executeBangOperator : M VM error :=
  operand ← pop;
  if object.same operand (Some True_) then push (Some False_)
  else if object.same operand (Some False_) then push (Some True_)
  else if object.same operand (Some Null) then push (Some True_)
  else push (Some False_).

Definition executeIntegerComparison (op : code.Opcode)
    (left right : option object.Object) : M VM error :=
  match left, right with
  | Some (object.Integer _ leftValue), Some (object.Integer _ rightValue) =>
    if op =? code.OpEqual then
      push (nativeBoolToBooleanObject (leftValue =? rightValue))
    else if op =? code.OpNotEqual then
      push (nativeBoolToBooleanObject (negb (leftValue =? rightValue)))
    else if op =? code.OpLessThan then
      push (nativeBoolToBooleanObject (leftValue <? rightValue))
    else if op =? code.OpGreaterThan then
      push (nativeBoolToBooleanObject (leftValue >? rightValue))
    else Errorf ("unknown operator: " +:+ itoa op)
  | _, _ => lift Panic
  end.

Definition executeComparison (op : code.Opcode) : M VM error :=
  right ← pop;
  left ← pop;
  leftType ← typeOf left;
  rightType ← typeOf right;
  if String.eqb leftType object.INTEGER_OBJ
     && String.eqb rightType object.INTEGER_OBJ then
    executeIntegerComparison op left right
  else if op =? code.OpEqual then
    push (nativeBoolToBooleanObject (object.same left right))
  else if op =? code.OpNotEqual then
    push (nativeBoolToBooleanObject (negb (object.same left right)))
  else
    Errorf ("unknown operator: " +:+ itoa op +:+ " (" +:+ leftType +:+ " "
            +:+ rightType +:+ ")").

Definition executeBinaryIntegerOberation (op : code.Opcode)
    (left right : option object.Object) : M VM error :=
  match left, right with
  | Some (object.Integer _ lValue), Some (object.Integer _ rValue) =>
    if op =? code.OpAdd then
      r ← alloc (fun a => object.Integer a (wrap64 (lValue + rValue)));
      push (Some r)
    else if op =? code.OpSub then
      r ← alloc (fun a => object.Integer a (wrap64 (lValue - rValue)));
      push (Some r)
    else if op =? code.OpMul then
      r ← alloc (fun a => object.Integer a (wrap64 (lValue * rValue)));
      push (Some r)
    else if op =? code.OpDiv then
      if rValue =? 0 then lift Panic
      else
        r ← alloc (fun a => object.Integer a (wrap64 (lValue ÷ rValue)));
        push (Some r)
    else Errorf ("unknown interger operator: " +:+ itoa op)
  | _, _ => lift Panic
  end.

Definition executeBinaryStringOperation (op : code.Opcode)
    (left right : option object.Object) : M VM error :=
  match left, right with
  | Some (object.String _ lValue), Some (object.String _ rValue) =>
    if op =? code.OpAdd then
      r ← alloc (fun a => object.String a (lValue +:+ rValue));
      push (Some r)
    else Errorf ("unknown interger operator: " +:+ itoa op)
  | _, _ => lift Panic
  end.

Definition executeBinaryOperation (op : code.Opcode) : M VM error :=
  right ← pop;
  left ← pop;
  leftType ← typeOf left;
  rightType ← typeOf right;
  if String.eqb leftType object.INTEGER_OBJ
     && String.eqb rightType object.INTEGER_OBJ then
    executeBinaryIntegerOberation op left right
  else if String.eqb leftType object.STRING_OBJ
          && String.eqb rightType object.STRING_OBJ then
    executeBinaryStringOperation op left right
  else
    Errorf ("unsupported types for binary operation: " +:+ leftType +:+ " "
            +:+ rightType).

(** How an iteration of the loop of [Run] ends: with [return err], or at
    the end of the loop body with the current value of [ip]. *)
Inductive flow : Type :=
| Return (err : string)
| Next (ip : Z).

(** [if err := m; err != nil { return err }] *)
Definition returning (m : M VM error) (ip : Z) : M VM flow :=
  err ← m;
  match err with
  | Some e => mret (Return e)
  | None => mret (Next ip)
  end.

(** A call whose [error] result is dropped. *)
Definition discarding (m : M VM error) (ip : Z) : M VM flow :=
  m;; mret (Next ip).

(** [code.ReadUint16(vm.instructions[ip+1:])] *)
Definition operand (ip : Z) : M VM Z := fun vm =>
  tail ← slice_from (instructions vm) (ip + 1);
  v ← code.ReadUint16 tail;
  Ok (v, vm).

(** The loop of [OpArray]: the elements are popped last to first. *)
Fixpoint popElements (n : nat) (elements : list (option object.Object))
  : M VM (list (option object.Object)) :=
  match n with
  | O => mret elements
  | S n' => o ← pop; popElements n' (o :: elements)
  end.

(** The loop of [OpHash]: the error it returns, or the pairs it built. *)
Fixpoint popPairs (n : nat)
    (pairs : list (object.HashKey * (object.Object * option object.Object)))
  : M VM (string +
          list (object.HashKey * (object.Object * option object.Object))) :=
  match n with
  | O => mret (inr pairs)
  | S n' =>
    value ← pop;
    key ← pop;
    match key with
    | None => lift Panic
    | Some k =>
      match object.HashKey_ k with
      | None => mret (inl ("unusable as hash key: " +:+ object.Type_ k))
      | Some hashKey => popPairs n' (object.map_set pairs hashKey (k, value))
      end
    end
  end.

(** The body of the loop of [Run], at instruction pointer [ip]. *)
Definition Run_body (ip : Z) : M VM flow :=
  vm ← get;
  op ← lift (index (instructions vm) ip);
  if op =? code.OpNull then returning (push (Some Null)) ip
  else if op =? code.OpPop then pop;; mret (Next ip)
  else if op =? code.OpConstant then
    constIndex ← operand ip;
    let ip := ip + 2 in
    c ← lift (index (constants vm) constIndex);
    returning (push (Some c)) ip
  else if op =? code.OpTrue then returning (push (Some True_)) ip
  else if op =? code.OpFalse then returning (push (Some False_)) ip
  else if op =? code.OpArray then
    elements ← operand ip;
    let ip := ip + 2 in
    array ← alloc (fun a => object.Array a []);
    es ← popElements (Z.to_nat elements) [];
    returning (push (Some (object.Array (object.address array) es))) ip
  else if op =? code.OpHash then
    pairs ← operand ip;
    let ip := ip + 2 in
    hash ← alloc (fun a => object.Hash a []);
    r ← popPairs (Z.to_nat pairs) [];
    match r with
    | inl err => mret (Return err)
    | inr ps => returning (push (Some (object.Hash (object.address hash) ps))) ip
    end
  else if (op =? code.OpAdd) || (op =? code.OpSub) || (op =? code.OpMul)
          || (op =? code.OpDiv) then
    discarding (executeBinaryOperation op) ip
  else if (op =? code.OpEqual) || (op =? code.OpNotEqual)
          || (op =? code.OpLessThan) || (op =? code.OpGreaterThan) then
    discarding (executeComparison op) ip
  else if op =? code.OpBang then returning executeBangOperator ip
  else if op =? code.OpMinus then returning executeMinusOperator ip
  else if op =? code.OpJump then
    address ← operand ip;
    mret (Next (address - 1))
  else if op =? code.OpJumpNotTruthy then
    address ← operand ip;
    let ip := ip + 2 in
    condition ← pop;
    if negb (isTruthy condition) then mret (Next (address - 1))
    else mret (Next ip)
  else if op =? code.OpGetGlobal then
    globalIndex ← operand ip;
    let ip := ip + 2 in
    vm ← get;
    value ← lift (index (global vm) globalIndex);
    returning (push value) ip
  else if op =? code.OpSetGlobal then
    globalIndex ← operand ip;
    let ip := ip + 2 in
    value ← pop;
    vm ← get;
    global' ← lift (store (global vm) globalIndex value);
    put (set_global vm global');;
    mret (Next ip)
  else mret (Next ip).

(** The loop [for ip := 0; ip < len(vm.instructions); ip++] of [Run], from
    the value [ip], for at most [fuel] iterations; [None] when the loop has
    not finished by then. *)
Fixpoint Run_loop (fuel : nat) (ip : Z) (vm : VM)
  : option (outcome (error * VM)) :=
  if ip <? len (instructions vm) then
    match fuel with
    | O => None
    | S fuel' =>
      match Run_body ip vm with
      | Ok (Next ip', vm') => Run_loop fuel' (ip' + 1) vm'
      | Ok (Return err, vm') => Some (Ok (Some err, vm'))
      | Panic => Some Panic
      end
    end
  else Some (Ok (None, vm)).

Definition Run (fuel : nat) (vm : VM) : option (outcome (error * VM)) :=
  Run_loop fuel 0 vm.

End vm.

(** ** [pkg/repl]

    The lexer and the parser are not part of this repository: a line is
    given by what the parser makes of it.  [Inspect], the rendering of a
    value, belongs to the object package and is a parameter. *)

Module repl.

Definition PROMPT : string := "> ".

Inductive Line : Type :=
| ParserErrors (errors : list string)
| Parsed (program : ast.Program).

Definition printParserErrors (errors : list string) : string :=
  "Woops! Parser errors detected..." +:+ LF +:+ "  Errors:" +:+ LF +:+
  fold_left (fun out e => out +:+ String.String (Ascii.ascii_of_nat 9) e +:+ LF)
    errors "".

Section Start.

Variable Inspect : object.Object -> string.

(** What [Start] writes for one line, when the machine finishes within
    [fuel] iterations.  Each line gets a new compiler and a new machine, so
    no object of an earlier line is reachable and the allocator is taken to
    start afresh. *)
Definition Start_line (fuel : nat) (line : Line) : option (outcome string) :=
  match line with
  | ParserErrors errors => Some (Ok (printParserErrors errors))
  | Parsed program =>
    let compiler := compiler.New in
    match compiler.Compile (ast.NProgram program) compiler with
    | Panic => Some Panic
    | Ok (Some err, _) =>
      Some (Ok ("Woops! Compilation failed:" +:+ LF +:+ " " +:+ err +:+ LF))
    | Ok (None, compiler) =>
      let machine :=
        vm.New (compiler.Bytecode_ compiler) (compiler.heap compiler) in
      match vm.Run fuel machine with
      | None => None
      | Some Panic => Some Panic
      | Some (Ok (Some err, _)) =>
        Some (Ok ("Woops! Executing bytecode failed:" +:+ LF +:+ " " +:+ err
                  +:+ LF))
      | Some (Ok (None, machine)) =>
        match vm.LastPoppedStackElement machine with
        | Ok (Some stackTop) => Some (Ok (Inspect stackTop +:+ LF))
        | _ => Some Panic
        end
      end
    end
  end.

(** [Start] on the lines the scanner delivers, the output so far being
    [out]. *)
Fixpoint Start_loop (fuel : nat) (lines : list Line) (out : string)
  : option (outcome string) :=
  let out := out +:+ PROMPT in
  match lines with
  | [] => Some (Ok out)
  | line :: lines' =>
    match Start_line fuel line with
    | None => None
    | Some Panic => Some Panic
    | Some (Ok text) => Start_loop fuel lines' (out +:+ text)
    end
  end.

Definition Start (fuel : nat) (lines : list Line) : option (outcome string) :=
  Start_loop fuel lines "".

End Start.

End repl.

(** * Definitions used in the statements *)

Module scenario.

Import ast.

(** An operand fits a field of [w] bytes. *)
Definition fits (o w : Z) : Prop := 0 <= o < 2 ^ (8 * w).

(** [if (true) { 10 } else { 20 }; 3333;] *)
Definition conditional_program : Program :=
  [ ExpressionStatement
      (IfExpression (Boolean true)
         (Block [ExpressionStatement (IntegerLiteral 10)])
         (Some (Block [ExpressionStatement (IntegerLiteral 20)])));
    ExpressionStatement (IntegerLiteral 3333) ].

(** The instructions a compiler test expects, concatenated. *)
Fixpoint concatenateInstructions (s : list (outcome (list byte)))
  : outcome (list byte) :=
  match s with
  | [] => Ok []
  | ins :: s' =>
    ins ← ins; out ← concatenateInstructions s'; Ok (ins ++ out)
  end.

(** [1 < 2] *)
Definition less_than_program : Program :=
  [ ExpressionStatement
      (InfixExpression (IntegerLiteral 1) "<" (IntegerLiteral 2)) ].

(** The lowering of [Left < Right] as the specification words it: the right
    operand, then the left operand, then [OpGreaterThan]. *)
Definition swapped_lowering (Left Right : Expression) : M compiler.Compiler error :=
  check! compiler.CompileExpression Right;;;
  check! compiler.CompileExpression Left;;;
  compiler.emit code.OpGreaterThan [];; compiler.nil_.

(** [true + 1] *)
Definition ill_typed_sum : Program :=
  [ ExpressionStatement (InfixExpression (Boolean true) "+" (IntegerLiteral 1)) ].

(** ["a" == "a"] *)
Definition equal_strings : Program :=
  [ ExpressionStatement
      (InfixExpression (StringLiteral "a") "==" (StringLiteral "a")) ].

(** [true == true], [false == false] *)
Definition equal_booleans (b : bool) : Program :=
  [ ExpressionStatement (InfixExpression (Boolean b) "==" (Boolean b)) ].

(** [if (false) { 1 } == if (false) { 1 }], whose operands are both null *)
Definition equal_nulls : Program :=
  let null :=
    IfExpression (Boolean false)
      (Block [ExpressionStatement (IntegerLiteral 1)]) None in
  [ ExpressionStatement (InfixExpression null "==" null) ].

(** [let a = 1] and [a], entered on two lines *)
Definition session : list repl.Line :=
  [ repl.Parsed [LetStatement "a" (IntegerLiteral 1)];
    repl.Parsed [ExpressionStatement (Identifier "a")] ].

(** The machine [runVmTests] builds for a program and the result of its
    [Run], when the program compiles. *)
Definition compile_and_run (fuel : nat) (program : Program)
  : option (outcome (error * vm.VM)) :=
  match compiler.Compile (NProgram program) compiler.New with
  | Ok (None, c) =>
    vm.Run fuel (vm.New (compiler.Bytecode_ c) (compiler.heap c))
  | _ => None
  end.

(** [let one = 1; let two = one + one; one + two] *)
Definition let_program : Program :=
  [ LetStatement "one" (IntegerLiteral 1);
    LetStatement "two"
      (InfixExpression (Identifier "one") "+" (Identifier "one"));
    ExpressionStatement
      (InfixExpression (Identifier "one") "+" (Identifier "two")) ].

(** The statements [0; 0; ...; 0; 7;], with 65536 times the statement
    [0;]: a program of 65537 constants. *)
Definition many_constants : Program :=
  replicate (Z.to_nat 65536) (ExpressionStatement (IntegerLiteral 0))
  ++ [ExpressionStatement (IntegerLiteral 7)].

(** What a test reads off the result of [Run]: the error, the stack pointer
    and the last popped stack element. *)
Definition observe (r : option (outcome (error * vm.VM)))
  : option (outcome (error * (Z * outcome (option object.Object)))) :=
  match r with
  | Some (Ok (err, m)) =>
    Some (Ok (err, (vm.sp m, vm.LastPoppedStackElement m)))
  | Some Panic => Some Panic
  | None => None
  end.

(** The instruction pointer and the machine after [n] iterations of the
    loop of [Run], none of which returns. *)
Fixpoint Run_prefix (n : nat) (ip : Z) (m : vm.VM) : outcome (Z * vm.VM) :=
  match n with
  | O => Ok (ip, m)
  | S n' =>
    match vm.Run_body ip m with
    | Ok (vm.Next ip', m') => Run_prefix n' (ip' + 1) m'
    | _ => Panic
    end
  end.

End scenario.

(** * Structured code

    The instructions [Compile] emits for a node are those of a tree: single
    instructions, sequences, array constructions and conditionals.  The
    tree has a layout in bytes ([flat]), an effect on the machine ([exec])
    that is defined without an instruction pointer, and a bound on its
    effect on the stack pointer ([delta]). *)

Module structured.

Inductive tcode : Type :=
| TOp (op : code.Opcode)
| TOp1 (op : code.Opcode) (operand : Z)
| TArray (elements : tcode) (n : Z)
| TSeq (a b : tcode)
| TSkip
| TIf (consequence alternative : tcode).

Fixpoint size (t : tcode) : Z :=
  match t with
  | TOp _ => 1
  | TOp1 _ _ => 3
  | TArray elements _ => size elements + 3
  | TSeq a b => size a + size b
  | TSkip => 0
  | TIf consequence alternative => 3 + size consequence + 3 + size alternative
  end.

(** The bytes of an instruction with one 2-byte operand. *)
Definition wide_instruction (op : code.Opcode) (operand : Z) : list byte :=
  [op; Z.land (Z.shiftr (uint16 operand) 8) 255; Z.land (uint16 operand) 255].

(** The bytes of a tree placed at offset [pos]; the jumps of a conditional
    hold the offsets after its consequence and after its alternative. *)
Fixpoint flat (pos : Z) (t : tcode) : list byte :=
  match t with
  | TOp op => [op]
  | TOp1 op operand => wide_instruction op operand
  | TArray elements n => flat pos elements ++ wide_instruction code.OpArray n
  | TSeq a b => flat pos a ++ flat (pos + size a) b
  | TSkip => []
  | TIf consequence alternative =>
    let afterConsequence := pos + 3 + size consequence + 3 in
    let afterAlternative := afterConsequence + size alternative in
    wide_instruction code.OpJumpNotTruthy afterConsequence
    ++ flat (pos + 3) consequence
    ++ wide_instruction code.OpJump afterAlternative
    ++ flat afterConsequence alternative
  end.

(** The opcodes without operand. *)
Definition plain : list code.Opcode :=
  [ code.OpNull; code.OpPop; code.OpTrue; code.OpFalse; code.OpBang;
    code.OpMinus; code.OpAdd; code.OpSub; code.OpMul; code.OpDiv;
    code.OpEqual; code.OpNotEqual; code.OpLessThan; code.OpGreaterThan ].

(** The opcodes with an index as operand. *)
Definition indexed : list code.Opcode :=
  [ code.OpConstant; code.OpGetGlobal; code.OpSetGlobal ].

(** A bound on what an instruction adds to the stack pointer. *)
Definition delta_plain (op : code.Opcode) : Z :=
  if (op =? code.OpNull) || (op =? code.OpTrue) || (op =? code.OpFalse) then 1
  else if (op =? code.OpPop)
          || (op =? code.OpAdd) || (op =? code.OpSub) || (op =? code.OpMul)
          || (op =? code.OpDiv)
          || (op =? code.OpEqual) || (op =? code.OpNotEqual)
          || (op =? code.OpLessThan) || (op =? code.OpGreaterThan) then -1
  else 0.

Definition delta_indexed (op : code.Opcode) : Z :=
  if op =? code.OpSetGlobal then -1 else 1.

Fixpoint delta (t : tcode) : Z :=
  match t with
  | TOp op => delta_plain op
  | TOp1 op _ => delta_indexed op
  | TArray elements n => delta elements + 1 - n
  | TSeq a b => delta a + delta b
  | TSkip => 0
  | TIf consequence alternative =>
    Z.max (delta consequence) (delta alternative) - 1
  end.

(** The trees the compiler builds: known opcodes, and arrays that count no
    more elements than their code has bytes and than it pushes values. *)
Fixpoint wf (t : tcode) : Prop :=
  match t with
  | TOp op => In op plain
  | TOp1 op _ => In op indexed
  | TArray elements n =>
    wf elements /\ 0 <= n <= size elements /\ delta elements <= n
  | TSeq a b => wf a /\ wf b
  | TSkip => True
  | TIf consequence alternative => wf consequence /\ wf alternative
  end.

(** The offsets the jumps of a tree at [pos] hold fit their 16 bits. *)
Fixpoint jumps_fit (pos : Z) (t : tcode) : Prop :=
  match t with
  | TArray elements _ => jumps_fit pos elements
  | TSeq a b => jumps_fit pos a /\ jumps_fit (pos + size a) b
  | TIf consequence alternative =>
    0 <= pos /\ pos + size t < 65536 /\
    jumps_fit (pos + 3) consequence /\
    jumps_fit (pos + 3 + size consequence + 3) alternative
  | _ => True
  end.

Definition nil_ : M vm.VM error := mret None.

(** What the loop body of [Run] does for an instruction without operand. *)
Definition exec_plain (op : code.Opcode) : M vm.VM error :=
  if op =? code.OpNull then vm.push (Some vm.Null)
  else if op =? code.OpPop then vm.pop;; nil_
  else if op =? code.OpTrue then vm.push (Some vm.True_)
  else if op =? code.OpFalse then vm.push (Some vm.False_)
  else if (op =? code.OpAdd) || (op =? code.OpSub) || (op =? code.OpMul)
          || (op =? code.OpDiv) then
    vm.executeBinaryOperation op;; nil_
  else if (op =? code.OpEqual) || (op =? code.OpNotEqual)
          || (op =? code.OpLessThan) || (op =? code.OpGreaterThan) then
    vm.executeComparison op;; nil_
  else if op =? code.OpBang then vm.executeBangOperator
  else if op =? code.OpMinus then vm.executeMinusOperator
  else nil_.

(** What the loop body of [Run] does for an instruction with the decoded
    operand [operand]. *)
Definition exec_wide (op : code.Opcode) (operand : Z) : M vm.VM error :=
  if op =? code.OpConstant then
    m ← get;
    c ← lift (index (vm.constants m) operand);
    vm.push (Some c)
  else if op =? code.OpArray then
    array ← vm.alloc (fun a => object.Array a []);
    es ← vm.popElements (Z.to_nat operand) [];
    vm.push (Some (object.Array (object.address array) es))
  else if op =? code.OpGetGlobal then
    m ← get;
    value ← lift (index (vm.global m) operand);
    vm.push value
  else if op =? code.OpSetGlobal then
    value ← vm.pop;
    m ← get;
    global' ← lift (store (vm.global m) operand value);
    put (vm.set_global m global');;
    nil_
  else nil_.

Fixpoint exec (t : tcode) : M vm.VM error :=
  match t with
  | TOp op => exec_plain op
  | TOp1 op operand => exec_wide op (operand mod 65536)
  | TArray elements n =>
    check! exec elements;;; exec_wide code.OpArray (n mod 65536)
  | TSeq a b => check! exec a;;; exec b
  | TSkip => nil_
  | TIf consequence alternative =>
    condition ← vm.pop;
    if negb (vm.isTruthy condition) then exec alternative
    else exec consequence
  end.

(** The machine [m] with other instructions. *)
Definition with_instructions (ins : code.Instructions) (m : vm.VM) : vm.VM :=
  vm.mkVM (vm.constants m) ins (vm.global m) (vm.stack m) (vm.sp m)
    (vm.heap m).

(** The bytes [code] stand at offset [pos] of [ins]. *)
Definition code_at (ins : list byte) (pos : Z) (code : list byte) : Prop :=
  exists before after,
    ins = before ++ code ++ after /\ len before = pos.

(** The instructions stay, and the stack pointer grows by at most [d] and
    stays non-negative. *)
Definition steps (d : Z) (m m' : vm.VM) : Prop :=
  vm.sp m' <= vm.sp m + d /\ (0 <= vm.sp m -> 0 <= vm.sp m').

(** A method after which the stack pointer has grown by at most [d]. *)
Definition bounded {A} (d : Z) (f : M vm.VM A) : Prop :=
  forall m r m', f m = Ok (r, m') -> steps d m m'.

(** The same, for the runs of the method that return no error. *)
Definition bounded_ok (d : Z) (f : M vm.VM error) : Prop :=
  forall m m', f m = Ok (None, m') -> steps d m m'.

(** The result of a method, on the machine with other instructions. *)
Definition relocate {A} (ins : list byte) (r : outcome (A * vm.VM))
  : outcome (A * vm.VM) :=
  match r with
  | Ok (a, m) => Ok (a, with_instructions ins m)
  | Panic => Panic
  end.

(** A method that does not look at the instructions. *)
Definition stable {A} (f : M vm.VM A) : Prop :=
  forall ins m, f (with_instructions ins m) = relocate ins (f m).

(** From offset [pos] the loop of [Run] does what the method [f] does and
    goes on at offset [pos']: some number of iterations later it has
    returned the error of [f], or has panicked as [f] does, or is at [pos']
    on the machine [f] leaves. *)
Definition simulates (f : M vm.VM error) (pos pos' : Z) (m : vm.VM) : Prop :=
  exists n, forall fuel,
    vm.Run_loop (n + fuel) pos m
    = match f m with
      | Ok (None, m') => vm.Run_loop fuel pos' m'
      | Ok (Some err, m') => Some (Ok (Some err, m'))
      | Panic => Some Panic
      end.

(** The tree of [n] statements that are integer literals, the first of
    which has the constant of index [k]. *)
Fixpoint literals (k : Z) (n : nat) : tcode :=
  match n with
  | O => TSkip
  | S n' =>
    TSeq (TSeq (TOp1 code.OpConstant k) (TOp code.OpPop)) (literals (k + 1) n')
  end.

(** The loop of the array case of [Compile]. *)
Fixpoint CompileElements (es : list ast.Expression) : M compiler.Compiler error :=
  match es with
  | [] => compiler.nil_
  | e :: es' => check! compiler.CompileExpression e;;; CompileElements es'
  end.

(** The compiler with other instructions and instruction records. *)
Definition emitted (c : compiler.Compiler) (ins : list byte)
    (last previous : compiler.EmittedInstruction) : compiler.Compiler :=
  compiler.mkCompiler ins (compiler.constants c) last previous
    (compiler.symbolTable c) (compiler.heap c).

(** What compiling an expression adds to the compiler: the bytes of a tree
    that pushes at most one value and does not end in the [OpPop] of an
    expression statement. *)
Definition expression_code (c c' : compiler.Compiler) : Prop :=
  exists t,
    wf t /\ delta t <= 1 /\ 1 <= size t /\
    compiler.instructions c'
    = compiler.instructions c ++ flat (len (compiler.instructions c)) t /\
    compiler.OpCode (compiler.lastInstruction c') <> code.OpPop.

(** What compiling [n] array elements adds. *)
Definition elements_code (n : Z) (c c' : compiler.Compiler) : Prop :=
  exists t,
    wf t /\ delta t <= n /\ n <= size t /\
    compiler.instructions c'
    = compiler.instructions c ++ flat (len (compiler.instructions c)) t.

(** What compiling statements adds: the bytes of a tree that pushes no
    value, and either nothing, or something whose last instruction is not
    [OpPop], or the code of a value followed by the [OpPop] the compiler
    has recorded as last instruction. *)
Definition statement_code (c c' : compiler.Compiler) : Prop :=
  (exists t,
     wf t /\ delta t <= 0 /\
     compiler.instructions c'
     = compiler.instructions c ++ flat (len (compiler.instructions c)) t) /\
  ((compiler.instructions c' = compiler.instructions c /\
    compiler.lastInstruction c' = compiler.lastInstruction c /\
    compiler.previousInstruction c' = compiler.previousInstruction c) \/
   compiler.OpCode (compiler.lastInstruction c') <> code.OpPop \/
   (exists t,
      wf t /\ delta t <= 1 /\
      compiler.instructions c'
      = compiler.instructions c ++ flat (len (compiler.instructions c)) t
        ++ [code.OpPop] /\
      compiler.lastInstruction c'
      = compiler.mkEmitted code.OpPop
          (len (compiler.instructions c) + size t) /\
      compiler.OpCode (compiler.previousInstruction c') <> code.OpPop)).

End structured.

(** * Definitions used in the statements about the rest of the code *)

Module listing.

(** The instructions a test writes as [code.Make(op, operands...)], one
    after the other, concatenated. *)
Definition assemble (instructions : list (code.Opcode * list Z))
  : outcome (list byte) :=
  scenario.concatenateInstructions
    (map (fun i => code.Make i.1 i.2) instructions).

(** An instruction [Make] builds from a registered opcode and operands
    within their widths. *)
Definition encodable (i : code.Opcode * list Z) : Prop :=
  exists def,
    code.Lookup i.1 = inl def /\
    Forall2 scenario.fits i.2 (code.OperandWidths def).

(** The lines of a disassembly that starts at offset [pos]: for each
    instruction its offset, its name and its operands. *)
Fixpoint disassembly (pos : Z) (instructions : list (code.Opcode * list Z))
  : string :=
  match instructions with
  | [] => ""
  | (op, operands) :: instructions' =>
    match code.Lookup op with
    | inl def =>
      (itoa04 pos +:+ " " +:+ code.fmtInstruction def operands +:+ LF)
      +:+ disassembly (pos + fold_left Z.add (code.OperandWidths def) 1)
            instructions'
    | inr _ => ""
    end
  end.

End listing.

Module growth.

(** The compiler [c'] holds the instructions and the constants of [c],
    each followed by what was added. *)
Definition extends (c c' : compiler.Compiler) : Prop :=
  (exists added,
     compiler.instructions c' = compiler.instructions c ++ added) /\
  (exists objects,
     compiler.constants c' = compiler.constants c ++ objects).

(** A method of the compiler that returns, with or without an error, and
    only adds to the instructions and constants. *)
Definition appends (f : M compiler.Compiler error) : Prop :=
  forall c, exists err c', f c = Ok (err, c') /\ extends c c'.

End growth.

Module machine.

(** The objects the virtual machine shares are its three singletons: a
    boolean is [True] or [False], a null is [Null], and no other object
    has the address of one of them. *)
Definition canonical (o : option object.Object) : Prop :=
  match o with
  | Some (object.Boolean a v) => a = (if v then 0 else 1)%N
  | Some (object.Null a) => a = 2%N
  | Some o => (2 < object.address o)%N
  | None => True
  end.

(** What [+], [-], [*] and [/] compute on the [int64] values [l] and [r],
    before the result wraps. *)
Definition arithmetic (op : code.Opcode) (l r : Z) : Z :=
  if op =? code.OpAdd then l + r
  else if op =? code.OpSub then l - r
  else if op =? code.OpMul then l * r
  else l ÷ r.

(** The values [vs] pushed one after the other, the first one first. *)
Fixpoint pushes (vs : list (option object.Object)) : M vm.VM error :=
  match vs with
  | [] => mret None
  | v :: vs' => check! vm.push v;;; pushes vs'
  end.

End machine.

(** * Properties *)

(** ** The instruction codec *)

Section Codec.

Import scenario.

Import code.

Lemma assoc_In m op def : assoc m op = Some def -> In (op, def) m.
Proof.
  induction m as [|[k d] m IH]; simpl; [discriminate|].
  destruct (Z.eqb_spec k op) as [->|_].
  - intros [= ->]. now left.
  - intros H. right. now apply IH.
Qed.

(** The two bytes [PutUint16] writes hold the operand modulo 2^16. *)
Lemma Uint16_PutUint16 o :
  Z.lor (Z.land (uint16 o) 255) (Z.shiftl (Z.land (Z.shiftr (uint16 o) 8) 255) 8)
  = o mod 65536.
Proof.
  unfold uint16.
  change 65535 with (Z.ones 16). change 255 with (Z.ones 8).
  change 65536 with (2 ^ 16).
  apply Z.bits_inj'. intros n Hn.
  rewrite Z.lor_spec, !Z.land_spec, Z.testbit_mod_pow2 by lia.
  destruct (Z.ltb_spec n 8) as [H8|H8].
  - rewrite Z.shiftl_spec_low by lia.
    rewrite !Z.testbit_ones_nonneg by lia.
    replace (n <? 16) with true by (symmetry; apply Z.ltb_lt; lia).
    replace (n <? 8) with true by (symmetry; apply Z.ltb_lt; lia).
    simpl. now rewrite !andb_true_r, orb_false_r.
  - rewrite Z.shiftl_spec by lia.
    rewrite Z.land_spec, Z.shiftr_spec, Z.land_spec by lia.
    replace (n - 8 + 8) with n by lia.
    rewrite !Z.testbit_ones_nonneg by lia.
    replace (n <? 8) with false by (symmetry; apply Z.ltb_ge; lia).
    destruct (Z.ltb_spec n 16) as [H16|H16].
    + replace (n - 8 <? 8) with true by (symmetry; apply Z.ltb_lt; lia).
      simpl. now rewrite !andb_true_r, andb_false_r.
    + replace (n - 8 <? 8) with false by (symmetry; apply Z.ltb_ge; lia).
      simpl. now rewrite !andb_false_r.
Qed.

(** The instruction [Make] builds for an opcode with one 2-byte operand. *)
Lemma Make_wide op def o :
  assoc definitions op = Some def ->
  OperandWidths def = [2] ->
  Make op [o]
  = Ok [op; Z.land (Z.shiftr (uint16 o) 8) 255; Z.land (uint16 o) 255].
Proof.
  intros Hdef Hw. unfold Make. rewrite Hdef, Hw. reflexivity.
Qed.

(** The instruction [Make] builds for an opcode without operands. *)
Lemma Make_plain op def :
  assoc definitions op = Some def ->
  OperandWidths def = [] ->
  Make op [] = Ok [op].
Proof.
  intros Hdef Hw. unfold Make. rewrite Hdef, Hw. reflexivity.
Qed.

Lemma ReadOperands_wide def b0 b1 rest :
  OperandWidths def = [2] ->
  ReadOperands def (b0 :: b1 :: rest) = Ok ([Z.lor b1 (Z.shiftl b0 8)], 2).
Proof. intros Hw. unfold ReadOperands. rewrite Hw. reflexivity. Qed.

(** Every registered opcode takes no operand or one operand of 2 bytes. *)
Lemma definitions_widths op def :
  assoc definitions op = Some def ->
  OperandWidths def = [] \/ OperandWidths def = [2].
Proof.
  intros H. apply assoc_In in H. simpl in H.
  repeat (destruct H as [[= <- <-]|H]; [simpl; auto|]). destruct H.
Qed.

(** C3. Encoding round trip: for a registered opcode and a list of
    operands, one for each operand width of its definition and each
    fitting its width, [ReadOperands] applied to the definition and to the
    instruction [Make] builds, less its first byte, returns the operands and
    the sum of the widths. *)
Theorem Make_ReadOperands_roundtrip op def ops :
  Lookup op = inl def ->
  Forall2 fits ops (OperandWidths def) ->
  exists ins tail,
    Make op ops = Ok ins /\
    slice_from ins 1 = Ok tail /\
    ReadOperands def tail = Ok (ops, fold_right Z.add 0 (OperandWidths def)).
Proof.
  unfold Lookup. destruct (assoc definitions op) as [d|] eqn:Hdef; [|discriminate].
  intros [= ->] Hfits.
  destruct (definitions_widths _ _ Hdef) as [Hw|Hw]; rewrite Hw in Hfits |- *.
  - inversion Hfits; subst.
    exists [op], []. rewrite (Make_plain _ _ Hdef Hw).
    repeat split. unfold ReadOperands. now rewrite Hw.
  - inversion Hfits as [|o w ops' ws Ho Hrest]; subst.
    inversion Hrest; subst.
    exists [op; Z.land (Z.shiftr (uint16 o) 8) 255; Z.land (uint16 o) 255],
      [Z.land (Z.shiftr (uint16 o) 8) 255; Z.land (uint16 o) 255].
    rewrite (Make_wide _ _ _ Hdef Hw).
    split; [reflexivity|]. split; [reflexivity|].
    rewrite ReadOperands_wide by assumption.
    rewrite Uint16_PutUint16. unfold fits in Ho. simpl in Ho.
    now rewrite Z.mod_small by lia.
Qed.

Lemma Make_ReadOperands_roundtrip_witness :
  exists ins tail,
    Make OpConstant [65534] = Ok ins /\
    slice_from ins 1 = Ok tail /\
    ReadOperands (mkDefinition "OpConstant" [2]) tail = Ok ([65534], 2).
Proof.
  apply (Make_ReadOperands_roundtrip OpConstant (mkDefinition "OpConstant" [2])
           [65534]).
  - reflexivity.
  - repeat constructor; unfold fits; simpl; lia.
Defined.

(** C10. [Make] checks no range: for a registered opcode with a 2-byte
    operand field and any integer operand [o], the field holds [o] modulo
    2^16, high byte first, and [ReadOperands] decodes [o] modulo 2^16,
    which differs from [o] whenever [o] is outside 0..65535. *)
Theorem Make_operand_wraps op def o :
  Lookup op = inl def ->
  OperandWidths def = [2] ->
  Make op [o] = Ok [op; (o mod 65536) / 256; (o mod 65536) mod 256] /\
  ReadOperands def [(o mod 65536) / 256; (o mod 65536) mod 256]
  = Ok ([o mod 65536], 2) /\
  (~ 0 <= o <= 65535 -> o mod 65536 <> o).
Proof.
  unfold Lookup. destruct (assoc definitions op) as [d|] eqn:Hdef; [|discriminate].
  intros [= ->] Hw.
  assert (Hhi : Z.land (Z.shiftr (uint16 o) 8) 255 = (o mod 65536) / 256).
  { unfold uint16. change 65535 with (Z.ones 16). change 255 with (Z.ones 8).
    rewrite !Z.land_ones, Z.shiftr_div_pow2 by lia.
    change (2 ^ 16) with 65536. change (2 ^ 8) with 256.
    apply Z.mod_small.
    pose proof (Z.mod_pos_bound o 65536 ltac:(lia)).
    split; [apply Z.div_pos; lia|apply Z.div_lt_upper_bound; lia]. }
  assert (Hlo : Z.land (uint16 o) 255 = (o mod 65536) mod 256).
  { unfold uint16. change 65535 with (Z.ones 16). change 255 with (Z.ones 8).
    now rewrite !Z.land_ones by lia. }
  split; [|split].
  - rewrite (Make_wide _ _ _ Hdef Hw). now rewrite Hhi, Hlo.
  - rewrite ReadOperands_wide by assumption.
    now rewrite <- Hhi, <- Hlo, Uint16_PutUint16.
  - intros Hout Heq.
    pose proof (Z.mod_pos_bound o 65536 ltac:(lia)). lia.
Qed.

Lemma Make_operand_wraps_witness :
  Make OpConstant [-1] = Ok [OpConstant; 255; 255] /\
  ReadOperands (mkDefinition "OpConstant" [2]) [255; 255] = Ok ([65535], 2) /\
  Make OpJump [65546] = Ok [OpJump; 0; 10].
Proof.
  destruct (Make_operand_wraps OpConstant (mkDefinition "OpConstant" [2]) (-1)
              eq_refl eq_refl) as (H1 & H2 & _).
  destruct (Make_operand_wraps OpJump (mkDefinition "OpJump" [2]) 65546
              eq_refl eq_refl) as (H3 & _ & _).
  repeat split; assumption.
Defined.

End Codec.

(** ** The disassembler *)

Section Disassembler.

Import code.

(** On a byte that is no registered opcode, an iteration of the loop of
    [Instructions.String] appends one line and leaves [i] where it was. *)
Lemma String_iter_unknown (ins : Instructions) i (b : byte) :
  index ins i = Ok b ->
  assoc definitions b = None ->
  String_iter ins i
  = Ok (i, "ERROR: " +:+ ("opcode " +:+ itoa b +:+ " undefined") +:+ LF).
Proof.
  intros Hb Hdef. unfold String_iter, Lookup. rewrite Hb.
  unfold mbind, outcome_bind. now rewrite Hdef.
Qed.

Lemma index_lt {A} (l : list A) i a : index l i = Ok a -> 0 <= i < len l.
Proof.
  unfold index, len.
  destruct (Z.leb_spec 0 i), (Z.ltb_spec i (Z.of_nat (length l)));
    simpl; try discriminate.
  lia.
Qed.

Lemma String_loop_unknown fuel (ins : Instructions) i (b : byte) out :
  index ins i = Ok b ->
  assoc definitions b = None ->
  String_loop fuel ins i out = None.
Proof.
  intros Hb Hdef. revert out.
  pose proof (index_lt _ _ _ Hb) as Hi.
  induction fuel as [|fuel IH]; intros out; simpl.
  - now replace (i <? len ins) with true by (symmetry; apply Z.ltb_lt; lia).
  - replace (i <? len ins) with true by (symmetry; apply Z.ltb_lt; lia).
    rewrite (String_iter_unknown _ _ _ Hb Hdef). apply IH.
Qed.

(** C7, at the failing input [Instructions{255}]: whatever the number of
    iterations allowed, the loop of [Instructions.String] has not finished;
    each iteration appends the error line and starts again at offset 0. *)
Theorem String_never_returns_on_unknown_opcode :
  (forall fuel, String_ fuel [255] = None) /\
  String_iter [255] 0 = Ok (0, "ERROR: opcode 255 undefined" +:+ LF).
Proof.
  split; [|reflexivity].
  intros fuel. unfold String_. now apply (String_loop_unknown _ _ _ 255).
Qed.

End Disassembler.

(** ** The compiler on particular programs *)

Section CompilerScenarios.

Import scenario.

Import ast.

(** C1. Compiling [if (true) { 10 } else { 20 }; 3333;] gives OpTrue at 0,
    OpJumpNotTruthy 10 at 1, OpConstant 0 at 4, OpJump 13 at 7, OpConstant 1
    at 10, OpPop at 13, OpConstant 2 at 14 and OpPop at 17, with the
    constants 10, 20 and 3333: the jumps are patched to the offsets after
    the consequence and after the alternative, and one OpPop follows the
    conditional. *)
Theorem Compile_conditional :
  exists c,
    compiler.Compile (NProgram conditional_program) compiler.New = Ok (None, c) /\
    compiler.Bytecode_ c
    = compiler.mkBytecode
        [5; 4; 0; 10; 1; 0; 0; 3; 0; 13; 1; 0; 1; 2; 1; 0; 2; 2]
        [object.Integer 3 10; object.Integer 4 20; object.Integer 5 3333] /\
    Ok (compiler.instructions c)
    = concatenateInstructions
        [ code.Make code.OpTrue [];
          code.Make code.OpJumpNotTruthy [10];
          code.Make code.OpConstant [0];
          code.Make code.OpJump [13];
          code.Make code.OpConstant [1];
          code.Make code.OpPop [];
          code.Make code.OpConstant [2];
          code.Make code.OpPop [] ] /\
    code.String_ 8 (compiler.instructions c)
    = Some (Ok ("0000 OpTrue" +:+ LF +:+ "0001 OpJumpNotTruthy 10" +:+ LF +:+
                "0004 OpConstant 0" +:+ LF +:+ "0007 OpJump 13" +:+ LF +:+
                "0010 OpConstant 1" +:+ LF +:+ "0013 OpPop" +:+ LF +:+
                "0014 OpConstant 2" +:+ LF +:+ "0017 OpPop" +:+ LF)).
Proof.
  eexists. split; [vm_compute; reflexivity|].
  repeat split; vm_compute; reflexivity.
Qed.

(** C5 fails on [1 < 2]: the compiler emits the constant 1, the constant 2
    and [OpLessThan], which is not the swapped lowering. *)
Lemma less_than_not_swapped :
  (exists c,
     compiler.Compile (NProgram less_than_program) compiler.New = Ok (None, c) /\
     compiler.Bytecode_ c
     = compiler.mkBytecode [1; 0; 0; 1; 0; 1; code.OpLessThan; code.OpPop]
         [object.Integer 3 1; object.Integer 4 2]) /\
  compiler.CompileExpression
    (InfixExpression (IntegerLiteral 1) "<" (IntegerLiteral 2)) compiler.New
  <> swapped_lowering (IntegerLiteral 1) (IntegerLiteral 2) compiler.New.
Proof.
  split.
  - eexists. split; vm_compute; reflexivity.
  - vm_compute. discriminate.
Qed.

(** C5, amended. For an infix expression with operator [<] the compiler
    compiles the left operand, then the right operand, and then emits
    [OpLessThan]: from the state [c2] reached after the two operands, it
    appends the byte of [OpLessThan] and records it as the last
    instruction. *)
Theorem Compile_less_than Left Right c c1 c2 :
  compiler.CompileExpression Left c = Ok (None, c1) ->
  compiler.CompileExpression Right c1 = Ok (None, c2) ->
  compiler.CompileExpression (InfixExpression Left "<" Right) c
  = Ok (None,
        compiler.mkCompiler
          (compiler.instructions c2 ++ [code.OpLessThan])
          (compiler.constants c2)
          (compiler.mkEmitted code.OpLessThan (len (compiler.instructions c2)))
          (compiler.lastInstruction c2)
          (compiler.symbolTable c2)
          (compiler.heap c2)).
Proof.
  intros HL HR. simpl. unfold check. rewrite HL, HR. reflexivity.
Qed.

Lemma Compile_less_than_witness :
  exists c,
    compiler.CompileExpression
      (InfixExpression (IntegerLiteral 1) "<" (IntegerLiteral 2)) compiler.New
    = Ok (None, c) /\
    compiler.instructions c = [1; 0; 0; 1; 0; 1; code.OpLessThan].
Proof.
  eexists. split.
  - eapply (Compile_less_than (IntegerLiteral 1) (IntegerLiteral 2));
      vm_compute; reflexivity.
  - reflexivity.
Defined.


End CompilerScenarios.

(** ** The virtual machine: operators *)

Section Operators.

Import scenario.

(** When the operands are neither two integers nor two strings,
    [executeBinaryOperation] returns the error for unsupported types. *)
Lemma executeBinaryOperation_unsupported op m m1 m2 l r :
  vm.pop m = Ok (Some r, m1) ->
  vm.pop m1 = Ok (Some l, m2) ->
  (object.Type_ l =? object.INTEGER_OBJ)%string
    && (object.Type_ r =? object.INTEGER_OBJ)%string = false ->
  (object.Type_ l =? object.STRING_OBJ)%string
    && (object.Type_ r =? object.STRING_OBJ)%string = false ->
  vm.executeBinaryOperation op m
  = Ok (Some ("unsupported types for binary operation: " +:+ object.Type_ l
              +:+ " " +:+ object.Type_ r), m2).
Proof.
  intros Hr Hl Hint Hstr. unfold vm.executeBinaryOperation. run_monad.
  rewrite Hr, Hl. unfold vm.typeOf. run_monad.
  now rewrite Hint, Hstr.
Qed.

(** The loop of [Run] calls [executeBinaryOperation] and drops the error
    it returns. *)
Lemma Run_body_binary_operation m ip op :
  index (vm.instructions m) ip = Ok op ->
  op = code.OpAdd \/ op = code.OpSub \/ op = code.OpMul \/ op = code.OpDiv ->
  vm.Run_body ip m
  = match vm.executeBinaryOperation op m with
    | Ok (_, m') => Ok (vm.Next ip, m')
    | Panic => Panic
    end.
Proof.
  intros Hop Hcase. unfold vm.Run_body. run_monad. rewrite Hop.
  destruct Hcase as [-> | [-> | [-> | ->]]]; reflexivity.
Qed.

(** C4, at the failing input [true + 1]: when [OpAdd] is reached,
    [executeBinaryOperation] returns the error for unsupported types; the
    loop of [Run] drops it and goes on to [OpPop], which finds the stack
    empty and panics.  On the instructions [OpTrue OpTrue OpAdd], [Run]
    returns no error at all. *)
Theorem Run_discards_binary_operation_error :
  (forall m ip op,
     index (vm.instructions m) ip = Ok op ->
     op = code.OpAdd \/ op = code.OpSub \/ op = code.OpMul \/ op = code.OpDiv ->
     vm.Run_body ip m
     = match vm.executeBinaryOperation op m with
       | Ok (_, m') => Ok (vm.Next ip, m')
       | Panic => Panic
       end) /\
  (exists c,
     compiler.Compile (ast.NProgram ill_typed_sum) compiler.New = Ok (None, c) /\
     compiler.instructions c
     = [code.OpTrue; code.OpConstant; 0; 0; code.OpAdd; code.OpPop]) /\
  ('(ip, m) ← Run_prefix 2 0 (vm.New (compiler.mkBytecode
                 [code.OpTrue; code.OpConstant; 0; 0; code.OpAdd; code.OpPop]
                 [object.Integer 3 1]) 4);
   '(err, _) ← vm.executeBinaryOperation code.OpAdd m;
   Ok (ip, err))
  = Ok (4, Some "unsupported types for binary operation: BOOLEAN INTEGER") /\
  (forall fuel,
     observe (compile_and_run (4 + fuel) ill_typed_sum) = Some Panic) /\
  observe (vm.Run 4 (vm.New (compiler.mkBytecode
             [code.OpTrue; code.OpTrue; code.OpAdd] []) 3))
  = Some (Ok (None, (0, Ok (Some vm.True_)))).
Proof.
  split; [exact Run_body_binary_operation|].
  split; [eexists; split; vm_compute; reflexivity|].
  split; [vm_compute; reflexivity|].
  split; [intros fuel; vm_compute; reflexivity|].
  vm_compute; reflexivity.
Qed.

(** What [left == right] decides in [executeComparison]. *)
Lemma executeComparison_OpEqual m m1 m2 l r :
  vm.pop m = Ok (Some r, m1) ->
  vm.pop m1 = Ok (Some l, m2) ->
  vm.executeComparison code.OpEqual m
  = vm.push
      (vm.nativeBoolToBooleanObject
         match l, r with
         | object.Integer _ leftValue, object.Integer _ rightValue =>
           leftValue =? rightValue
         | _, _ => (object.address l =? object.address r)%N
         end) m2.
Proof.
  intros Hr Hl. unfold vm.executeComparison. run_monad.
  rewrite Hr, Hl. unfold vm.typeOf. run_monad.
  destruct l, r; reflexivity.
Qed.

(** C9. [OpEqual] on two integers compares their values, and on any other
    two operands it compares the addresses of the objects.  The two
    constants of ["a" == "a"] are two objects, and the result is [False];
    [true == true], [false == false] and the comparison of null with null
    give [True]. *)
Theorem OpEqual_values_or_identity :
  (forall m m1 m2 l r,
     vm.pop m = Ok (Some r, m1) ->
     vm.pop m1 = Ok (Some l, m2) ->
     vm.executeComparison code.OpEqual m
     = vm.push
         (vm.nativeBoolToBooleanObject
            match l, r with
            | object.Integer _ leftValue, object.Integer _ rightValue =>
              leftValue =? rightValue
            | _, _ => (object.address l =? object.address r)%N
            end) m2) /\
  (exists c,
     compiler.Compile (ast.NProgram equal_strings) compiler.New = Ok (None, c) /\
     compiler.constants c = [object.String 3 "a"; object.String 4 "a"]) /\
  observe (compile_and_run 4 equal_strings)
  = Some (Ok (None, (0, Ok (Some vm.False_)))) /\
  (forall b,
     observe (compile_and_run 4 (equal_booleans b))
     = Some (Ok (None, (0, Ok (Some vm.True_))))) /\
  observe (compile_and_run 12 equal_nulls)
  = Some (Ok (None, (0, Ok (Some vm.True_)))).
Proof.
  split; [exact executeComparison_OpEqual|].
  split; [eexists; split; vm_compute; reflexivity|].
  split; [vm_compute; reflexivity|].
  split; [intros []; vm_compute; reflexivity|].
  vm_compute; reflexivity.
Qed.

Lemma OpEqual_values_or_identity_witness :
  let m2 := vm.set_stack (vm.New (compiler.mkBytecode [] []) 5)
              (<[0%nat := Some (object.String 3 "a")]>
                 (<[1%nat := Some (object.String 4 "a")]>
                    (replicate 2048 None))) 0 in
  vm.executeComparison code.OpEqual (vm.set_stack m2 (vm.stack m2) 2)
  = vm.push (Some vm.False_) m2.
Proof.
  destruct OpEqual_values_or_identity as [H _].
  intros m2.
  exact (H (vm.set_stack m2 (vm.stack m2) 2) (vm.set_stack m2 (vm.stack m2) 1)
           m2 (object.String 3 "a") (object.String 4 "a") eq_refl eq_refl).
Defined.

End Operators.

(** ** The virtual machine: hash construction *)

Section HashConstruction.

Import scenario.

Lemma pop_sp m o m' :
  vm.pop m = Ok (o, m') ->
  vm.sp m' = vm.sp m - 1 /\ vm.stack m' = vm.stack m /\
  vm.heap m' = vm.heap m /\ vm.instructions m' = vm.instructions m /\
  vm.constants m' = vm.constants m /\ vm.global m' = vm.global m /\
  0 < vm.sp m.
Proof.
  unfold vm.pop. run_monad.
  destruct (index (vm.stack m) (vm.sp m - 1)) eqn:Hi; [|discriminate].
  intros [= <- <-]. apply index_lt in Hi. simpl. repeat split; lia.
Qed.

(** The loop of [OpHash] pops two entries for each pair. *)
Lemma popPairs_sp n pairs m ps m' :
  vm.popPairs n pairs m = Ok (inr ps, m') ->
  vm.sp m' = vm.sp m - 2 * Z.of_nat n /\ vm.stack m' = vm.stack m /\
  vm.heap m' = vm.heap m /\ (length ps <= length pairs + n)%nat.
Proof.
  revert pairs m. induction n as [|n IH]; intros pairs m; simpl.
  - run_monad. intros [= <- <-]. repeat split; lia.
  - run_monad.
    destruct (vm.pop m) as [[value m1]|] eqn:H1; [|discriminate].
    destruct (vm.pop m1) as [[key m2]|] eqn:H2; [|discriminate].
    destruct key as [k|]; [|discriminate].
    destruct (object.HashKey_ k) as [hashKey|]; [|discriminate].
    intros H. apply IH in H. destruct H as (Hsp & Hst & Hh & Hlen).
    apply pop_sp in H1. apply pop_sp in H2.
    destruct H1 as (? & ? & ? & _), H2 as (? & ? & ? & _).
    repeat split; try congruence; try lia.
    assert (length (object.map_set pairs hashKey (k, value)) <= S (length pairs))%nat.
    { clear. induction pairs as [|[k' v'] pairs IH]; simpl; [lia|].
      destruct (object.HashKey_eqb k' hashKey); simpl; lia. }
    lia.
Qed.



End HashConstruction.

(** ** The read-eval-print loop *)

Section Repl.

Import scenario.

(** C8, at the failing input: the lines [let a = 1] and [a].  [Start]
    compiles the second line with a new compiler, whose symbol table is
    empty, and writes the compilation error for the undefined identifier. *)
Theorem Start_forgets_definitions Inspect :
  repl.Start_line Inspect 4 (repl.Parsed [ast.ExpressionStatement (ast.Identifier "a")])
  = Some (Ok ("Woops! Compilation failed:" +:+ LF +:+ " " +:+
              "undefined identifier a" +:+ LF)) /\
  repl.Start Inspect 4 session
  = Some (Ok ((((("" +:+ repl.PROMPT) +:+ (Inspect (object.Integer 3 1) +:+ LF))
                +:+ repl.PROMPT)
               +:+ ("Woops! Compilation failed:" +:+ LF +:+ " " +:+
                    "undefined identifier a" +:+ LF))
              +:+ repl.PROMPT)).
Proof.
  split; vm_compute; reflexivity.
Qed.

End Repl.

(** ** The compiler emits structured code *)

Section CompilerStructure.

Import structured.

Lemma len_app {A} (l k : list A) : len (l ++ k) = len l + len k.
Proof. unfold len. rewrite length_app. lia. Qed.

Lemma len_nonneg {A} (l : list A) : 0 <= len l.
Proof. unfold len. lia. Qed.

Lemma size_nonneg t : 0 <= size t.
Proof. induction t; simpl; lia. Qed.

Lemma len_flat pos t : len (flat pos t) = size t.
Proof.
  assert (Hwide : forall op o, len (wide_instruction op o) = 3) by reflexivity.
  revert pos. induction t; intros pos; cbn [flat size];
    rewrite ?len_app, ?Hwide, ?IHt, ?IHt1, ?IHt2; try reflexivity; lia.
Qed.

Lemma index_app {A} (l : list A) x k : index (l ++ x :: k) (len l) = Ok x.
Proof.
  unfold index, len. rewrite length_app. simpl.
  replace (0 <=? Z.of_nat (length l)) with true by (symmetry; apply Z.leb_le; lia).
  replace (Z.of_nat (length l) <? Z.of_nat (length l + S (length k))) with true
    by (symmetry; apply Z.ltb_lt; lia).
  simpl. rewrite Nat2Z.id, lookup_app_r by lia.
  now rewrite Nat.sub_diag.
Qed.

Lemma store_app {A} (l : list A) x k y :
  store (l ++ x :: k) (len l) y = Ok (l ++ y :: k).
Proof.
  unfold store, len. rewrite length_app. simpl.
  replace (0 <=? Z.of_nat (length l)) with true by (symmetry; apply Z.leb_le; lia).
  replace (Z.of_nat (length l) <? Z.of_nat (length l + S (length k))) with true
    by (symmetry; apply Z.ltb_lt; lia).
  simpl. rewrite Nat2Z.id. f_equal.
  rewrite insert_app_r_alt by lia. now rewrite Nat.sub_diag.
Qed.

Lemma slice_to_app {A} (l k : list A) : slice_to (l ++ k) (len l) = Ok l.
Proof.
  unfold slice_to, len. rewrite length_app.
  replace (0 <=? Z.of_nat (length l)) with true by (symmetry; apply Z.leb_le; lia).
  replace (Z.of_nat (length l) <=? Z.of_nat (length l + length k)) with true
    by (symmetry; apply Z.leb_le; lia).
  simpl. now rewrite Nat2Z.id, take_app_length.
Qed.

Lemma replaceInstruction_loop_app new :
  forall old before after pos i,
    length old = length new ->
    pos + i = len before ->
    compiler.replaceInstruction_loop pos new i (before ++ old ++ after)
    = Ok (before ++ new ++ after).
Proof.
  induction new as [|b new IH]; intros [|a old] before after pos i Hlen Hpos;
    try discriminate; simpl.
  - reflexivity.
  - rewrite Hpos, store_app. simpl.
    replace (before ++ b :: old ++ after) with ((before ++ [b]) ++ old ++ after)
      by now rewrite <- app_assoc.
    rewrite IH.
    + now rewrite <- app_assoc.
    + simpl in Hlen. lia.
    + rewrite len_app. unfold len at 2. simpl. lia.
Qed.

Lemma emit_plain op c :
  In op plain ->
  compiler.emit op [] c
  = Ok (len (compiler.instructions c),
        emitted c (compiler.instructions c ++ [op])
          (compiler.mkEmitted op (len (compiler.instructions c)))
          (compiler.lastInstruction c)).
Proof.
  intros H. simpl in H.
  repeat (destruct H as [<-|H]; [reflexivity|]). destruct H.
Qed.

Lemma emit_wide op operand c :
  In op (code.OpArray :: code.OpJump :: code.OpJumpNotTruthy :: indexed) ->
  compiler.emit op [operand] c
  = Ok (len (compiler.instructions c),
        emitted c (compiler.instructions c ++ wide_instruction op operand)
          (compiler.mkEmitted op (len (compiler.instructions c)))
          (compiler.lastInstruction c)).
Proof.
  intros H. simpl in H.
  repeat (destruct H as [<-|H]; [reflexivity|]). destruct H.
Qed.

Lemma changeOperand_jump op operand c (before : list byte) (old1 old2 : byte)
    (after : list byte) :
  In op [code.OpJump; code.OpJumpNotTruthy] ->
  compiler.instructions c = before ++ [op; old1; old2] ++ after ->
  compiler.changeOperand (len before) operand c
  = Ok (tt,
        emitted c (before ++ wide_instruction op operand ++ after)
          (compiler.lastInstruction c) (compiler.previousInstruction c)).
Proof.
  intros Hop Hins. unfold compiler.changeOperand. run_monad.
  rewrite Hins.
  change ([op; old1; old2] ++ after) with (op :: [old1; old2] ++ after).
  rewrite index_app.
  assert (HMake : code.Make op [operand] = Ok (wide_instruction op operand)).
  { simpl in Hop. destruct Hop as [<-|[<-|[]]]; reflexivity. }
  rewrite HMake. unfold compiler.replaceInstruction. run_monad.
  rewrite Hins.
  rewrite (replaceInstruction_loop_app (wide_instruction op operand)
             [op; old1; old2] before after (len before) 0) by (reflexivity || lia).
  reflexivity.
Qed.

Lemma flat_seq pos a b : flat pos (TSeq a b) = flat pos a ++ flat (pos + size a) b.
Proof. reflexivity. Qed.

(** The instructions after a tree, followed by one more tree. *)
Lemma flat_snoc (ins : list byte) a b :
  (ins ++ flat (len ins) a) ++ flat (len (ins ++ flat (len ins) a)) b
  = ins ++ flat (len ins) (TSeq a b).
Proof. now rewrite flat_seq, len_app, len_flat, app_assoc. Qed.

Lemma CompileExpression_IntegerLiteral v c c' :
  compiler.CompileExpression (ast.IntegerLiteral v) c = Ok (None, c') ->
  expression_code c c'.
Proof.
  intros [= <-]. exists (TOp1 code.OpConstant (len (compiler.constants c))).
  repeat split; simpl; auto; try lia. discriminate.
Qed.

Lemma CompileExpression_StringLiteral v c c' :
  compiler.CompileExpression (ast.StringLiteral v) c = Ok (None, c') ->
  expression_code c c'.
Proof.
  intros [= <-]. exists (TOp1 code.OpConstant (len (compiler.constants c))).
  repeat split; simpl; auto; try lia. discriminate.
Qed.

Lemma CompileExpression_Boolean v c c' :
  compiler.CompileExpression (ast.Boolean v) c = Ok (None, c') ->
  expression_code c c'.
Proof.
  destruct v; intros [= <-];
    [exists (TOp code.OpTrue)|exists (TOp code.OpFalse)];
    repeat split; simpl; auto 10; try lia; discriminate.
Qed.

Lemma CompileExpression_Identifier v c c' :
  compiler.CompileExpression (ast.Identifier v) c = Ok (None, c') ->
  expression_code c c'.
Proof.
  simpl. run_monad.
  destruct (compiler.Resolve v (compiler.symbolTable c)) as [symbol|];
    [|discriminate].
  intros [= <-]. exists (TOp1 code.OpGetGlobal (compiler.Index symbol)).
  repeat split; simpl; auto; try lia. discriminate.
Qed.

Lemma bind_Ok {S A B} (m : M S A) (k : A -> M S B) s a s' :
  m s = Ok (a, s') -> (m ≫= k) s = k a s'.
Proof. intros H. unfold mbind, M_bind. now rewrite H. Qed.

Lemma bind_get {S B} (k : S -> M S B) s : (get ≫= k) s = k s s.
Proof. reflexivity. Qed.

Lemma check_None {S} (m k : M S error) s s' :
  m s = Ok (None, s') -> check m k s = k s'.
Proof. intros H. unfold check. now rewrite H. Qed.

Lemma code_snoc (ins ins1 ins' : list byte) t1 t2 :
  ins1 = ins ++ flat (len ins) t1 ->
  ins' = ins1 ++ flat (len ins1) t2 ->
  ins' = ins ++ flat (len ins) (TSeq t1 t2).
Proof. intros -> ->. apply flat_snoc. Qed.

Lemma emit_plain_nil op c :
  In op plain ->
  (compiler.emit op [];; compiler.nil_) c
  = Ok (None,
        emitted c (compiler.instructions c ++ [op])
          (compiler.mkEmitted op (len (compiler.instructions c)))
          (compiler.lastInstruction c)).
Proof. intros H. now rewrite (bind_Ok _ _ _ _ _ (emit_plain op c H)). Qed.

Lemma emit_wide_nil op operand c :
  In op (code.OpArray :: code.OpJump :: code.OpJumpNotTruthy :: indexed) ->
  (compiler.emit op [operand];; compiler.nil_) c
  = Ok (None,
        emitted c (compiler.instructions c ++ wide_instruction op operand)
          (compiler.mkEmitted op (len (compiler.instructions c)))
          (compiler.lastInstruction c)).
Proof. intros H. now rewrite (bind_Ok _ _ _ _ _ (emit_wide op operand c H)). Qed.

(** An expression followed by an operator that is not [OpPop]. *)
Lemma expression_then_operator c c1 op t :
  In op plain -> op <> code.OpPop ->
  wf t -> delta t + delta_plain op <= 1 ->
  compiler.instructions c1
  = compiler.instructions c ++ flat (len (compiler.instructions c)) t ->
  expression_code c
    (emitted c1 (compiler.instructions c1 ++ [op])
       (compiler.mkEmitted op (len (compiler.instructions c1)))
       (compiler.lastInstruction c1)).
Proof.
  intros Hop Hpop Hwf Hdelta Hins. exists (TSeq t (TOp op)).
  split; [now split|]. split; [exact Hdelta|].
  split; [pose proof (size_nonneg t); simpl; lia|].
  split; [|exact Hpop].
  unfold emitted. cbn [compiler.instructions].
  eapply code_snoc; [exact Hins|reflexivity].
Qed.

Ltac delta_lia :=
  repeat match goal with
         | |- context [delta_plain ?o] =>
           let v := eval vm_compute in (delta_plain o) in
           change (delta_plain o) with v
         | |- context [delta_indexed ?o] =>
           let v := eval vm_compute in (delta_indexed o) in
           change (delta_indexed o) with v
         end;
  lia.

Lemma CompileExpression_Prefix op r :
  (forall c c', compiler.CompileExpression r c = Ok (None, c') ->
                expression_code c c') ->
  forall c c',
    compiler.CompileExpression (ast.PrefixExpression op r) c = Ok (None, c') ->
    expression_code c c'.
Proof.
  intros IH c c'. cbn [compiler.CompileExpression]. unfold check.
  destruct (compiler.CompileExpression r c) as [[[err|] c1]|] eqn:Hr;
    try discriminate.
  apply IH in Hr. destruct Hr as (t & Hwf & Hd & Hs & Hins & Hlast).
  destruct (op =? "!")%string; [|destruct (op =? "-")%string; [|discriminate]];
    rewrite emit_plain_nil by (simpl; auto 20); intros [= <-];
    (eapply expression_then_operator;
     [simpl; auto 20|discriminate|exact Hwf|delta_lia|exact Hins]).
Qed.

Lemma CompileExpression_Infix l op r :
  (forall c c', compiler.CompileExpression l c = Ok (None, c') ->
                expression_code c c') ->
  (forall c c', compiler.CompileExpression r c = Ok (None, c') ->
                expression_code c c') ->
  forall c c',
    compiler.CompileExpression (ast.InfixExpression l op r) c = Ok (None, c') ->
    expression_code c c'.
Proof.
  intros IHl IHr c c'. cbn [compiler.CompileExpression]. unfold check.
  destruct (compiler.CompileExpression l c) as [[[err|] c1]|] eqn:Hl;
    try discriminate.
  destruct (compiler.CompileExpression r c1) as [[[err|] c2]|] eqn:Hr;
    try discriminate.
  apply IHl in Hl. destruct Hl as (tl & Hwfl & Hdl & Hsl & Hinsl & Hlastl).
  apply IHr in Hr. destruct Hr as (tr & Hwfr & Hdr & Hsr & Hinsr & Hlastr).
  assert (Hins : compiler.instructions c2
                 = compiler.instructions c
                   ++ flat (len (compiler.instructions c)) (TSeq tl tr))
    by (eapply code_snoc; eassumption).
  repeat (match goal with
          | |- (if ?b then _ else _) _ = _ -> _ => destruct b
          end;
          [rewrite emit_plain_nil by (simpl; auto 20); intros [= <-];
           (eapply (expression_then_operator c c2 _ (TSeq tl tr));
            [simpl; auto 20|discriminate|now split|cbn [delta]; delta_lia|exact Hins])|]).
  discriminate.
Qed.

Lemma CompileExpression_ArrayLiteral_eq es c :
  compiler.CompileExpression (ast.ArrayLiteral es) c
  = (check! CompileElements es;;;
     compiler.emit code.OpArray [len es];; compiler.nil_) c.
Proof.
  cbn [compiler.CompileExpression]. unfold check.
  match goal with
  | |- match ?f es c with _ => _ end = _ =>
    assert (H : forall es c, f es c = CompileElements es c)
  end.
  { clear. induction es as [|e es IH]; intros c; [reflexivity|].
    cbn [CompileElements]. unfold check.
    destruct (compiler.CompileExpression e c) as [[[err|] c1]|]; auto. }
  now rewrite H.
Qed.

Lemma CompileElements_code es :
  Forall (fun e => forall c c',
            compiler.CompileExpression e c = Ok (None, c') ->
            expression_code c c') es ->
  forall c c',
    CompileElements es c = Ok (None, c') -> elements_code (len es) c c'.
Proof.
  induction 1 as [|e es IHe _ IH]; intros c c'; cbn [CompileElements].
  - intros [= <-]. exists TSkip. repeat split; try reflexivity; simpl; try lia.
    now rewrite app_nil_r.
  - unfold check.
    destruct (compiler.CompileExpression e c) as [[[err|] c1]|] eqn:He;
      try discriminate.
    intros Hes. apply IHe in He. apply IH in Hes.
    destruct He as (te & Hwfe & Hde & Hse & Hinse & _).
    destruct Hes as (ts & Hwfs & Hds & Hss & Hinss).
    exists (TSeq te ts).
    assert (Hlen : len (e :: es) = 1 + len es) by (unfold len; simpl; lia).
    split; [now split|]. rewrite Hlen. cbn [delta size].
    split; [lia|]. split; [lia|].
    eapply code_snoc; eassumption.
Qed.

Lemma CompileExpression_Array es :
  Forall (fun e => forall c c',
            compiler.CompileExpression e c = Ok (None, c') ->
            expression_code c c') es ->
  forall c c',
    compiler.CompileExpression (ast.ArrayLiteral es) c = Ok (None, c') ->
    expression_code c c'.
Proof.
  intros IH c c'. rewrite CompileExpression_ArrayLiteral_eq. unfold check.
  destruct (CompileElements es c) as [[[err|] c1]|] eqn:Hes; try discriminate.
  apply (CompileElements_code es IH) in Hes.
  destruct Hes as (t & Hwf & Hd & Hs & Hins).
  rewrite emit_wide_nil by (simpl; auto). intros [= <-].
  exists (TArray t (len es)).
  pose proof (len_nonneg es). pose proof (size_nonneg t).
  split; [cbn [wf]; repeat split; auto; lia|].
  cbn [delta size]. split; [lia|]. split; [lia|].
  split; [|discriminate].
  unfold emitted. cbn [compiler.instructions flat].
  now rewrite Hins, app_assoc.
Qed.

(** Statements one after another. *)
Lemma statement_code_compose c c1 c' :
  statement_code c c1 -> statement_code c1 c' -> statement_code c c'.
Proof.
  intros [(t1 & Hwf1 & Hd1 & Hins1) Htail1] [(t2 & Hwf2 & Hd2 & Hins2) Htail2].
  split.
  - exists (TSeq t1 t2). split; [now split|]. split; [simpl; lia|].
    eapply code_snoc; eassumption.
  - destruct Htail2 as [(Hi & Hl & Hp)|[Hlast|(t & Hwf & Hd & Hins & Hl & Hp)]].
    + rewrite Hi, Hl, Hp. exact Htail1.
    + right. now left.
    + right. right. exists (TSeq t1 t).
      split; [now split|]. split; [simpl; lia|].
      split; [|split; [|exact Hp]].
      * rewrite Hins, Hins1, flat_seq, len_app, len_flat.
        now rewrite <- !app_assoc.
      * rewrite Hl, Hins1, len_app, len_flat. simpl. f_equal. lia.
Qed.

Lemma CompileStatement_Expression e :
  (forall c c', compiler.CompileExpression e c = Ok (None, c') ->
                expression_code c c') ->
  forall c c',
    compiler.CompileStatement (ast.ExpressionStatement e) c = Ok (None, c') ->
    statement_code c c'.
Proof.
  intros IH c c'. cbn [compiler.CompileStatement]. unfold check.
  destruct (compiler.CompileExpression e c) as [[[err|] c1]|] eqn:He;
    try discriminate.
  apply IH in He. destruct He as (t & Hwf & Hd & Hs & Hins & Hlast).
  rewrite emit_plain_nil by (simpl; auto). intros [= <-].
  unfold emitted. split.
  - exists (TSeq t (TOp code.OpPop)).
    split; [split; [exact Hwf|simpl; auto]|].
    split; [cbn [delta]; delta_lia|].
    cbn [compiler.instructions]. eapply code_snoc; [exact Hins|reflexivity].
  - right. right. exists t. cbn [compiler.instructions
      compiler.lastInstruction compiler.previousInstruction].
    split; [exact Hwf|]. split; [exact Hd|].
    split; [now rewrite Hins, <- app_assoc|].
    split; [now rewrite Hins, len_app, len_flat|exact Hlast].
Qed.

Lemma CompileStatement_Let n v :
  (forall c c', compiler.CompileExpression v c = Ok (None, c') ->
                expression_code c c') ->
  forall c c',
    compiler.CompileStatement (ast.LetStatement n v) c = Ok (None, c') ->
    statement_code c c'.
Proof.
  intros IH c c'. cbn [compiler.CompileStatement]. unfold check.
  destruct (compiler.CompileExpression v c) as [[[err|] c1]|] eqn:Hv;
    try discriminate.
  apply IH in Hv. destruct Hv as (t & Hwf & Hd & Hs & Hins & Hlast).
  unfold compiler.define. unfold mbind at 1, M_bind at 1.
  destruct (compiler.Define n (compiler.symbolTable c1)) as [symbol table].
  rewrite emit_wide_nil by (simpl; auto 10). intros [= <-].
  unfold emitted. cbn [compiler.instructions compiler.lastInstruction].
  split.
  - exists (TSeq t (TOp1 code.OpSetGlobal (compiler.Index symbol))).
    split; [split; [exact Hwf|simpl; auto]|].
    split; [cbn [delta]; delta_lia|].
    eapply code_snoc; [exact Hins|reflexivity].
  - right. left. discriminate.
Qed.

Lemma CompileBlock_eq ss c :
  compiler.CompileBlock (ast.Block ss) c = compiler.CompileStatements ss c.
Proof.
  cbn [compiler.CompileBlock]. revert c.
  induction ss as [|s ss IH]; intros c; [reflexivity|].
  cbn [compiler.CompileStatements]. unfold check.
  destruct (compiler.CompileStatement s c) as [[[err|] c1]|]; auto.
Qed.

Lemma CompileStatements_code ss :
  Forall (fun s => forall c c',
            compiler.CompileStatement s c = Ok (None, c') ->
            statement_code c c') ss ->
  forall c c',
    compiler.CompileStatements ss c = Ok (None, c') -> statement_code c c'.
Proof.
  induction 1 as [|s ss IHs _ IH]; intros c c'; cbn [compiler.CompileStatements].
  - intros [= <-]. split; [|now left].
    exists TSkip. repeat split; simpl; try lia. now rewrite app_nil_r.
  - unfold check.
    destruct (compiler.CompileStatement s c) as [[[err|] c1]|] eqn:Hs;
      try discriminate.
    intros Hss. eapply statement_code_compose; eauto.
Qed.

(** The code of a branch of a conditional, once its last [OpPop] is
    dropped: it leaves at most one value. *)
Lemma dropLastPop_branch c c1 :
  statement_code c c1 ->
  compiler.OpCode (compiler.lastInstruction c) <> code.OpPop ->
  exists c2,
    compiler.dropLastPop c1 = Ok (tt, c2) /\
    (exists t,
       wf t /\ delta t <= 1 /\
       compiler.instructions c2
       = compiler.instructions c ++ flat (len (compiler.instructions c)) t) /\
    compiler.OpCode (compiler.lastInstruction c2) <> code.OpPop.
Proof.
  intros [(t & Hwf & Hd & Hins) Htail] Hlast.
  assert (Hkeep : compiler.OpCode (compiler.lastInstruction c1) <> code.OpPop ->
                  exists c2,
                    compiler.dropLastPop c1 = Ok (tt, c2) /\
                    (exists t,
                       wf t /\ delta t <= 1 /\
                       compiler.instructions c2
                       = compiler.instructions c
                         ++ flat (len (compiler.instructions c)) t) /\
                    compiler.OpCode (compiler.lastInstruction c2) <> code.OpPop).
  { intros Hno. exists c1. split; [|split; [|exact Hno]].
    - unfold compiler.dropLastPop, compiler.lastInstructionIsPop. run_monad.
      now destruct (Z.eqb_spec (compiler.OpCode (compiler.lastInstruction c1))
                      code.OpPop).
    - exists t. repeat split; auto. lia. }
  destruct Htail as [(_ & Hl & _)|[Hno|(t' & Hwf' & Hd' & Hins' & Hl & Hp)]].
  - apply Hkeep. now rewrite Hl.
  - now apply Hkeep.
  - eexists. split; [|split].
    + unfold compiler.dropLastPop, compiler.lastInstructionIsPop. run_monad.
      rewrite Hl. cbn [compiler.OpCode]. rewrite Z.eqb_refl.
      unfold compiler.removeLastPop. run_monad.
      rewrite Hl, Hins'. cbn [compiler.Position].
      rewrite app_assoc, <- (len_flat (len (compiler.instructions c)) t'),
        <- len_app, slice_to_app.
      reflexivity.
    + exists t'. auto.
    + exact Hp.
Qed.

Lemma CompileExpression_If cond consequence alt :
  (forall c c', compiler.CompileExpression cond c = Ok (None, c') ->
                expression_code c c') ->
  (forall c c', compiler.CompileBlock consequence c = Ok (None, c') ->
                statement_code c c') ->
  match alt with
  | Some a => forall c c', compiler.CompileBlock a c = Ok (None, c') ->
                           statement_code c c'
  | None => True
  end ->
  forall c c',
    compiler.CompileExpression (ast.IfExpression cond consequence alt) c
    = Ok (None, c') ->
    expression_code c c'.
Proof.
  intros IHcond IHcons IHalt c c'. cbn [compiler.CompileExpression].
  unfold check at 1.
  destruct (compiler.CompileExpression cond c) as [[[err|] c1]|] eqn:Hcond;
    try discriminate.
  apply IHcond in Hcond. destruct Hcond as (tc & Hwfc & Hdc & Hsc & Hins1 & _).
  (* OpJumpNotTruthy *)
  rewrite (bind_Ok _ _ _ _ _ (emit_wide code.OpJumpNotTruthy 9999 c1
                                ltac:(simpl; auto))).
  set (c2 := emitted c1 _ _ _).
  assert (Hins2 : compiler.instructions c2
                  = compiler.instructions c1
                    ++ wide_instruction code.OpJumpNotTruthy 9999) by reflexivity.
  assert (Hlast2 : compiler.OpCode (compiler.lastInstruction c2) <> code.OpPop)
    by discriminate.
  clearbody c2.
  unfold check at 1.
  destruct (compiler.CompileBlock consequence c2) as [[[err|] c3]|] eqn:Hcons;
    try discriminate.
  apply IHcons in Hcons.
  destruct (dropLastPop_branch c2 c3 Hcons Hlast2)
    as (c4 & Hdrop & (tcons & Hwfcons & Hdcons & Hins4) & Hlast4).
  rewrite (bind_Ok _ _ _ _ _ Hdrop).
  (* OpJump *)
  rewrite (bind_Ok _ _ _ _ _ (emit_wide code.OpJump 9999 c4 ltac:(simpl; auto))).
  set (c5 := emitted c4 _ _ _).
  rewrite bind_get.
  assert (Hins5 : compiler.instructions c5
                  = compiler.instructions c1
                    ++ [code.OpJumpNotTruthy;
                        Z.land (Z.shiftr (uint16 9999) 8) 255;
                        Z.land (uint16 9999) 255]
                    ++ (flat (len (compiler.instructions c1) + 3) tcons
                        ++ wide_instruction code.OpJump 9999)).
  { subst c5. unfold emitted. cbn [compiler.instructions].
    rewrite Hins4, Hins2, len_app. change (len (wide_instruction _ _)) with 3.
    now rewrite <- !app_assoc. }
  assert (Hlast5 : compiler.OpCode (compiler.lastInstruction c5) <> code.OpPop)
    by discriminate.
  clearbody c5.
  rewrite (bind_Ok _ _ _ _ _
             (changeOperand_jump code.OpJumpNotTruthy _ c5 _ _ _ _
                ltac:(simpl; auto) Hins5)).
  set (c6 := emitted c5 _ _ _).
  assert (Hins6 : compiler.instructions c6
                  = compiler.instructions c1
                    ++ wide_instruction code.OpJumpNotTruthy
                         (len (compiler.instructions c5))
                    ++ flat (len (compiler.instructions c1) + 3) tcons
                    ++ wide_instruction code.OpJump 9999) by reflexivity.
  assert (Hlast6 : compiler.OpCode (compiler.lastInstruction c6) <> code.OpPop)
    by exact Hlast5.
  clearbody c6.
  assert (Hlen5 : len (compiler.instructions c5)
                  = len (compiler.instructions c1) + 3 + size tcons + 3).
  { rewrite Hins5, !len_app, len_flat.
    change (len (wide_instruction _ _)) with 3.
    change (len [_; _; _]) with 3. lia. }
  assert (Halt : forall c7,
             ((match alt with
               | Some a =>
                 check! compiler.CompileBlock a;;;
                 compiler.dropLastPop;; compiler.nil_
               | None => compiler.emit code.OpNull [];; compiler.nil_
               end) c6 = Ok (None, c7)) ->
             (exists t,
                wf t /\ delta t <= 1 /\
                compiler.instructions c7
                = compiler.instructions c6
                  ++ flat (len (compiler.instructions c6)) t) /\
             compiler.OpCode (compiler.lastInstruction c7) <> code.OpPop).
  { intros c7. destruct alt as [a|].
    - unfold check.
      destruct (compiler.CompileBlock a c6) as [[[err|] c7']|] eqn:Ha;
        try discriminate.
      apply IHalt in Ha.
      destruct (dropLastPop_branch c6 c7' Ha Hlast6)
        as (c7'' & Hdrop' & Ht & Hlast7).
      rewrite (bind_Ok _ _ _ _ _ Hdrop'). intros [= <-]. auto.
    - rewrite emit_plain_nil by (simpl; auto). intros [= <-].
      split; [|discriminate].
      exists (TOp code.OpNull).
      split; [simpl; auto|]. split; [cbn [delta]; delta_lia|reflexivity]. }
  unfold check at 1.
  match goal with
  | |- match ?m c6 with _ => _ end = _ -> _ =>
    destruct (m c6) as [[[err|] c7]|] eqn:Hc7; try discriminate
  end.
  destruct (Halt c7 eq_refl) as ((talt & Hwfalt & Hdalt & Hins7) & Hlast7).
  clear Halt Hc7.
  rewrite bind_get.
  assert (Hlen6 : len (compiler.instructions c6)
                  = len (compiler.instructions c1) + 3 + size tcons + 3).
  { rewrite Hins6, !len_app, len_flat.
    change (len (wide_instruction _ _)) with 3. lia. }
  assert (Hlen4 : len (compiler.instructions c4)
                  = len (compiler.instructions c1) + 3 + size tcons).
  { rewrite Hins4, len_app, len_flat, Hins2, len_app.
    change (len (wide_instruction _ _)) with 3. lia. }
  assert (Hins7' : compiler.instructions c7
                   = (compiler.instructions c1
                      ++ wide_instruction code.OpJumpNotTruthy
                           (len (compiler.instructions c5))
                      ++ flat (len (compiler.instructions c1) + 3) tcons)
                     ++ [code.OpJump;
                         Z.land (Z.shiftr (uint16 9999) 8) 255;
                         Z.land (uint16 9999) 255]
                     ++ flat (len (compiler.instructions c6)) talt).
  { rewrite Hins7, Hins6. now rewrite <- !app_assoc. }
  assert (Hpos : len (compiler.instructions c4)
                 = len (compiler.instructions c1
                        ++ wide_instruction code.OpJumpNotTruthy
                             (len (compiler.instructions c5))
                        ++ flat (len (compiler.instructions c1) + 3) tcons)).
  { rewrite Hlen4, !len_app, len_flat.
    change (len (wide_instruction _ _)) with 3. lia. }
  rewrite Hpos.
  rewrite (bind_Ok _ _ _ _ _
             (changeOperand_jump code.OpJump _ c7 _ _ _ _
                ltac:(simpl; auto) Hins7')).
  intros [= <-].
  exists (TSeq tc (TIf tcons talt)).
  split; [now repeat split|].
  split; [cbn [delta]; lia|].
  split; [pose proof (size_nonneg tcons); pose proof (size_nonneg talt);
          cbn [size]; lia|].
  split; [|exact Hlast7].
  unfold emitted. cbn [compiler.instructions].
  rewrite flat_seq. cbn [flat].
  assert (Hp1 : len (compiler.instructions c) + size tc
                = len (compiler.instructions c1))
    by now rewrite Hins1, len_app, len_flat.
  rewrite Hp1, Hlen5, Hlen6.
  assert (Hlen7 : len (compiler.instructions c7)
                  = len (compiler.instructions c1) + 3 + size tcons + 3
                    + size talt)
    by (rewrite Hins7, len_app, len_flat, Hlen6; lia).
  rewrite Hlen7. rewrite Hins1 at 1.
  now rewrite <- !app_assoc.
Qed.

Ltac compile_cases :=
  first
    [ exact CompileExpression_Identifier
    | exact CompileExpression_IntegerLiteral
    | exact CompileExpression_StringLiteral
    | exact CompileExpression_Boolean
    | exact CompileExpression_Prefix
    | exact CompileExpression_Infix
    | exact CompileExpression_If
    | exact CompileExpression_Array
    | exact CompileStatement_Let
    | exact CompileStatement_Expression
    | (intros b IH c c' H; exact (IH c c' H))
    | (intros ss IH c c'; rewrite CompileBlock_eq;
       exact (CompileStatements_code ss IH c c'))
    | (intros; discriminate) ].

Lemma CompileExpression_code e c c' :
  compiler.CompileExpression e c = Ok (None, c') -> expression_code c c'.
Proof.
  revert c c'.
  apply (Expression_induction
           (fun e => forall c c',
              compiler.CompileExpression e c = Ok (None, c') ->
              expression_code c c')
           (fun s => forall c c',
              compiler.CompileStatement s c = Ok (None, c') ->
              statement_code c c')
           (fun b => forall c c',
              compiler.CompileBlock b c = Ok (None, c') ->
              statement_code c c')); compile_cases.
Qed.

Lemma CompileStatement_code s c c' :
  compiler.CompileStatement s c = Ok (None, c') -> statement_code c c'.
Proof.
  revert c c'.
  apply (Statement_induction
           (fun e => forall c c',
              compiler.CompileExpression e c = Ok (None, c') ->
              expression_code c c')
           (fun s => forall c c',
              compiler.CompileStatement s c = Ok (None, c') ->
              statement_code c c')
           (fun b => forall c c',
              compiler.CompileBlock b c = Ok (None, c') ->
              statement_code c c')); compile_cases.
Qed.

(** The instructions of a compiled program are the bytes of a tree that
    pushes no value. *)
Lemma CompileProgram_code ss c c' :
  compiler.CompileStatements ss c = Ok (None, c') -> statement_code c c'.
Proof.
  apply CompileStatements_code. apply Forall_forall.
  intros s _ c0 c0'. apply CompileStatement_code.
Qed.

Lemma CompileStatements_app ss1 ss2 c :
  compiler.CompileStatements (ss1 ++ ss2) c
  = (check! compiler.CompileStatements ss1;;; compiler.CompileStatements ss2) c.
Proof.
  revert c. induction ss1 as [|s ss1 IH]; intros c; [reflexivity|].
  simpl. unfold check.
  destruct (compiler.CompileStatement s c) as [[[err|] c1]|]; try reflexivity.
  apply IH.
Qed.

End CompilerStructure.

(** ** The machine's methods do not look at the instructions *)

Section Stability.

Import structured.

Lemma stable_ret {A} (a : A) : stable (mret a).
Proof. intros ins m. reflexivity. Qed.

Lemma stable_bind {A B} (f : M vm.VM A) (g : A -> M vm.VM B) :
  stable f -> (forall a, stable (g a)) -> stable (f ≫= g).
Proof.
  intros Hf Hg ins m. unfold mbind, M_bind. rewrite Hf.
  destruct (f m) as [[a m']|]; simpl; [apply Hg|reflexivity].
Qed.

Lemma stable_check (f g : M vm.VM error) :
  stable f -> stable g -> stable (check f g).
Proof.
  intros Hf Hg ins m. unfold check. rewrite Hf.
  destruct (f m) as [[[err|] m']|]; simpl; [reflexivity|apply Hg|reflexivity].
Qed.

Lemma stable_lift {A} (o : outcome A) : stable (lift o).
Proof. intros ins m. destruct o; reflexivity. Qed.

Lemma stable_pop : stable vm.pop.
Proof.
  intros ins m. unfold vm.pop. run_monad. simpl.
  destruct (index (vm.stack m) (vm.sp m - 1)); reflexivity.
Qed.

Lemma stable_push o : stable (vm.push o).
Proof.
  intros ins m. unfold vm.push. run_monad. simpl.
  destruct (vm.sp m >=? vm.StackSize); [reflexivity|].
  destruct (store (vm.stack m) (vm.sp m) o); reflexivity.
Qed.

Lemma stable_alloc mk : stable (vm.alloc mk).
Proof. intros ins m. reflexivity. Qed.

Lemma stable_typeOf o : stable (vm.typeOf o).
Proof. destruct o; [apply stable_ret|apply stable_lift]. Qed.

Lemma stable_Errorf msg : stable (vm.Errorf msg).
Proof. apply stable_ret. Qed.

Lemma stable_nil : stable nil_.
Proof. apply stable_ret. Qed.

Create HintDb vm_stable.

#[local] Hint Resolve stable_ret stable_lift stable_pop stable_push stable_alloc
  stable_typeOf stable_Errorf stable_nil : vm_stable.

Ltac stable_tac :=
  repeat first
    [ solve [auto with vm_stable]
    | apply stable_bind; [|intros]
    | apply stable_check
    | match goal with
      | |- stable (if ?b then _ else _) => destruct b
      | |- stable (match ?x with _ => _ end) => destruct x
      end ].

Lemma stable_executeMinusOperator : stable vm.executeMinusOperator.
Proof. unfold vm.executeMinusOperator. stable_tac. Qed.

Lemma stable_executeBangOperator : stable vm.executeBangOperator.
Proof. unfold vm.executeBangOperator. stable_tac. Qed.

Lemma stable_executeIntegerComparison op l r :
  stable (vm.executeIntegerComparison op l r).
Proof. unfold vm.executeIntegerComparison. stable_tac. Qed.

#[local] Hint Resolve stable_executeIntegerComparison : vm_stable.

Lemma stable_executeComparison op : stable (vm.executeComparison op).
Proof. unfold vm.executeComparison. stable_tac. Qed.

Lemma stable_executeBinaryIntegerOberation op l r :
  stable (vm.executeBinaryIntegerOberation op l r).
Proof. unfold vm.executeBinaryIntegerOberation. stable_tac. Qed.

Lemma stable_executeBinaryStringOperation op l r :
  stable (vm.executeBinaryStringOperation op l r).
Proof. unfold vm.executeBinaryStringOperation. stable_tac. Qed.

#[local] Hint Resolve stable_executeBinaryIntegerOberation
  stable_executeBinaryStringOperation : vm_stable.

Lemma stable_executeBinaryOperation op : stable (vm.executeBinaryOperation op).
Proof. unfold vm.executeBinaryOperation. stable_tac. Qed.

Lemma stable_popElements n : forall es, stable (vm.popElements n es).
Proof. induction n as [|n IH]; intros es; simpl; stable_tac; apply IH. Qed.

#[local] Hint Resolve stable_executeMinusOperator stable_executeBangOperator
  stable_executeComparison stable_executeBinaryOperation stable_popElements
  : vm_stable.

Lemma stable_exec_plain op : stable (exec_plain op).
Proof. unfold exec_plain. stable_tac. Qed.

Lemma stable_exec_wide op operand : stable (exec_wide op operand).
Proof.
  unfold exec_wide.
  destruct (op =? code.OpConstant).
  { intros ins m. run_monad. simpl.
    destruct (index (vm.constants m) operand); [apply stable_push|reflexivity]. }
  destruct (op =? code.OpArray); [stable_tac|].
  destruct (op =? code.OpGetGlobal).
  { intros ins m. run_monad. simpl.
    destruct (index (vm.global m) operand); [apply stable_push|reflexivity]. }
  destruct (op =? code.OpSetGlobal); [|apply stable_nil].
  intros ins m. run_monad. rewrite stable_pop.
  destruct (vm.pop m) as [[value m1]|]; simpl; [|reflexivity].
  destruct (store (vm.global m1) operand value); reflexivity.
Qed.

Lemma stable_exec t : stable (exec t).
Proof.
  induction t; cbn [exec].
  - apply stable_exec_plain.
  - apply stable_exec_wide.
  - apply stable_check; [assumption|apply stable_exec_wide].
  - now apply stable_check.
  - apply stable_nil.
  - apply stable_bind; [apply stable_pop|].
    intros condition. now destruct (negb (vm.isTruthy condition)).
Qed.

Lemma with_instructions_same m : with_instructions (vm.instructions m) m = m.
Proof. now destruct m. Qed.

(** [exec] leaves the instructions as they are. *)
Lemma exec_instructions t m r m' :
  exec t m = Ok (r, m') -> vm.instructions m' = vm.instructions m.
Proof.
  intros H. pose proof (stable_exec t (vm.instructions m) m) as Hs.
  rewrite with_instructions_same, H in Hs. simpl in Hs.
  injection Hs as ->. reflexivity.
Qed.

End Stability.

(** ** The machine's methods and the stack pointer *)

Section StackEffect.

Import structured.

Lemma bounded_weaken {A} d d' (f : M vm.VM A) :
  bounded d f -> d <= d' -> bounded d' f.
Proof. intros Hf Hd m r m' H. apply Hf in H. unfold steps in *. lia. Qed.

Lemma bounded_ret {A} d (a : A) : 0 <= d -> bounded d (mret a).
Proof. intros Hd m r m' [= <- <-]. unfold steps. lia. Qed.

Lemma bounded_lift {A} d (o : outcome A) : 0 <= d -> bounded d (lift o).
Proof.
  intros Hd m r m'. destruct o; [|discriminate].
  intros [= <- <-]. unfold steps. lia.
Qed.

Lemma bounded_bind {A B} d1 d2 (f : M vm.VM A) (g : A -> M vm.VM B) :
  bounded d1 f -> (forall a, bounded d2 (g a)) -> bounded (d1 + d2) (f ≫= g).
Proof.
  intros Hf Hg m r m'. unfold mbind, M_bind.
  destruct (f m) as [[a m1]|] eqn:H1; [|discriminate].
  intros H2. apply Hf in H1. apply Hg in H2. unfold steps in *. lia.
Qed.

Lemma bounded_check d1 d2 (f g : M vm.VM error) :
  0 <= d2 -> bounded d1 f -> bounded d2 g -> bounded (d1 + d2) (check f g).
Proof.
  intros Hd Hf Hg m r m'. unfold check.
  destruct (f m) as [[[err|] m1]|] eqn:H1; [| |discriminate].
  - intros [= <- <-]. apply Hf in H1. unfold steps in *. lia.
  - intros H2. apply Hf in H1. apply Hg in H2. unfold steps in *. lia.
Qed.

Lemma bounded_pop d : -1 <= d -> bounded d vm.pop.
Proof.
  intros Hd m o m'. unfold vm.pop. run_monad.
  destruct (index (vm.stack m) (vm.sp m - 1)) eqn:Hi; [|discriminate].
  intros [= <- <-]. apply index_lt in Hi. unfold steps. simpl. lia.
Qed.

Lemma bounded_push d o : 1 <= d -> bounded d (vm.push o).
Proof.
  intros Hd m r m'. unfold vm.push. run_monad.
  destruct (vm.sp m >=? vm.StackSize).
  - intros [= <- <-]. unfold steps. lia.
  - destruct (store (vm.stack m) (vm.sp m) o); [|discriminate].
    intros [= <- <-]. unfold steps. simpl. lia.
Qed.

Lemma bounded_alloc d mk : 0 <= d -> bounded d (vm.alloc mk).
Proof. intros Hd m r m' [= <- <-]. unfold steps. simpl. lia. Qed.

Lemma bounded_typeOf d o : 0 <= d -> bounded d (vm.typeOf o).
Proof. intros Hd. destruct o; [now apply bounded_ret|now apply bounded_lift]. Qed.

Create HintDb vm_bounded.

#[local] Hint Resolve bounded_ret bounded_lift bounded_pop bounded_push
  bounded_alloc bounded_typeOf : vm_bounded.

#[local] Hint Extern 1 (_ <= _) => lia : vm_bounded.

Ltac bounded_tac :=
  repeat first
    [ solve [unfold vm.Errorf, nil_; auto with vm_bounded]
    | apply bounded_bind; [|intros]
    | match goal with
      | |- bounded _ (if ?b then _ else _) => destruct b
      | |- bounded _ (match ?x with _ => _ end) => destruct x
      end ].

Lemma bounded_executeMinusOperator : bounded 0 vm.executeMinusOperator.
Proof.
  unfold vm.executeMinusOperator.
  apply (bounded_weaken (-1 + (0 + 1))); [|lia].
  apply bounded_bind; [bounded_tac|intros operand].
  apply bounded_bind; [bounded_tac|intros t].
  destruct (negb (t =? object.INTEGER_OBJ)%string); [bounded_tac|].
  destruct operand as [[]|]; try solve [bounded_tac].
  apply (bounded_weaken (0 + 1)); [bounded_tac|lia].
Qed.

Lemma bounded_executeBangOperator : bounded 0 vm.executeBangOperator.
Proof.
  unfold vm.executeBangOperator.
  apply (bounded_weaken (-1 + 1)); [|lia]. bounded_tac.
Qed.

Lemma bounded_executeIntegerComparison op l r :
  bounded 1 (vm.executeIntegerComparison op l r).
Proof. unfold vm.executeIntegerComparison. bounded_tac. Qed.

Lemma bounded_executeComparison op : bounded (-1) (vm.executeComparison op).
Proof.
  unfold vm.executeComparison.
  apply (bounded_weaken (-1 + (-1 + (0 + (0 + 1))))); [|lia].
  pose proof bounded_executeIntegerComparison. bounded_tac.
Qed.

Lemma bounded_executeBinaryIntegerOberation op l r :
  bounded 1 (vm.executeBinaryIntegerOberation op l r).
Proof.
  unfold vm.executeBinaryIntegerOberation.
  destruct l as [[]|], r as [[]|]; try solve [bounded_tac].
  repeat match goal with
         | |- bounded _ (if ?b then _ else _) => destruct b
         end;
    try (apply (bounded_weaken (0 + 1)); [|lia]); bounded_tac.
Qed.

Lemma bounded_executeBinaryStringOperation op l r :
  bounded 1 (vm.executeBinaryStringOperation op l r).
Proof.
  unfold vm.executeBinaryStringOperation.
  destruct l as [[]|], r as [[]|]; try solve [bounded_tac].
  destruct (op =? code.OpAdd); [|bounded_tac].
  apply (bounded_weaken (0 + 1)); [|lia]. bounded_tac.
Qed.

Lemma bounded_executeBinaryOperation op :
  bounded (-1) (vm.executeBinaryOperation op).
Proof.
  unfold vm.executeBinaryOperation.
  apply (bounded_weaken (-1 + (-1 + (0 + (0 + 1))))); [|lia].
  pose proof bounded_executeBinaryIntegerOberation.
  pose proof bounded_executeBinaryStringOperation. bounded_tac.
Qed.

Lemma bounded_popElements n :
  forall es, bounded (- Z.of_nat n) (vm.popElements n es).
Proof.
  induction n as [|n IH]; intros es; cbn [vm.popElements].
  - now apply bounded_ret.
  - apply (bounded_weaken (-1 + - Z.of_nat n)); [|lia].
    apply bounded_bind; [now apply bounded_pop|intros o; apply IH].
Qed.

Lemma bounded_exec_plain op : bounded (delta_plain op) (exec_plain op).
Proof.
  unfold exec_plain, delta_plain.
  pose proof bounded_executeBinaryOperation.
  pose proof bounded_executeComparison.
  pose proof bounded_executeBangOperator.
  pose proof bounded_executeMinusOperator.
  destruct (Z.eqb_spec op code.OpNull) as [->|]; [now apply bounded_push|].
  destruct (Z.eqb_spec op code.OpPop) as [->|].
  { apply (bounded_weaken (-1 + 0)); [bounded_tac|reflexivity]. }
  destruct (Z.eqb_spec op code.OpTrue) as [->|]; [now apply bounded_push|].
  destruct (Z.eqb_spec op code.OpFalse) as [->|]; [now apply bounded_push|].
  cbn [orb].
  destruct (Z.eqb_spec op code.OpAdd) as [->|].
  { apply (bounded_weaken (-1 + 0)); [bounded_tac|reflexivity]. }
  destruct (Z.eqb_spec op code.OpSub) as [->|].
  { apply (bounded_weaken (-1 + 0)); [bounded_tac|reflexivity]. }
  destruct (Z.eqb_spec op code.OpMul) as [->|].
  { apply (bounded_weaken (-1 + 0)); [bounded_tac|reflexivity]. }
  destruct (Z.eqb_spec op code.OpDiv) as [->|].
  { apply (bounded_weaken (-1 + 0)); [bounded_tac|reflexivity]. }
  cbn [orb].
  destruct (Z.eqb_spec op code.OpEqual) as [->|].
  { apply (bounded_weaken (-1 + 0)); [bounded_tac|reflexivity]. }
  destruct (Z.eqb_spec op code.OpNotEqual) as [->|].
  { apply (bounded_weaken (-1 + 0)); [bounded_tac|reflexivity]. }
  destruct (Z.eqb_spec op code.OpLessThan) as [->|].
  { apply (bounded_weaken (-1 + 0)); [bounded_tac|reflexivity]. }
  destruct (Z.eqb_spec op code.OpGreaterThan) as [->|].
  { apply (bounded_weaken (-1 + 0)); [bounded_tac|reflexivity]. }
  cbn [orb].
  destruct (Z.eqb_spec op code.OpBang) as [->|]; [assumption|].
  destruct (Z.eqb_spec op code.OpMinus) as [->|]; [assumption|].
  now apply bounded_ret.
Qed.

Lemma bounded_exec_indexed op operand :
  In op indexed -> bounded (delta_indexed op) (exec_wide op operand).
Proof.
  intros Hop. simpl in Hop. destruct Hop as [<-|[<-|[<-|[]]]].
  - intros m r m'. unfold exec_wide. simpl. run_monad.
    destruct (index (vm.constants m) operand); [|discriminate].
    now apply bounded_push.
  - intros m r m'. unfold exec_wide. simpl. run_monad.
    destruct (index (vm.global m) operand); [|discriminate].
    now apply bounded_push.
  - intros m r m'. unfold exec_wide. simpl. run_monad.
    destruct (vm.pop m) as [[value m1]|] eqn:Hpop; [|discriminate].
    apply (bounded_pop (-1) ltac:(lia)) in Hpop.
    destruct (store (vm.global m1) operand value); [|discriminate].
    intros [= <- <-]. change (delta_indexed code.OpSetGlobal) with (-1).
    unfold steps in *. simpl. lia.
Qed.

Lemma bounded_exec_array n :
  0 <= n -> bounded (1 - n) (exec_wide code.OpArray n).
Proof.
  intros Hn. unfold exec_wide. simpl.
  apply (bounded_weaken (0 + (- Z.of_nat (Z.to_nat n) + 1))); [|lia].
  apply bounded_bind; [now apply bounded_alloc|intros array].
  apply bounded_bind; [apply bounded_popElements|intros es].
  now apply bounded_push.
Qed.

Lemma bounded_ok_of {d} {f : M vm.VM error} : bounded d f -> bounded_ok d f.
Proof. intros H m m'. apply H. Qed.

Lemma bounded_ok_weaken d d' f : bounded_ok d f -> d <= d' -> bounded_ok d' f.
Proof. intros Hf Hd m m' H. apply Hf in H. unfold steps in *. lia. Qed.

Lemma bounded_ok_check d1 d2 (f g : M vm.VM error) :
  bounded_ok d1 f -> bounded_ok d2 g -> bounded_ok (d1 + d2) (check f g).
Proof.
  intros Hf Hg m m'. unfold check.
  destruct (f m) as [[[err|] m1]|] eqn:H1; try discriminate.
  intros H2. apply Hf in H1. apply Hg in H2. unfold steps in *. lia.
Qed.

Lemma bounded_ok_bind {A} d1 d2 (f : M vm.VM A) (g : A -> M vm.VM error) :
  bounded d1 f -> (forall a, bounded_ok d2 (g a)) ->
  bounded_ok (d1 + d2) (f ≫= g).
Proof.
  intros Hf Hg m m'. unfold mbind, M_bind.
  destruct (f m) as [[a m1]|] eqn:H1; [|discriminate].
  intros H2. apply Hf in H1. apply Hg in H2. unfold steps in *. lia.
Qed.

(** The stack pointer after the code of a tree that is shorter than 2^16
    bytes. *)
Lemma bounded_exec t :
  wf t -> size t < 65536 -> bounded_ok (delta t) (exec t).
Proof.
  induction t; cbn [wf size delta exec].
  - intros _ _. apply bounded_ok_of, bounded_exec_plain.
  - intros Hop _. now apply bounded_ok_of, bounded_exec_indexed.
  - intros (Hwf & Hn & Hd) Hsize.
    replace (delta t + 1 - n) with (delta t + (1 - n)) by lia.
    apply bounded_ok_check; [apply IHt; [assumption|lia]|].
    rewrite Z.mod_small by lia. apply bounded_ok_of, bounded_exec_array. lia.
  - intros [Hwf1 Hwf2] Hsize.
    pose proof (size_nonneg t1). pose proof (size_nonneg t2).
    apply bounded_ok_check; [apply IHt1|apply IHt2]; auto; lia.
  - intros _ _. apply bounded_ok_of. now apply bounded_ret.
  - intros [Hwf1 Hwf2] Hsize.
    pose proof (size_nonneg t1). pose proof (size_nonneg t2).
    replace (Z.max (delta t1) (delta t2) - 1)
      with (-1 + Z.max (delta t1) (delta t2)) by lia.
    apply bounded_ok_bind; [now apply bounded_pop|intros condition].
    destruct (negb (vm.isTruthy condition)).
    + apply (bounded_ok_weaken (delta t2)); [apply IHt2; auto; lia|lia].
    + apply (bounded_ok_weaken (delta t1)); [apply IHt1; auto; lia|lia].
Qed.

End StackEffect.

(** ** The loop of [Run] on structured code *)

Section Simulation.

Import structured.

Lemma code_at_index (ins : list byte) pos b rest :
  code_at ins pos (b :: rest) -> index ins pos = Ok b /\ 0 <= pos < len ins.
Proof.
  intros (before & after & -> & <-). split; [apply index_app|].
  unfold len. rewrite length_app. simpl. lia.
Qed.

Lemma code_at_app (ins : list byte) pos a b :
  code_at ins pos (a ++ b) ->
  code_at ins pos a /\ code_at ins (pos + len a) b.
Proof.
  intros (before & after & -> & <-). split.
  - exists before, (b ++ after). now rewrite <- app_assoc.
  - exists (before ++ a), after. rewrite len_app.
    now rewrite <- !app_assoc.
Qed.

Lemma code_at_operand m pos op operand :
  code_at (vm.instructions m) pos (wide_instruction op operand) ->
  vm.operand pos m = Ok (operand mod 65536, m).
Proof.
  intros (before & after & Hins & <-). unfold vm.operand. rewrite Hins.
  unfold slice_from.
  replace (len before + 1) with (Z.of_nat (length (before ++ [op])))
    by (rewrite length_app; unfold len; simpl; lia).
  replace (before ++ wide_instruction op operand ++ after)
    with ((before ++ [op])
          ++ Z.land (Z.shiftr (uint16 operand) 8) 255
             :: Z.land (uint16 operand) 255 :: after)
    by (now rewrite <- app_assoc).
  rewrite Nat2Z.id, drop_app_length.
  replace (0 <=? Z.of_nat (length (before ++ [op]))) with true
    by (symmetry; apply Z.leb_le; lia).
  match goal with
  | |- context [?a <=? ?b] =>
    replace (a <=? b) with true
      by (symmetry; apply Z.leb_le; rewrite (length_app (before ++ [op])); lia)
  end.
  simpl. now rewrite Uint16_PutUint16.
Qed.

Lemma Run_body_plain m pos op :
  code_at (vm.instructions m) pos [op] -> In op plain ->
  vm.Run_body pos m = vm.returning (exec_plain op) pos m.
Proof.
  intros Hcode Hop. apply code_at_index in Hcode. destruct Hcode as [Hi _].
  unfold vm.Run_body. run_monad. rewrite Hi. cbv beta iota.
  simpl in Hop.
  repeat (destruct Hop as [<-|Hop];
          [try reflexivity;
           unfold vm.returning, vm.discarding, exec_plain, nil_; run_monad;
           cbn -[vm.pop vm.executeBinaryOperation vm.executeComparison];
           match goal with
           | |- context [match ?x with _ => _ end] =>
             destruct x as [[? ?]|]; reflexivity
           end|]).
  destruct Hop.
Qed.

Lemma Run_body_wide m pos op operand :
  code_at (vm.instructions m) pos (wide_instruction op operand) ->
  In op (code.OpArray :: indexed) ->
  vm.Run_body pos m
  = vm.returning (exec_wide op (operand mod 65536)) (pos + 2) m.
Proof.
  intros Hcode Hop. pose proof (code_at_operand _ _ _ _ Hcode) as Hoperand.
  apply code_at_index in Hcode. destruct Hcode as [Hi _].
  unfold vm.Run_body. run_monad. rewrite Hi. cbv beta iota.
  simpl in Hop. destruct Hop as [<-|[<-|[<-|[<-|[]]]]].
  - (* OpArray *)
    change (code.OpArray =? code.OpNull) with false.
    change (code.OpArray =? code.OpPop) with false.
    change (code.OpArray =? code.OpConstant) with false.
    change (code.OpArray =? code.OpTrue) with false.
    change (code.OpArray =? code.OpFalse) with false.
    change (code.OpArray =? code.OpArray) with true.
    cbv beta iota. rewrite Hoperand.
    unfold vm.returning, exec_wide, vm.alloc. run_monad.
    change (code.OpArray =? code.OpConstant) with false.
    change (code.OpArray =? code.OpArray) with true.
    cbv beta iota.
    match goal with
    | |- context [vm.popElements ?n ?es ?s] =>
      destruct (vm.popElements n es s) as [[es' m1]|]; [|reflexivity]
    end.
    cbv beta iota.
    match goal with
    | |- context [vm.push ?o ?s] =>
      destruct (vm.push o s) as [[err m2]|]; reflexivity
    end.
  - (* OpConstant *)
    change (code.OpConstant =? code.OpNull) with false.
    change (code.OpConstant =? code.OpPop) with false.
    change (code.OpConstant =? code.OpConstant) with true.
    cbv beta iota. rewrite Hoperand.
    unfold vm.returning, exec_wide. run_monad.
    change (code.OpConstant =? code.OpConstant) with true. cbv beta iota.
    destruct (index (vm.constants m) (operand mod 65536)); reflexivity.
  - (* OpGetGlobal *)
    cbn -[vm.operand vm.push index Z.modulo]. rewrite Hoperand.
    unfold vm.returning, exec_wide. run_monad.
    cbn -[vm.push index Z.modulo].
    destruct (index (vm.global m) (operand mod 65536)); reflexivity.
  - (* OpSetGlobal *)
    cbn -[vm.operand vm.pop store Z.modulo]. rewrite Hoperand.
    unfold vm.returning, exec_wide. run_monad.
    cbn -[vm.pop store Z.modulo].
    destruct (vm.pop m) as [[value m1]|]; [|reflexivity].
    destruct (store (vm.global m1) (operand mod 65536) value); reflexivity.
Qed.

Lemma Run_body_jump m pos target :
  code_at (vm.instructions m) pos (wide_instruction code.OpJump target) ->
  vm.Run_body pos m = Ok (vm.Next (target mod 65536 - 1), m).
Proof.
  intros Hcode. pose proof (code_at_operand _ _ _ _ Hcode) as Hoperand.
  apply code_at_index in Hcode. destruct Hcode as [Hi _].
  unfold vm.Run_body. run_monad. rewrite Hi. cbv beta iota.
  cbn -[vm.operand Z.modulo]. now rewrite Hoperand.
Qed.

Lemma Run_body_jump_not_truthy m pos target :
  code_at (vm.instructions m) pos
    (wide_instruction code.OpJumpNotTruthy target) ->
  vm.Run_body pos m
  = match vm.pop m with
    | Ok (condition, m') =>
      Ok (vm.Next (if negb (vm.isTruthy condition) then target mod 65536 - 1
                   else pos + 2), m')
    | Panic => Panic
    end.
Proof.
  intros Hcode. pose proof (code_at_operand _ _ _ _ Hcode) as Hoperand.
  apply code_at_index in Hcode. destruct Hcode as [Hi _].
  unfold vm.Run_body. run_monad. rewrite Hi. cbv beta iota.
  cbn -[vm.operand vm.pop vm.isTruthy Z.modulo]. rewrite Hoperand.
  destruct (vm.pop m) as [[condition m']|]; [|reflexivity].
  now destruct (negb (vm.isTruthy condition)).
Qed.

Lemma Run_loop_step fuel pos m :
  pos < len (vm.instructions m) ->
  vm.Run_loop (S fuel) pos m
  = match vm.Run_body pos m with
    | Ok (vm.Next ip', m') => vm.Run_loop fuel (ip' + 1) m'
    | Ok (vm.Return err, m') => Some (Ok (Some err, m'))
    | Panic => Some Panic
    end.
Proof.
  intros H. cbn [vm.Run_loop].
  now replace (pos <? len (vm.instructions m)) with true
    by (symmetry; apply Z.ltb_lt; lia).
Qed.

Lemma Run_loop_done fuel pos m :
  len (vm.instructions m) <= pos ->
  vm.Run_loop fuel pos m = Some (Ok (None, m)).
Proof.
  intros H.
  destruct fuel; cbn [vm.Run_loop];
    now replace (pos <? len (vm.instructions m)) with false
      by (symmetry; apply Z.ltb_ge; lia).
Qed.

(** More iterations allowed do not change a result. *)
Lemma Run_loop_more k fuel :
  forall pos m r,
    vm.Run_loop fuel pos m = Some r -> vm.Run_loop (k + fuel) pos m = Some r.
Proof.
  induction fuel as [|fuel IH]; intros pos m r.
  - cbn [vm.Run_loop].
    destruct (Z.ltb_spec pos (len (vm.instructions m))); [discriminate|].
    intros <-. now apply Run_loop_done.
  - replace (k + S fuel)%nat with (S (k + fuel)) by lia. cbn [vm.Run_loop].
    destruct (pos <? len (vm.instructions m)); [|auto].
    destruct (vm.Run_body pos m) as [[[err|ip'] m']|]; auto.
Qed.

Lemma simulates_nil pos m : simulates nil_ pos pos m.
Proof. exists 0%nat. reflexivity. Qed.

Lemma simulates_check f g pos mid pos' m :
  simulates f pos mid m ->
  (forall m1, f m = Ok (None, m1) -> simulates g mid pos' m1) ->
  simulates (check f g) pos pos' m.
Proof.
  intros [n Hf] Hg. unfold simulates, check.
  destruct (f m) as [[[err|] m1]|] eqn:Hfm.
  - exists n. exact Hf.
  - destruct (Hg m1 eq_refl) as [n' Hg']. exists (n + n')%nat. intros fuel.
    rewrite <- Nat.add_assoc, Hf. apply Hg'.
  - exists n. exact Hf.
Qed.

Lemma simulates_plain op pos m :
  code_at (vm.instructions m) pos [op] -> In op plain ->
  simulates (exec_plain op) pos (pos + 1) m.
Proof.
  intros Hcode Hop. exists 1%nat. intros fuel.
  pose proof (code_at_index _ _ _ _ Hcode) as [_ Hpos].
  change (1 + fuel)%nat with (S fuel).
  rewrite Run_loop_step, (Run_body_plain _ _ _ Hcode Hop) by lia.
  unfold vm.returning. run_monad.
  now destruct (exec_plain op m) as [[[err|] m']|].
Qed.

Lemma simulates_wide op operand pos m :
  code_at (vm.instructions m) pos (wide_instruction op operand) ->
  In op (code.OpArray :: indexed) ->
  simulates (exec_wide op (operand mod 65536)) pos (pos + 3) m.
Proof.
  intros Hcode Hop. exists 1%nat. intros fuel.
  pose proof (code_at_index _ _ _ _ Hcode) as [_ Hpos].
  change (1 + fuel)%nat with (S fuel).
  rewrite Run_loop_step, (Run_body_wide _ _ _ _ Hcode Hop) by lia.
  unfold vm.returning. run_monad.
  destruct (exec_wide op (operand mod 65536) m) as [[[err|] m']|]; try reflexivity.
  now replace (pos + 2 + 1) with (pos + 3) by lia.
Qed.

(** The loop of [Run] on the bytes of a tree does what [exec] does. *)
Lemma simulates_exec t :
  forall pos m,
    code_at (vm.instructions m) pos (flat pos t) ->
    wf t -> jumps_fit pos t ->
    simulates (exec t) pos (pos + size t) m.
Proof.
  induction t; intros pos m Hcode Hwf Hfit; cbn [flat exec size wf jumps_fit] in *.
  - now apply simulates_plain.
  - apply simulates_wide; [assumption|]. simpl. now right.
  - apply code_at_app in Hcode. destruct Hcode as [Hcode1 Hcode2].
    rewrite len_flat in Hcode2. destruct Hwf as (Hwf & _).
    apply (simulates_check _ _ _ (pos + size t)); [now apply IHt|].
    intros m1 Hm1. apply exec_instructions in Hm1.
    replace (pos + (size t + 3)) with (pos + size t + 3) by lia.
    apply simulates_wide; [now rewrite Hm1|]. simpl. now left.
  - apply code_at_app in Hcode. destruct Hcode as [Hcode1 Hcode2].
    rewrite len_flat in Hcode2. destruct Hwf as [Hwf1 Hwf2].
    destruct Hfit as [Hfit1 Hfit2].
    apply (simulates_check _ _ _ (pos + size t1)); [now apply IHt1|].
    intros m1 Hm1. apply exec_instructions in Hm1.
    replace (pos + (size t1 + size t2)) with (pos + size t1 + size t2) by lia.
    apply IHt2; [now rewrite Hm1|assumption|assumption].
  - rewrite Z.add_0_r. apply simulates_nil.
  - destruct Hwf as [Hwf1 Hwf2]. destruct Hfit as (Hpos & Hsize & Hfit1 & Hfit2).
    pose proof (size_nonneg t1). pose proof (size_nonneg t2).
    apply code_at_app in Hcode. destruct Hcode as [Hjnt Hcode].
    change (len (wide_instruction _ _)) with 3 in Hcode.
    apply code_at_app in Hcode. destruct Hcode as [Hcode1 Hcode].
    rewrite len_flat in Hcode.
    apply code_at_app in Hcode. destruct Hcode as [Hjump Hcode2].
    change (len (wide_instruction _ _)) with 3 in Hcode2.
    pose proof (code_at_index _ _ _ _ Hjnt) as [_ Hlt].
    pose proof (Run_body_jump_not_truthy _ _ _ Hjnt) as Hbody.
    rewrite Z.mod_small in Hbody by lia.
    unfold simulates, mbind, M_bind.
    destruct (vm.pop m) as [[condition m1]|] eqn:Hpop.
    2:{ exists 1%nat. intros fuel. change (1 + fuel)%nat with (S fuel).
        now rewrite Run_loop_step, Hbody by lia. }
    assert (Hins1 : vm.instructions m1 = vm.instructions m).
    { pose proof (stable_pop (vm.instructions m) m) as Hs.
      rewrite with_instructions_same, Hpop in Hs. simpl in Hs.
      now injection Hs as ->. }
    destruct (negb (vm.isTruthy condition)).
    + (* the alternative *)
      destruct (IHt2 (pos + 3 + size t1 + 3) m1) as [n Hn];
        [now rewrite Hins1|assumption|assumption|].
      exists (S n). intros fuel. cbn [Nat.add].
      rewrite Run_loop_step, Hbody by lia.
      replace (pos + 3 + size t1 + 3 - 1 + 1) with (pos + 3 + size t1 + 3)
        by lia.
      rewrite Hn.
      now replace (pos + 3 + size t1 + 3 + size t2)
        with (pos + (3 + size t1 + 3 + size t2)) by lia.
    + (* the consequence, then the jump over the alternative *)
      destruct (IHt1 (pos + 3) m1) as [n Hn];
        [now rewrite Hins1|assumption|assumption|].
      destruct (exec t1 m1) as [[[err|] m2]|] eqn:Hexec.
      * exists (S n). intros fuel. cbn [Nat.add].
        rewrite Run_loop_step, Hbody by lia.
        replace (pos + 2 + 1) with (pos + 3) by lia. apply Hn.
      * exists (S (n + 1)). intros fuel. cbn [Nat.add].
        rewrite Run_loop_step, Hbody by lia.
        replace (pos + 2 + 1) with (pos + 3) by lia.
        rewrite <- Nat.add_assoc, Hn. change (1 + fuel)%nat with (S fuel).
        apply exec_instructions in Hexec.
        assert (Hjump' : code_at (vm.instructions m2) (pos + 3 + size t1)
                           (wide_instruction code.OpJump
                              (pos + 3 + size t1 + 3 + size t2)))
          by now rewrite Hexec, Hins1.
        pose proof (code_at_index _ _ _ _ Hjump') as [_ Hlt'].
        rewrite Run_loop_step, (Run_body_jump _ _ _ Hjump') by lia.
        rewrite Z.mod_small by lia.
        now replace (pos + 3 + size t1 + 3 + size t2 - 1 + 1)
          with (pos + (3 + size t1 + 3 + size t2)) by lia.
      * exists (S n). intros fuel. cbn [Nat.add].
        rewrite Run_loop_step, Hbody by lia.
        replace (pos + 2 + 1) with (pos + 3) by lia. apply Hn.
Qed.

End Simulation.

(** ** Stack balance *)

Section StackBalance.

Import structured.

Lemma jumps_fit_short t :
  forall pos, 0 <= pos -> pos + size t < 65536 -> jumps_fit pos t.
Proof.
  induction t; intros pos Hpos Hsize; cbn [jumps_fit size] in *; auto.
  - apply IHt; [assumption|]. lia.
  - pose proof (size_nonneg t1). pose proof (size_nonneg t2).
    split; [apply IHt1|apply IHt2]; lia.
  - pose proof (size_nonneg t1). pose proof (size_nonneg t2).
    repeat split; try lia; [apply IHt1|apply IHt2]; lia.
Qed.

Lemma code_at_start (code : list byte) : code_at code 0 code.
Proof. exists [], []. now rewrite app_nil_r. Qed.

(** A machine whose instructions are the bytes of a tree, shorter than
    2^16 bytes: if [Run] returns no error, [exec] ends in the same
    machine. *)
Lemma Run_loop_exec t m0 fuel m :
  vm.instructions m0 = flat 0 t -> wf t -> size t < 65536 ->
  vm.Run_loop fuel 0 m0 = Some (Ok (None, m)) ->
  exec t m0 = Ok (None, m).
Proof.
  intros Hins Hwf Hsize Hrun.
  destruct (simulates_exec t 0 m0) as [n Hn].
  { rewrite Hins. apply code_at_start. }
  { assumption. }
  { apply jumps_fit_short; lia. }
  apply (Run_loop_more n) in Hrun. rewrite Hn in Hrun.
  destruct (exec t m0) as [[[err|] m1]|] eqn:Hexec; try discriminate.
  rewrite Run_loop_done in Hrun.
  - now injection Hrun as ->.
  - apply exec_instructions in Hexec. rewrite Hexec, Hins, len_flat. lia.
Qed.

(** And if [exec] returns no error, so does [Run], in the same machine. *)
Lemma exec_Run_loop_fit t m0 m :
  vm.instructions m0 = flat 0 t -> wf t -> jumps_fit 0 t ->
  exec t m0 = Ok (None, m) ->
  exists fuel, vm.Run_loop fuel 0 m0 = Some (Ok (None, m)).
Proof.
  intros Hins Hwf Hfit Hexec.
  destruct (simulates_exec t 0 m0) as [n Hn]; [|assumption|assumption|].
  { rewrite Hins. apply code_at_start. }
  exists (n + 0)%nat. rewrite Hn, Hexec. apply Run_loop_done.
  apply exec_instructions in Hexec. rewrite Hexec, Hins, len_flat. lia.
Qed.

Lemma exec_Run_loop t m0 m :
  vm.instructions m0 = flat 0 t -> wf t -> size t < 65536 ->
  exec t m0 = Ok (None, m) ->
  exists fuel, vm.Run_loop fuel 0 m0 = Some (Ok (None, m)).
Proof.
  intros Hins Hwf Hsize. apply exec_Run_loop_fit; auto.
  apply jumps_fit_short; lia.
Qed.



(** *** A program with more than 2^16 constants *)

Lemma literals_wf n : forall k, wf (literals k n).
Proof.
  induction n as [|n IH]; intros k; cbn [literals wf]; auto.
  repeat split; simpl; auto.
Qed.

Lemma literals_jumps_fit n : forall k pos, jumps_fit pos (literals k n).
Proof.
  induction n as [|n IH]; intros k pos; cbn [literals jumps_fit]; auto.
Qed.

Lemma literals_size n : forall k, size (literals k n) = 4 * Z.of_nat n.
Proof.
  induction n as [|n IH]; intros k; cbn [literals size]; [reflexivity|].
  rewrite IH. lia.
Qed.

(** Compiling statements that are integer literals. *)
Lemma CompileStatements_literals zs :
  forall c,
    exists c',
      compiler.CompileStatements
        (map (fun z => ast.ExpressionStatement (ast.IntegerLiteral z)) zs) c
      = Ok (None, c') /\
      compiler.instructions c'
      = compiler.instructions c
        ++ flat (len (compiler.instructions c))
             (literals (len (compiler.constants c)) (length zs)) /\
      (exists objects,
         compiler.constants c' = compiler.constants c ++ objects /\
         length objects = length zs /\
         (forall z zs', zs = z :: zs' ->
                        exists objects',
                          objects = object.Integer (compiler.heap c) z :: objects')).
Proof.
  induction zs as [|z zs IH]; intros c.
  - exists c. split; [reflexivity|]. split; [now rewrite app_nil_r|].
    exists []. split; [now rewrite app_nil_r|]. split; [reflexivity|].
    discriminate.
  - cbn [map compiler.CompileStatements]. unfold check at 1.
    set (c1 := compiler.mkCompiler
                 (compiler.instructions c
                  ++ wide_instruction code.OpConstant (len (compiler.constants c))
                  ++ [code.OpPop])
                 (compiler.constants c ++ [object.Integer (compiler.heap c) z])
                 (compiler.mkEmitted code.OpPop
                    (len (compiler.instructions c) + 3))
                 (compiler.mkEmitted code.OpConstant
                    (len (compiler.instructions c)))
                 (compiler.symbolTable c) (compiler.heap c + 1)%N).
    assert (Hs : compiler.CompileStatement
                   (ast.ExpressionStatement (ast.IntegerLiteral z)) c
                 = Ok (None, c1)).
    { subst c1. cbn [compiler.CompileStatement compiler.CompileExpression].
      unfold check.
      erewrite bind_Ok by reflexivity.
      erewrite bind_Ok by reflexivity.
      rewrite emit_wide_nil by (simpl; auto 10).
      rewrite emit_plain_nil by (simpl; auto).
      unfold emitted. cbn [compiler.instructions compiler.constants
        compiler.lastInstruction compiler.symbolTable compiler.heap].
      rewrite len_app. change (len (wide_instruction _ _)) with 3.
      now rewrite <- app_assoc. }
    rewrite Hs. destruct (IH c1) as (c' & Hc' & Hins & objects & Hobj & Hlen & _).
    exists c'. split; [exact Hc'|]. split.
    + rewrite Hins. subst c1. cbn [compiler.instructions compiler.constants].
      cbn [length literals]. rewrite !flat_seq.
      rewrite !len_app. change (len (wide_instruction _ _)) with 3.
      change (len [code.OpPop]) with 1. change (len [_]) with 1.
      cbn [flat size].
      now rewrite <- !app_assoc.
    + exists (object.Integer (compiler.heap c) z :: objects).
      split; [|split].
      * rewrite Hobj. subst c1. cbn [compiler.constants].
        now rewrite <- app_assoc.
      * cbn [length]. now rewrite Hlen.
      * intros z0 zs0 [= <- <-]. now exists objects.
Qed.

(** An expression statement that is a literal leaves its constant in the
    first slot of the stack. *)
Lemma exec_literal m k c :
  vm.sp m = 0 -> 0 < len (vm.stack m) ->
  index (vm.constants m) (k mod 65536) = Ok c ->
  exec (TSeq (TOp1 code.OpConstant k) (TOp code.OpPop)) m
  = Ok (None, vm.set_stack m (<[0%nat := Some c]> (vm.stack m)) 0).
Proof.
  intros Hsp Hstack Hc. cbn [exec]. unfold check, exec_wide, exec_plain.
  change (code.OpConstant =? code.OpConstant) with true.
  change (code.OpPop =? code.OpNull) with false.
  change (code.OpPop =? code.OpPop) with true.
  cbv iota. run_monad. rewrite Hc.
  unfold vm.push, vm.pop. run_monad. rewrite Hsp.
  change (0 >=? vm.StackSize) with false. cbv iota.
  unfold store.
  replace (0 <? Z.of_nat (length (vm.stack m))) with true
    by (symmetry; apply Z.ltb_lt; exact Hstack).
  cbn [andb Z.leb Z.compare Z.to_nat vm.stack vm.sp vm.set_stack].
  unfold nil_, mret, M_ret.
  change (0 + 1 - 1) with 0. unfold index.
  rewrite length_insert.
  replace (0 <? Z.of_nat (length (vm.stack m))) with true
    by (symmetry; apply Z.ltb_lt; exact Hstack).
  cbn [andb Z.leb Z.compare Z.to_nat].
  rewrite list_lookup_insert_eq by (unfold len in Hstack; lia).
  reflexivity.
Qed.

Lemma exec_literals n :
  forall k m,
    vm.sp m = 0 -> 0 < len (vm.stack m) ->
    65536 <= len (vm.constants m) ->
    exists m',
      exec (literals k n) m = Ok (None, m') /\
      vm.sp m' = 0 /\ vm.constants m' = vm.constants m /\
      len (vm.stack m') = len (vm.stack m) /\
      forall c,
        (0 < n)%nat ->
        index (vm.constants m) ((k + Z.of_nat n - 1) mod 65536) = Ok c ->
        vm.LastPoppedStackElement m' = Ok (Some c).
Proof.
  induction n as [|n IH]; intros k m Hsp Hstack Hconstants.
  - exists m. repeat split; auto. lia.
  - assert (Hk : exists c, index (vm.constants m) (k mod 65536) = Ok c).
    { pose proof (Z.mod_pos_bound k 65536 ltac:(lia)) as Hmod.
      unfold index, len in *.
      replace (0 <=? k mod 65536) with true by (symmetry; apply Z.leb_le; lia).
      replace (k mod 65536 <? Z.of_nat (length (vm.constants m))) with true
        by (symmetry; apply Z.ltb_lt; lia).
      cbn [andb].
      destruct (vm.constants m !! Z.to_nat (k mod 65536)) as [c|] eqn:Hl;
        [now exists c|].
      apply lookup_ge_None in Hl. lia. }
    destruct Hk as [ck Hck].
    pose proof (exec_literal m k ck Hsp Hstack Hck) as Hfirst.
    set (m1 := vm.set_stack m _ 0) in Hfirst.
    destruct (IH (k + 1) m1) as (m' & Hexec & Hsp' & Hconst' & Hlen' & Hlast).
    { reflexivity. }
    { subst m1. cbn [vm.stack vm.set_stack]. unfold len.
      rewrite length_insert. exact Hstack. }
    { exact Hconstants. }
    exists m'. cbn [literals exec]. unfold check at 1.
    change (check (exec_wide code.OpConstant (k mod 65536)) (exec_plain code.OpPop) m)
      with (exec (TSeq (TOp1 code.OpConstant k) (TOp code.OpPop)) m).
    rewrite Hfirst. split; [exact Hexec|]. split; [exact Hsp'|].
    split; [exact Hconst'|]. split.
    + rewrite Hlen'. subst m1. cbn [vm.stack vm.set_stack]. unfold len.
      now rewrite length_insert.
    + intros c _ Hc. destruct n as [|n].
      * cbn [literals exec] in Hexec. injection Hexec as <-.
        replace (k + Z.of_nat 1 - 1) with k in Hc by lia.
        rewrite Hck in Hc. injection Hc as <-.
        unfold vm.LastPoppedStackElement. subst m1.
        cbn [vm.stack vm.sp vm.set_stack]. unfold index.
        rewrite length_insert.
        replace (0 <? Z.of_nat (length (vm.stack m))) with true
          by (symmetry; apply Z.ltb_lt; exact Hstack).
        cbn [andb Z.leb Z.compare Z.to_nat].
        now rewrite list_lookup_insert_eq by (unfold len in Hstack; lia).
      * apply Hlast; [lia|].
        replace (k + 1 + Z.of_nat (S n) - 1) with (k + Z.of_nat (S (S n)) - 1)
          by lia.
        exact Hc.
Qed.

Lemma map_replicate {A B} (f : A -> B) n x :
  map f (replicate n x) = replicate n (f x).
Proof. induction n as [|n IH]; simpl; [reflexivity|now rewrite IH]. Qed.

(** The program of [n + 2] literal statements [0; ...; 0; 7;] with
    [n = 65535]: its last constant has the index 65536, which the operand
    of [OpConstant] holds as 0. *)
Lemma Compile_literals_wrap n :
  Z.of_nat n = 65535 ->
  exists c fuel m,
    compiler.Compile
      (ast.NProgram
         (map (fun z => ast.ExpressionStatement (ast.IntegerLiteral z))
            (0 :: replicate n 0 ++ [7])))
      compiler.New
    = Ok (None, c) /\
    len (compiler.instructions c) = 262148 /\
    vm.Run fuel (vm.New (compiler.Bytecode_ c) (compiler.heap c))
    = Some (Ok (None, m)) /\
    vm.sp m = 0 /\
    vm.LastPoppedStackElement m = Ok (Some (object.Integer 3 0)).
Proof.
  intros Hn.
  assert (Hlength : length (0 :: replicate n 0 ++ [7]) = S (S n)).
  { cbn [length]. rewrite length_app, length_replicate. cbn [length]. lia. }
  destruct (CompileStatements_literals (0 :: replicate n 0 ++ [7]) compiler.New)
    as (c & Hc & Hins & objects & Hconstants & Hobjects & Hfirst).
  destruct (Hfirst 0 _ eq_refl) as [objects' ->].
  change (compiler.instructions compiler.New) with (@nil Z) in Hins.
  change (compiler.constants compiler.New) with (@nil object.Object)
    in Hins, Hconstants.
  change (compiler.heap compiler.New) with 3%N in Hconstants, Hobjects.
  cbn [app] in Hins, Hconstants. change (len []) with 0 in Hins.
  rewrite Hlength in Hins, Hobjects.
  destruct (exec_literals (S (S n)) 0
              (vm.New (compiler.Bytecode_ c) (compiler.heap c)))
    as (m & Hexec & Hsp & _ & _ & Hlast).
  { reflexivity. }
  { reflexivity. }
  { cbn [vm.New vm.constants compiler.Bytecode_ compiler.Constants].
    unfold len. rewrite Hconstants, Hobjects. lia. }
  destruct (exec_Run_loop_fit (literals 0 (S (S n)))
              (vm.New (compiler.Bytecode_ c) (compiler.heap c)) m)
    as [fuel Hrun].
  { exact Hins. }
  { apply literals_wf. }
  { apply literals_jumps_fit. }
  { exact Hexec. }
  exists c, fuel, m.
  split; [exact Hc|].
  split; [rewrite Hins, len_flat, literals_size; lia|].
  split; [exact Hrun|]. split; [exact Hsp|].
  apply Hlast; [lia|].
  replace ((0 + Z.of_nat (S (S n)) - 1) mod 65536) with 0
    by (replace (0 + Z.of_nat (S (S n)) - 1) with 65536 by lia; reflexivity).
  cbn [vm.New vm.constants compiler.Bytecode_ compiler.Constants].
  rewrite Hconstants. reflexivity.
Qed.


End StackBalance.

(** * The rest of the code

    Properties of the functions of the codec, the compiler, the virtual
    machine and the read-eval-print loop: their behaviour at the edges,
    what they keep, and how they compose. *)

(** ** The codec: registered opcodes, arities and truncated input *)

Section CodecEdges.

Import code.

Lemma assoc_registered op :
  0 <= op <= 19 -> exists def, assoc definitions op = Some def.
Proof.
  intros H.
  assert (Hcases : op = 0 \/ op = 1 \/ op = 2 \/ op = 3 \/ op = 4 \/ op = 5
                   \/ op = 6 \/ op = 7 \/ op = 8 \/ op = 9 \/ op = 10
                   \/ op = 11 \/ op = 12 \/ op = 13 \/ op = 14 \/ op = 15
                   \/ op = 16 \/ op = 17 \/ op = 18 \/ op = 19) by lia.
  repeat (destruct Hcases as [-> | Hcases]; [eexists; reflexivity|]).
  subst. eexists; reflexivity.
Qed.

Lemma assoc_unregistered op :
  ~ 0 <= op <= 19 -> assoc definitions op = None.
Proof.
  intros H.
  destruct (assoc definitions op) as [def|] eqn:Hdef; [|reflexivity].
  apply assoc_In in Hdef. simpl in Hdef.
  repeat (destruct Hdef as [[= <- <-]|Hdef];
          [exfalso; apply H; vm_compute; split; discriminate|]).
  destruct Hdef.
Qed.

(** X1. The registered opcodes are the bytes 0 to 19: [Lookup] finds a
    definition for these, and for any other byte it returns the error that
    names the byte, while [Make] returns an empty instruction whatever the
    operands. *)
Theorem Lookup_registered_range op :
  (0 <= op <= 19 ->
   exists def, Lookup op = inl def /\ Make op [] <> Ok []) /\
  (~ 0 <= op <= 19 ->
   Lookup op = inr ("opcode " +:+ itoa op +:+ " undefined") /\
   forall operands, Make op operands = Ok []).
Proof.
  split; intros H.
  - destruct (assoc_registered op H) as [def Hdef].
    exists def. unfold Lookup, Make. rewrite Hdef. split; [reflexivity|].
    simpl. discriminate.
  - unfold Lookup, Make. rewrite (assoc_unregistered op H). now split.
Qed.

Lemma Lookup_registered_range_witness :
  (exists def, Lookup OpArray = inl def /\ Make OpArray [] <> Ok []) /\
  Lookup 255 = inr "opcode 255 undefined" /\
  forall operands, Make 255 operands = Ok [].
Proof.
  split.
  - apply (proj1 (Lookup_registered_range OpArray)). unfold OpArray. lia.
  - apply (proj2 (Lookup_registered_range 255)). lia.
Defined.


Lemma Make_zero op def :
  assoc definitions op = Some def ->
  OperandWidths def = [2] ->
  Make op [] = Ok [op; 0; 0].
Proof. intros Hdef Hw. unfold Make. now rewrite Hdef, Hw. Qed.

Lemma Make_plain_excess op def o operands :
  assoc definitions op = Some def ->
  OperandWidths def = [] ->
  Make op (o :: operands) = Panic.
Proof. intros Hdef Hw. unfold Make. now rewrite Hdef, Hw. Qed.

Lemma Make_wide_excess op def o o' operands :
  assoc definitions op = Some def ->
  OperandWidths def = [2] ->
  Make op (o :: o' :: operands) = Panic.
Proof. intros Hdef Hw. unfold Make. now rewrite Hdef, Hw. Qed.

(** X2. [Make] on a registered opcode returns an instruction exactly when it
    is given no more operands than the definition has widths: the
    instruction then starts with the opcode and has one byte more than the
    sum of the widths, the bytes of an operand that is not given being zero.
    With more operands the loop indexes [def.OperandWidths] out of range and
    panics. *)
Theorem Make_arity op def operands :
  Lookup op = inl def ->
  ((length operands <= length (OperandWidths def))%nat ->
   exists rest,
     Make op operands = Ok (op :: rest) /\
     len (op :: rest) = fold_left Z.add (OperandWidths def) 1 /\
     (operands = [] -> Forall (fun b => b = 0) rest)) /\
  ((length operands > length (OperandWidths def))%nat ->
   Make op operands = Panic).
Proof.
  unfold Lookup. destruct (assoc definitions op) as [d|] eqn:Hdef; [|discriminate].
  intros [= ->].
  destruct (definitions_widths _ _ Hdef) as [Hw|Hw]; rewrite Hw; simpl length.
  - split; intros Hlen.
    + destruct operands; [|simpl in Hlen; lia].
      exists []. rewrite (Make_plain _ _ Hdef Hw). repeat split. constructor.
    + destruct operands as [|o operands]; [simpl in Hlen; lia|].
      apply (Make_plain_excess _ _ _ _ Hdef Hw).
  - split; intros Hlen.
    + destruct operands as [|o [|o' operands]]; [| |simpl in Hlen; lia].
      * exists [0; 0]. rewrite (Make_zero _ _ Hdef Hw).
        repeat split. repeat constructor.
      * eexists. rewrite (Make_wide _ _ _ Hdef Hw).
        repeat split. discriminate.
    + destruct operands as [|o [|o' operands]]; try (simpl in Hlen; lia).
      apply (Make_wide_excess _ _ _ _ _ Hdef Hw).
Qed.

Lemma Make_arity_witness :
  (exists rest,
     Make OpConstant [] = Ok (OpConstant :: rest) /\
     len (OpConstant :: rest) = 3 /\
     ([] = @nil Z -> Forall (fun b => b = 0) rest)) /\
  Make OpAdd [1] = Panic.
Proof.
  destruct (Make_arity OpConstant (mkDefinition "OpConstant" [2]) [] eq_refl)
    as [H _].
  destruct (Make_arity OpAdd (mkDefinition "OpAdd" []) [1] eq_refl) as [_ H'].
  split; [apply H; simpl; lia|apply H'; simpl; lia].
Defined.

Lemma slice_from_app {A} (l k : list A) : slice_from (l ++ k) (len l) = Ok k.
Proof.
  unfold slice_from, len. rewrite length_app.
  replace (0 <=? Z.of_nat (length l)) with true by (symmetry; apply Z.leb_le; lia).
  replace (Z.of_nat (length l) <=? Z.of_nat (length l + length k)) with true
    by (symmetry; apply Z.leb_le; lia).
  simpl. rewrite Nat2Z.id. now rewrite drop_app_length.
Qed.

Import code.

Lemma ReadOperands_plain def ins :
  OperandWidths def = [] -> ReadOperands def ins = Ok ([], 0).
Proof. intros Hw. unfold ReadOperands. now rewrite Hw. Qed.

Lemma ReadOperands_short def (ins : list byte) :
  OperandWidths def = [2] -> len ins < 2 -> ReadOperands def ins = Panic.
Proof.
  intros Hw Hlen. unfold ReadOperands. rewrite Hw.
  destruct ins as [|b0 [|b1 ins]]; try reflexivity.
  unfold len in Hlen. simpl in Hlen. lia.
Qed.

(** X3. [ReadOperands] for a registered opcode reads as many bytes as the
    sum of the operand widths and returns one operand for each width,
    whatever follows these bytes; on fewer bytes it panics, slicing out of
    range. *)
Theorem ReadOperands_reads_widths op def (ins : list byte) :
  Lookup op = inl def ->
  (fold_right Z.add 0 (OperandWidths def) <= len ins ->
   exists operands,
     ReadOperands def ins
     = Ok (operands, fold_right Z.add 0 (OperandWidths def)) /\
     length operands = length (OperandWidths def) /\
     forall rest,
       ReadOperands def (ins ++ rest)
       = Ok (operands, fold_right Z.add 0 (OperandWidths def))) /\
  (len ins < fold_right Z.add 0 (OperandWidths def) ->
   ReadOperands def ins = Panic).
Proof.
  unfold Lookup. destruct (assoc definitions op) as [d|] eqn:Hdef; [|discriminate].
  intros [= ->].
  destruct (definitions_widths _ _ Hdef) as [Hw|Hw]; rewrite Hw;
    cbn [fold_right length].
  - split.
    + intros _. exists []. split; [now apply ReadOperands_plain|].
      split; [reflexivity|]. intros rest. now apply ReadOperands_plain.
    + pose proof (len_nonneg ins). lia.
  - split.
    + intros Hlen. destruct ins as [|b0 [|b1 ins]];
        try (unfold len in Hlen; simpl in Hlen; lia).
      exists [Z.lor b1 (Z.shiftl b0 8)].
      split; [now apply ReadOperands_wide|]. split; [reflexivity|].
      intros rest. now apply ReadOperands_wide.
    + intros Hlen. apply ReadOperands_short; [assumption|lia].
Qed.

Lemma ReadOperands_reads_widths_witness :
  (exists operands,
     ReadOperands (mkDefinition "OpJump" [2]) [1; 2; 3] = Ok (operands, 2) /\
     length operands = 1%nat /\
     forall rest,
       ReadOperands (mkDefinition "OpJump" [2]) ([1; 2; 3] ++ rest)
       = Ok (operands, 2)) /\
  ReadOperands (mkDefinition "OpJump" [2]) [1] = Panic.
Proof.
  split.
  - apply (ReadOperands_reads_widths OpJump (mkDefinition "OpJump" [2]) [1; 2; 3]
             eq_refl).
    simpl. unfold len. simpl. lia.
  - apply (ReadOperands_reads_widths OpJump (mkDefinition "OpJump" [2]) [1]
             eq_refl).
    simpl. unfold len. simpl. lia.
Defined.

(** X4. When the bytes end before the operand of an instruction does,
    [Instructions.String] panics: it returns neither the lines of the
    instructions before nor an error line. *)
Theorem String_truncated_operand_panics op def fuel
    (before tail : list byte) out :
  Lookup op = inl def ->
  OperandWidths def = [2] ->
  len tail < 2 ->
  String_loop (S fuel) (before ++ op :: tail) (len before) out = Some Panic.
Proof.
  intros Hdef Hw Hlen. cbn [String_loop].
  replace (len before <? len (before ++ op :: tail)) with true
    by (symmetry; apply Z.ltb_lt; rewrite len_app; unfold len; simpl; lia).
  unfold String_iter. rewrite index_app. unfold mbind, outcome_bind.
  rewrite Hdef.
  replace (before ++ op :: tail) with ((before ++ [op]) ++ tail)
    by now rewrite <- app_assoc.
  replace (len before + 1) with (len (before ++ [op]))
    by (rewrite len_app; reflexivity).
  rewrite slice_from_app. now rewrite ReadOperands_short.
Qed.

Lemma String_truncated_operand_panics_witness :
  String_ 2 [OpTrue; OpConstant; 0] = Some Panic.
Proof.
  unfold String_. cbn [String_loop]. cbn.
  apply (String_truncated_operand_panics OpConstant
           (mkDefinition "OpConstant" [2]) 0 [OpTrue] [0]
           ("" +:+ ("0000 OpTrue" +:+ LF)) eq_refl eq_refl).
  unfold len. simpl. lia.
Defined.

Lemma ReadOperands_loop_length widths :
  forall ins offset operands read,
    ReadOperands_loop widths ins offset = Ok (operands, read) ->
    length operands = length widths /\
    read = offset + fold_right Z.add 0 widths.
Proof.
  induction widths as [|width widths IH]; intros ins offset operands read;
    cbn [ReadOperands_loop].
  - intros [= <- <-]. split; [reflexivity|]. simpl. lia.
  - unfold mbind, outcome_bind.
    destruct (if width =? 2 then _ else _) as [operand|]; [|discriminate].
    destruct (ReadOperands_loop widths ins (offset + width))
      as [[operands' read']|] eqn:Hrest; [|discriminate].
    intros [= <- <-]. apply IH in Hrest. destruct Hrest as [Hlen ->].
    split; [simpl; now rewrite Hlen|]. simpl. lia.
Qed.

(** X5. The disassembler never reports a wrong number of operands: whatever
    the definition and the bytes, [ReadOperands] returns one operand for
    each width when it returns, so that [fmtInstruction] is never called
    with operands that do not match the definition; for a registered opcode
    it gives the name, followed by the operand if there is one. *)
Theorem fmtInstruction_operands_match def ins operands read :
  ReadOperands def ins = Ok (operands, read) ->
  len operands = len (OperandWidths def) /\
  read = fold_right Z.add 0 (OperandWidths def) /\
  (forall op, Lookup op = inl def ->
     fmtInstruction def operands = Name def
     \/ exists o, operands = [o]
                  /\ fmtInstruction def operands = Name def +:+ " " +:+ itoa o).
Proof.
  unfold ReadOperands. intros Hread.
  destruct (ReadOperands_loop_length _ _ _ _ _ Hread) as [Hlen Hsum].
  split; [unfold len; now rewrite Hlen|]. split; [lia|].
  intros op. unfold Lookup.
  destruct (assoc definitions op) as [d|] eqn:Hdef; [|discriminate].
  intros [= ->]. unfold fmtInstruction, len. rewrite Hlen, Z.eqb_refl.
  cbn [negb].
  destruct (definitions_widths _ _ Hdef) as [Hw|Hw]; rewrite Hw in Hlen |- *.
  - now left.
  - right. destruct operands as [|o [|o' operands]]; try discriminate.
    now exists o.
Qed.

Lemma fmtInstruction_operands_match_witness :
  len [258] = len (OperandWidths (mkDefinition "OpConstant" [2])) /\
  2 = fold_right Z.add 0 (OperandWidths (mkDefinition "OpConstant" [2])) /\
  (forall op, Lookup op = inl (mkDefinition "OpConstant" [2]) ->
     fmtInstruction (mkDefinition "OpConstant" [2]) [258] = "OpConstant"
     \/ exists o, [258] = [o]
                  /\ fmtInstruction (mkDefinition "OpConstant" [2]) [258]
                     = "OpConstant" +:+ " " +:+ itoa o).
Proof.
  exact (fmtInstruction_operands_match (mkDefinition "OpConstant" [2])
           [1; 2; 3] [258] 2 eq_refl).
Defined.

End CodecEdges.

(** ** The disassembler on well-formed instructions *)

Section Disassembly.

Import code scenario structured listing.

(** An iteration of the loop of [Instructions.String] on an instruction that
    [Make] built. *)
Lemma String_iter_instruction op def operands bytes (before after : list byte) :
  Lookup op = inl def ->
  Forall2 fits operands (OperandWidths def) ->
  Make op operands = Ok bytes ->
  String_iter (before ++ bytes ++ after) (len before)
  = Ok (len before + len bytes,
        itoa04 (len before) +:+ " " +:+ fmtInstruction def operands +:+ LF) /\
  len bytes = fold_left Z.add (OperandWidths def) 1 /\ 0 < len bytes.
Proof.
  unfold Lookup. destruct (assoc definitions op) as [d|] eqn:Hdef; [|discriminate].
  intros [= ->] Hfits.
  destruct (definitions_widths _ _ Hdef) as [Hw|Hw]; rewrite Hw in Hfits |- *.
  - inversion Hfits; subst. rewrite (Make_plain _ _ Hdef Hw). intros [= <-].
    split; [|now split].
    unfold String_iter. cbn [app]. rewrite index_app.
    unfold mbind, outcome_bind, Lookup. rewrite Hdef.
    replace (before ++ op :: after) with ((before ++ [op]) ++ after)
      by now rewrite <- app_assoc.
    replace (len before + 1) with (len (before ++ [op]))
      by (rewrite len_app; reflexivity).
    rewrite slice_from_app. unfold ReadOperands. rewrite Hw.
    cbn [ReadOperands_loop]. rewrite len_app. do 2 f_equal. lia.
  - inversion Hfits as [|o w ops' ws Ho Hrest]; subst.
    inversion Hrest; subst.
    rewrite (Make_wide _ _ _ Hdef Hw). intros [= <-].
    split; [|now split].
    unfold String_iter. cbn [app]. rewrite index_app.
    unfold mbind, outcome_bind, Lookup. rewrite Hdef.
    match goal with
    | |- context [before ++ op :: ?x :: ?y :: after] =>
      replace (before ++ op :: x :: y :: after)
        with ((before ++ [op]) ++ x :: y :: after)
        by now rewrite <- app_assoc
    end.
    replace (len before + 1) with (len (before ++ [op]))
      by (rewrite len_app; reflexivity).
    rewrite slice_from_app, ReadOperands_wide by assumption.
    rewrite Uint16_PutUint16. unfold fits in Ho. simpl in Ho.
    rewrite Z.mod_small by lia. rewrite len_app.
    do 2 f_equal. change (len [op]) with 1. change (len [op; _; _]) with 3. lia.
Qed.

Lemma append_assoc (a b c : string) : (a +:+ b) +:+ c = a +:+ (b +:+ c).
Proof.
  induction a as [|x a IH]; [reflexivity|].
  change (String.String x ((a +:+ b) +:+ c) = String.String x (a +:+ (b +:+ c))).
  now rewrite IH.
Qed.

Lemma append_nil_r (a : string) : a +:+ "" = a.
Proof.
  induction a as [|x a IH]; [reflexivity|].
  change (String.String x (a +:+ "") = String.String x a). now rewrite IH.
Qed.

Lemma String_loop_assemble instructions :
  Forall encodable instructions ->
  forall ins before out,
    assemble instructions = Ok ins ->
    String_loop (length instructions) (before ++ ins) (len before) out
    = Some (Ok (out +:+ disassembly (len before) instructions)).
Proof.
  induction 1 as [|[op operands] instructions (def & Hdef & Hfits) _ IH];
    intros ins before out.
  - intros [= <-]. rewrite app_nil_r. simpl.
    rewrite Z.ltb_irrefl. now rewrite append_nil_r.
  - cbn [fst snd] in Hdef, Hfits.
    unfold assemble. cbn [map concatenateInstructions fst snd].
    unfold mbind, outcome_bind.
    destruct (Make op operands) as [bytes|] eqn:Hbytes; [|discriminate].
    fold (assemble instructions).
    destruct (assemble instructions) as [ins'|] eqn:Hins'; [|discriminate].
    intros [= <-].
    destruct (String_iter_instruction op def operands bytes before ins'
                Hdef Hfits Hbytes) as (Hiter & Hlen & Hpos).
    cbn [length String_loop disassembly].
    replace (len before <? len (before ++ bytes ++ ins')) with true
      by (symmetry; apply Z.ltb_lt; rewrite !len_app;
          pose proof (len_nonneg ins'); lia).
    rewrite Hiter, Hdef.
    replace (before ++ bytes ++ ins') with ((before ++ bytes) ++ ins')
      by now rewrite <- app_assoc.
    replace (len before + len bytes) with (len (before ++ bytes))
      by now rewrite len_app.
    rewrite (IH ins' (before ++ bytes) _ eq_refl).
    rewrite len_app, Hlen. now rewrite append_assoc.
Qed.

(** X6. The disassembler inverts the assembler: on the concatenation of
    instructions that [Make] built from registered opcodes and operands
    within their widths, [Instructions.String] returns after one iteration
    for each instruction, with one line for each that gives its byte offset,
    its name and its operand. *)
Theorem String_assemble instructions ins :
  Forall encodable instructions ->
  assemble instructions = Ok ins ->
  String_ (length instructions) ins = Some (Ok (disassembly 0 instructions)).
Proof.
  intros Hall Hins. unfold String_.
  exact (String_loop_assemble instructions Hall ins [] "" Hins).
Qed.

Lemma String_assemble_witness :
  String_ 3 [OpConstant; 1; 0; OpAdd; OpJump; 255; 255]
  = Some (Ok ("0000 OpConstant 256" +:+ LF +:+ "0003 OpAdd" +:+ LF +:+
              "0004 OpJump 65535" +:+ LF)).
Proof.
  apply (String_assemble [(OpConstant, [256]); (OpAdd, []); (OpJump, [65535])]).
  - repeat constructor; eexists; (split; [reflexivity|]);
      repeat constructor; unfold fits; simpl; lia.
  - reflexivity.
Defined.

Lemma assemble_app a b x y :
  assemble a = Ok x -> assemble b = Ok y -> assemble (a ++ b) = Ok (x ++ y).
Proof.
  revert x. induction a as [|[op operands] a IH]; intros x.
  - intros [= <-]. auto.
  - unfold assemble. cbn [map app concatenateInstructions fst snd].
    unfold mbind, outcome_bind.
    destruct (Make op operands) as [bytes|]; [|discriminate].
    fold (assemble a). fold (assemble (a ++ b)).
    destruct (assemble a) as [x'|] eqn:Hx; [|discriminate].
    intros [= <-] Hb. rewrite (IH x' eq_refl Hb). now rewrite app_assoc.
Qed.

Lemma wide_instruction_mod op operand :
  wide_instruction op (operand mod 65536) = wide_instruction op operand.
Proof.
  unfold wide_instruction, uint16. change 65535 with (Z.ones 16).
  rewrite !Z.land_ones by lia. change (2 ^ 16) with 65536.
  now rewrite Z.mod_mod by lia.
Qed.

Lemma assemble_wide op def operand :
  assoc definitions op = Some def -> OperandWidths def = [2] ->
  assemble [(op, [operand mod 65536])] = Ok (wide_instruction op operand) /\
  Forall encodable [(op, [operand mod 65536])].
Proof.
  intros Hdef Hw. split.
  - unfold assemble. cbn [map concatenateInstructions fst snd].
    rewrite (Make_wide _ _ _ Hdef Hw). unfold mbind, outcome_bind.
    fold (wide_instruction op (operand mod 65536)).
    now rewrite wide_instruction_mod, app_nil_r.
  - repeat constructor. exists def. cbn [fst snd]. unfold Lookup.
    rewrite Hdef, Hw. split; [reflexivity|]. repeat constructor.
    + apply Z.mod_pos_bound. lia.
    + apply (Z.mod_pos_bound operand 65536). lia.
Qed.

Lemma assemble_plain op :
  In op plain ->
  assemble [(op, [])] = Ok [op] /\ Forall encodable [(op, [])].
Proof.
  intros Hop.
  assert (Hdef : exists def, assoc definitions op = Some def
                             /\ OperandWidths def = []).
  { simpl in Hop.
    repeat (destruct Hop as [<-|Hop]; [eexists; split; reflexivity|]).
    destruct Hop. }
  destruct Hdef as (def & Hdef & Hw). split.
  - unfold assemble. cbn [map concatenateInstructions fst snd].
    now rewrite (Make_plain _ _ Hdef Hw).
  - repeat constructor. exists def. cbn [fst snd]. unfold Lookup.
    rewrite Hdef, Hw. split; [reflexivity|constructor].
Qed.

(** The bytes of a tree of code are instructions that [Make] builds. *)
Lemma flat_assemble t :
  wf t ->
  forall pos,
    exists instructions,
      assemble instructions = Ok (flat pos t) /\ Forall encodable instructions.
Proof.
  induction t as [op|op operand|elements IH n|a IHa b IHb| |consequence IHc alt IHa];
    cbn [wf flat]; intros Hwf pos.
  - exists [(op, [])]. now apply assemble_plain.
  - exists [(op, [operand mod 65536])].
    simpl in Hwf.
    destruct Hwf as [<-|[<-|[<-|[]]]];
      eapply assemble_wide; reflexivity.
  - destruct Hwf as (Hwf & _).
    destruct (IH Hwf pos) as (block & His & Hall).
    destruct (assemble_wide OpArray _ n eq_refl eq_refl) as [Harr Hall'].
    exists (block ++ [(OpArray, [n mod 65536])]).
    split; [now apply assemble_app|now apply Forall_app].
  - destruct Hwf as [Hwfa Hwfb].
    destruct (IHa Hwfa pos) as (isa & Hisa & Halla).
    destruct (IHb Hwfb (pos + size a)) as (isb & Hisb & Hallb).
    exists (isa ++ isb).
    split; [now apply assemble_app|now apply Forall_app].
  - exists []. split; [reflexivity|constructor].
  - destruct Hwf as [Hwfc Hwfa].
    destruct (IHc Hwfc (pos + 3)) as (isc & Hisc & Hallc).
    destruct (IHa Hwfa (pos + 3 + size consequence + 3)) as (isa & Hisa & Halla).
    destruct (assemble_wide OpJumpNotTruthy _ (pos + 3 + size consequence + 3)
                eq_refl eq_refl) as [Hjnt Hall1].
    destruct (assemble_wide OpJump _ (pos + 3 + size consequence + 3 + size alt)
                eq_refl eq_refl) as [Hjmp Hall2].
    eexists (_ ++ isc ++ _ ++ isa).
    split.
    + apply assemble_app; [exact Hjnt|].
      apply assemble_app; [exact Hisc|].
      apply assemble_app; [exact Hjmp|exact Hisa].
    + repeat (apply Forall_app; split); assumption.
Qed.

(** X7. The disassembler ends on compiled code: for every program that
    [Compile] accepts, [Instructions.String] on its instructions returns the
    lines of a sequence of instructions that [Make] builds, one line for
    each, after as many iterations. *)
Theorem String_terminates_on_compiled_code program c :
  compiler.Compile (ast.NProgram program) compiler.New = Ok (None, c) ->
  exists instructions,
    assemble instructions = Ok (compiler.instructions c) /\
    String_ (length instructions) (compiler.instructions c)
    = Some (Ok (disassembly 0 instructions)).
Proof.
  cbn [compiler.Compile]. intros Hcompile.
  apply CompileProgram_code in Hcompile.
  destruct Hcompile as [(t & Hwf & _ & Hins) _].
  change (compiler.instructions compiler.New) with (@nil Z) in Hins.
  cbn [app] in Hins. change (len []) with 0 in Hins.
  destruct (flat_assemble t Hwf 0) as (block & His & Hall).
  exists block. rewrite Hins. split; [exact His|].
  exact (String_loop_assemble block Hall (flat 0 t) [] "" His).
Qed.

Lemma String_terminates_on_compiled_code_witness :
  exists c instructions,
    compiler.Compile (ast.NProgram scenario.less_than_program) compiler.New
    = Ok (None, c) /\
    assemble instructions = Ok (compiler.instructions c) /\
    String_ (length instructions) (compiler.instructions c)
    = Some (Ok (disassembly 0 instructions)).
Proof.
  eexists.
  assert (H : compiler.Compile (ast.NProgram scenario.less_than_program)
                compiler.New = Ok (None, _)) by (vm_compute; reflexivity).
  destruct (String_terminates_on_compiled_code _ _ H) as (block & His & Hs).
  exists block. split; [exact H|]. split; [exact His|exact Hs].
Defined.

End Disassembly.

(** ** The compiler: peephole edit and back-patching *)

Section CompilerPrimitives.

Import structured.

(** X8. The peephole edit undoes the last [OpPop]: after [emit(OpPop)] the
    last instruction is a pop, and [removeLastPop] gives back the
    instructions and the last-instruction record there were before it. The
    record of the previous instruction is not given back: it is left equal
    to the last one. *)
Theorem emit_OpPop_removeLastPop c :
  exists pos c1 c2,
    compiler.emit code.OpPop [] c = Ok (pos, c1) /\
    pos = len (compiler.instructions c) /\
    compiler.lastInstructionIsPop c1 = true /\
    compiler.removeLastPop c1 = Ok (tt, c2) /\
    compiler.instructions c2 = compiler.instructions c /\
    compiler.constants c2 = compiler.constants c /\
    compiler.lastInstruction c2 = compiler.lastInstruction c /\
    compiler.previousInstruction c2 = compiler.lastInstruction c.
Proof.
  eexists _, _, _. split; [apply emit_plain; simpl; auto|].
  split; [reflexivity|]. split; [reflexivity|].
  unfold compiler.removeLastPop, emitted.
  cbn [compiler.instructions compiler.lastInstruction compiler.Position
         compiler.previousInstruction compiler.constants].
  rewrite slice_to_app. unfold mbind, outcome_bind.
  split; [reflexivity|]. repeat split.
Qed.

Lemma wide_instruction_bytes op operand :
  wide_instruction op operand
  = [op; (operand mod 65536) / 256; (operand mod 65536) mod 256].
Proof.
  unfold wide_instruction, uint16.
  change 65535 with (Z.ones 16). change 255 with (Z.ones 8).
  rewrite !Z.land_ones, Z.shiftr_div_pow2 by lia.
  change (2 ^ 16) with 65536. change (2 ^ 8) with 256.
  f_equal. f_equal. apply Z.mod_small.
  pose proof (Z.mod_pos_bound operand 65536 ltac:(lia)).
  split; [apply Z.div_pos; lia|apply Z.div_lt_upper_bound; lia].
Qed.

(** X9. Back-patching: on an instruction with a 2-byte operand at offset
    [opPos], [changeOperand] writes the new operand, modulo 2^16 and high
    byte first, over the old one. Every other byte, the length of the
    instructions, the constants and the records of the last instructions
    stay as they are. *)
Theorem changeOperand_patches op def operand c
    (before : list byte) (old1 old2 : byte) (after : list byte) :
  code.Lookup op = inl def ->
  code.OperandWidths def = [2] ->
  compiler.instructions c = before ++ [op; old1; old2] ++ after ->
  exists c',
    compiler.changeOperand (len before) operand c = Ok (tt, c') /\
    compiler.instructions c'
    = before ++ [op; (operand mod 65536) / 256; (operand mod 65536) mod 256]
      ++ after /\
    len (compiler.instructions c') = len (compiler.instructions c) /\
    compiler.constants c' = compiler.constants c /\
    compiler.lastInstruction c' = compiler.lastInstruction c /\
    compiler.previousInstruction c' = compiler.previousInstruction c /\
    compiler.symbolTable c' = compiler.symbolTable c.
Proof.
  unfold code.Lookup.
  destruct (code.assoc code.definitions op) as [d|] eqn:Hdef; [|discriminate].
  intros [= ->] Hw Hins.
  eexists. split.
  - unfold compiler.changeOperand. rewrite bind_get. rewrite Hins.
    cbn [app]. rewrite index_app. unfold lift, mbind, M_bind.
    rewrite (Make_wide _ _ _ Hdef Hw).
    unfold compiler.replaceInstruction, mbind, outcome_bind.
    rewrite Hins.
    rewrite (replaceInstruction_loop_app
               [op; Z.land (Z.shiftr (uint16 operand) 8) 255;
                Z.land (uint16 operand) 255]
               [op; old1; old2] before after (len before) 0)
      by (reflexivity || lia).
    reflexivity.
  - cbn [compiler.instructions compiler.constants compiler.lastInstruction
           compiler.previousInstruction compiler.symbolTable].
    fold (wide_instruction op operand). rewrite wide_instruction_bytes.
    split; [reflexivity|]. split; [|repeat split].
    rewrite Hins, !len_app. reflexivity.
Qed.

Lemma changeOperand_patches_witness :
  exists c',
    compiler.changeOperand 1 65546
      (compiler.mkCompiler [code.OpTrue; code.OpJump; 39; 15; code.OpNull] []
         (compiler.mkEmitted 0 0) (compiler.mkEmitted 0 0)
         compiler.NewSymbolTable 3)
    = Ok (tt, c') /\
    compiler.instructions c' = [code.OpTrue; code.OpJump; 0; 10; code.OpNull].
Proof.
  destruct (changeOperand_patches code.OpJump (code.mkDefinition "OpJump" [2])
              65546
              (compiler.mkCompiler [code.OpTrue; code.OpJump; 39; 15; code.OpNull]
                 [] (compiler.mkEmitted 0 0) (compiler.mkEmitted 0 0)
                 compiler.NewSymbolTable 3)
              [code.OpTrue] 39 15 [code.OpNull] eq_refl eq_refl eq_refl)
    as (c' & Hc & Hins & _).
  exists c'. split; [exact Hc|exact Hins].
Defined.

(** X10. [changeOperand] panics when its offset is outside the instructions,
    and when the byte at the offset is an opcode that takes no operand,
    which [Make] cannot encode with one. *)
Theorem changeOperand_panics opPos operand c :
  (~ 0 <= opPos < len (compiler.instructions c) ->
   compiler.changeOperand opPos operand c = Panic) /\
  (forall op def,
     index (compiler.instructions c) opPos = Ok op ->
     code.Lookup op = inl def ->
     code.OperandWidths def = [] ->
     compiler.changeOperand opPos operand c = Panic).
Proof.
  split.
  - intros Hout. unfold compiler.changeOperand. rewrite bind_get.
    unfold index.
    destruct ((0 <=? opPos)
              && (opPos <? Z.of_nat (length (compiler.instructions c))))
      eqn:Hin; [|reflexivity].
    apply andb_true_iff in Hin. destruct Hin as [H0 H1].
    apply Z.leb_le in H0. apply Z.ltb_lt in H1. unfold len in Hout. lia.
  - intros op def Hop. unfold code.Lookup.
    destruct (code.assoc code.definitions op) as [d|] eqn:Hdef; [|discriminate].
    intros [= ->] Hw.
    unfold compiler.changeOperand. rewrite bind_get, Hop.
    unfold lift, mbind, M_bind, code.Make. now rewrite Hdef, Hw.
Qed.

Lemma changeOperand_panics_witness :
  compiler.changeOperand 1 7
    (compiler.mkCompiler [code.OpTrue] [] (compiler.mkEmitted 0 0)
       (compiler.mkEmitted 0 0) compiler.NewSymbolTable 3)
  = Panic /\
  compiler.changeOperand 0 7
    (compiler.mkCompiler [code.OpTrue] [] (compiler.mkEmitted 0 0)
       (compiler.mkEmitted 0 0) compiler.NewSymbolTable 3)
  = Panic.
Proof.
  split.
  - apply (proj1 (changeOperand_panics 1 7 _)). unfold len. simpl. lia.
  - apply (proj2 (changeOperand_panics 0 7 _) code.OpTrue
             (code.mkDefinition "OpTrue" [])); reflexivity.
Defined.

End CompilerPrimitives.

(** ** The compiler returns, and only appends *)

Section CompilerTotal.

Import structured growth.

Lemma extends_refl c : extends c c.
Proof. split; exists []; now rewrite app_nil_r. Qed.

Lemma extends_trans c1 c2 c3 : extends c1 c2 -> extends c2 c3 -> extends c1 c3.
Proof.
  intros [[a1 H1] [o1 G1]] [[a2 H2] [o2 G2]]. split.
  - exists (a1 ++ a2). now rewrite H2, H1, app_assoc.
  - exists (o1 ++ o2). now rewrite G2, G1, app_assoc.
Qed.

Lemma extends_emitted c ins added last previous :
  ins = compiler.instructions c ++ added ->
  extends c (emitted c ins last previous).
Proof.
  intros ->. split; [now exists added|].
  exists []. unfold emitted. cbn [compiler.constants]. now rewrite app_nil_r.
Qed.

Lemma appends_Errorf msg : appends (compiler.Errorf msg).
Proof. intros c. exists (Some msg), c. split; [reflexivity|apply extends_refl]. Qed.

Lemma appends_nil : appends compiler.nil_.
Proof. intros c. exists None, c. split; [reflexivity|apply extends_refl]. Qed.

Lemma appends_emit_plain op :
  In op plain -> appends (compiler.emit op [];; compiler.nil_).
Proof.
  intros Hop c. eexists _, _. split; [now apply emit_plain_nil|].
  now apply (extends_emitted c _ [op]).
Qed.

Lemma appends_emit_wide op operand :
  In op (code.OpArray :: code.OpJump :: code.OpJumpNotTruthy :: indexed) ->
  appends (compiler.emit op [operand];; compiler.nil_).
Proof.
  intros Hop c. eexists _, _. split; [now apply emit_wide_nil|].
  now apply (extends_emitted c _ (wide_instruction op operand)).
Qed.

Lemma appends_check f g : appends f -> appends g -> appends (check f g).
Proof.
  intros Hf Hg c. unfold check.
  destruct (Hf c) as (err & c1 & -> & H1). destruct err as [e|].
  - now exists (Some e), c1.
  - destruct (Hg c1) as (err & c2 & -> & H2). exists err, c2.
    split; [reflexivity|]. eapply extends_trans; eassumption.
Qed.

Lemma appends_constant mk :
  appends (o ← compiler.alloc mk;
           i ← compiler.addConstant o;
           compiler.emit code.OpConstant [i];; compiler.nil_).
Proof.
  intros c. unfold compiler.alloc, compiler.addConstant.
  unfold mbind at 1 2, M_bind at 1 2.
  cbn [compiler.constants compiler.instructions].
  eexists _, _. split; [apply emit_wide_nil; simpl; auto|].
  split.
  - eexists. unfold emitted. cbn [compiler.instructions]. reflexivity.
  - eexists. unfold emitted. cbn [compiler.constants]. reflexivity.
Qed.

Lemma appends_Identifier v : appends (compiler.CompileExpression (ast.Identifier v)).
Proof.
  intros c. cbn [compiler.CompileExpression]. rewrite bind_get.
  destruct (compiler.Resolve v (compiler.symbolTable c)) as [symbol|].
  - apply appends_emit_wide. simpl; auto 10.
  - apply appends_Errorf.
Qed.

Lemma appends_Boolean v : appends (compiler.CompileExpression (ast.Boolean v)).
Proof.
  cbn [compiler.CompileExpression].
  destruct v; apply appends_emit_plain; simpl; auto.
Qed.

Lemma appends_Prefix op r :
  appends (compiler.CompileExpression r) ->
  appends (compiler.CompileExpression (ast.PrefixExpression op r)).
Proof.
  intros IH. cbn [compiler.CompileExpression]. apply appends_check; [exact IH|].
  repeat match goal with
         | |- appends (if ?b then _ else _) => destruct b
         end;
    first [apply appends_Errorf|apply appends_emit_plain; simpl; auto 20].
Qed.

Lemma appends_Infix l op r :
  appends (compiler.CompileExpression l) ->
  appends (compiler.CompileExpression r) ->
  appends (compiler.CompileExpression (ast.InfixExpression l op r)).
Proof.
  intros IHl IHr. cbn [compiler.CompileExpression].
  apply appends_check; [exact IHl|]. apply appends_check; [exact IHr|].
  repeat match goal with
         | |- appends (if ?b then _ else _) => destruct b
         end;
    first [apply appends_Errorf|apply appends_emit_plain; simpl; auto 20].
Qed.

Lemma appends_CompileElements es :
  Forall (fun e => appends (compiler.CompileExpression e)) es ->
  appends (CompileElements es).
Proof.
  induction 1 as [|e es IHe _ IH]; cbn [CompileElements].
  - apply appends_nil.
  - now apply appends_check.
Qed.

Lemma appends_Array es :
  Forall (fun e => appends (compiler.CompileExpression e)) es ->
  appends (compiler.CompileExpression (ast.ArrayLiteral es)).
Proof.
  intros IH c. rewrite CompileExpression_ArrayLiteral_eq. revert c.
  apply appends_check; [now apply appends_CompileElements|].
  apply appends_emit_wide. simpl; auto.
Qed.

Lemma appends_ExpressionStatement e :
  appends (compiler.CompileExpression e) ->
  appends (compiler.CompileStatement (ast.ExpressionStatement e)).
Proof.
  intros IH. cbn [compiler.CompileStatement]. apply appends_check; [exact IH|].
  apply appends_emit_plain. simpl; auto.
Qed.

Lemma appends_Let n v :
  appends (compiler.CompileExpression v) ->
  appends (compiler.CompileStatement (ast.LetStatement n v)).
Proof.
  intros IH. cbn [compiler.CompileStatement]. apply appends_check; [exact IH|].
  intros c. unfold compiler.define. unfold mbind at 1, M_bind at 1.
  destruct (compiler.Define n (compiler.symbolTable c)) as [symbol table].
  eexists _, _. split; [apply emit_wide_nil; simpl; auto 10|].
  split; eexists; unfold emitted;
    cbn [compiler.instructions compiler.constants]; [reflexivity|].
  now rewrite app_nil_r.
Qed.

Lemma appends_CompileStatements ss :
  Forall (fun s => appends (compiler.CompileStatement s)) ss ->
  appends (compiler.CompileStatements ss).
Proof.
  induction 1 as [|s ss IHs _ IH]; cbn [compiler.CompileStatements].
  - apply appends_nil.
  - now apply appends_check.
Qed.

Lemma appends_Block ss :
  Forall (fun s => appends (compiler.CompileStatement s)) ss ->
  appends (compiler.CompileBlock (ast.Block ss)).
Proof.
  intros IH c. rewrite CompileBlock_eq. revert c.
  now apply appends_CompileStatements.
Qed.


Lemma CompileBlock_code b c c' :
  compiler.CompileBlock b c = Ok (None, c') -> statement_code c c'.
Proof. destruct b as [ss]. rewrite CompileBlock_eq. apply CompileProgram_code. Qed.

Lemma dropLastPop_constants c c' :
  compiler.dropLastPop c = Ok (tt, c') ->
  compiler.constants c' = compiler.constants c.
Proof.
  unfold compiler.dropLastPop. rewrite bind_get.
  destruct (compiler.lastInstructionIsPop c); [|now intros [= <-]].
  unfold compiler.removeLastPop. unfold mbind, outcome_bind.
  destruct (slice_to _ _); [|discriminate]. now intros [= <-].
Qed.

(** A branch of a conditional: its block, less the [OpPop] it ends with. *)
Lemma appends_branch a c :
  appends (compiler.CompileBlock a) ->
  compiler.OpCode (compiler.lastInstruction c) <> code.OpPop ->
  exists err c',
    (check! compiler.CompileBlock a;;; compiler.dropLastPop;; compiler.nil_) c
    = Ok (err, c') /\
    extends c c'.
Proof.
  intros IH Hlast. unfold check.
  destruct (IH c) as (err & c1 & Ha & Hext). rewrite Ha.
  destruct err as [e|];
    [exists (Some e), c1; split; [reflexivity|assumption]|].
  apply CompileBlock_code in Ha.
  destruct (dropLastPop_branch c c1 Ha Hlast) as (c2 & Hdrop & (t & _ & _ & Hins) & _).
  rewrite (bind_Ok _ _ _ _ _ Hdrop). exists None, c2. split; [reflexivity|].
  split; [eexists; exact Hins|].
  rewrite (dropLastPop_constants _ _ Hdrop). apply Hext.
Qed.

Lemma appends_If cond consequence alt :
  appends (compiler.CompileExpression cond) ->
  appends (compiler.CompileBlock consequence) ->
  match alt with
  | Some a => appends (compiler.CompileBlock a)
  | None => True
  end ->
  appends (compiler.CompileExpression (ast.IfExpression cond consequence alt)).
Proof.
  intros IHcond IHcons IHalt c. cbn [compiler.CompileExpression].
  unfold check at 1.
  destruct (IHcond c) as (err & c1 & Hcond & Hext1). rewrite Hcond.
  destruct err as [e|];
    [exists (Some e), c1; split; [reflexivity|assumption]|].
  (* OpJumpNotTruthy *)
  rewrite (bind_Ok _ _ _ _ _ (emit_wide code.OpJumpNotTruthy 9999 c1
                                ltac:(simpl; auto))).
  set (c2 := emitted c1 _ _ _).
  assert (Hins2 : compiler.instructions c2
                  = compiler.instructions c1
                    ++ wide_instruction code.OpJumpNotTruthy 9999) by reflexivity.
  assert (Hcon2 : compiler.constants c2 = compiler.constants c1) by reflexivity.
  assert (Hlast2 : compiler.OpCode (compiler.lastInstruction c2) <> code.OpPop)
    by discriminate.
  clearbody c2.
  assert (Hext2 : extends c1 c2).
  { split; [eexists; exact Hins2|]. exists []. now rewrite app_nil_r. }
  unfold check at 1.
  destruct (IHcons c2) as (err & c3 & Hcons & Hext3). rewrite Hcons.
  destruct err as [e|].
  { exists (Some e), c3. split; [reflexivity|].
    eapply extends_trans; [exact Hext1|]. eapply extends_trans; eassumption. }
  apply CompileBlock_code in Hcons.
  destruct (dropLastPop_branch c2 c3 Hcons Hlast2)
    as (c4 & Hdrop & (tcons & Hwfcons & Hdcons & Hins4) & Hlast4).
  rewrite (bind_Ok _ _ _ _ _ Hdrop).
  assert (Hcon4 : exists objects,
             compiler.constants c4 = compiler.constants c1 ++ objects).
  { rewrite (dropLastPop_constants _ _ Hdrop). destruct Hext3 as [_ [o Ho]].
    exists o. now rewrite Ho, Hcon2. }
  (* OpJump *)
  rewrite (bind_Ok _ _ _ _ _ (emit_wide code.OpJump 9999 c4 ltac:(simpl; auto))).
  set (c5 := emitted c4 _ _ _).
  rewrite bind_get.
  assert (Hins5 : compiler.instructions c5
                  = compiler.instructions c1
                    ++ [code.OpJumpNotTruthy;
                        Z.land (Z.shiftr (uint16 9999) 8) 255;
                        Z.land (uint16 9999) 255]
                    ++ (flat (len (compiler.instructions c1) + 3) tcons
                        ++ wide_instruction code.OpJump 9999)).
  { subst c5. unfold emitted. cbn [compiler.instructions].
    rewrite Hins4, Hins2, len_app. change (len (wide_instruction _ _)) with 3.
    now rewrite <- !app_assoc. }
  assert (Hcon5 : compiler.constants c5 = compiler.constants c4) by reflexivity.
  assert (Hlast5 : compiler.OpCode (compiler.lastInstruction c5) <> code.OpPop)
    by discriminate.
  assert (Hlen4 : len (compiler.instructions c4)
                  = len (compiler.instructions c1) + 3 + size tcons).
  { rewrite Hins4, len_app, len_flat, Hins2, len_app.
    change (len (wide_instruction _ _)) with 3. lia. }
  clearbody c5.
  rewrite (bind_Ok _ _ _ _ _
             (changeOperand_jump code.OpJumpNotTruthy _ c5 _ _ _ _
                ltac:(simpl; auto) Hins5)).
  set (c6 := emitted c5 _ _ _).
  assert (Hins6 : compiler.instructions c6
                  = (compiler.instructions c1
                     ++ wide_instruction code.OpJumpNotTruthy
                          (len (compiler.instructions c5))
                     ++ flat (len (compiler.instructions c1) + 3) tcons)
                    ++ wide_instruction code.OpJump 9999).
  { subst c6. unfold emitted. cbn [compiler.instructions].
    now rewrite <- !app_assoc. }
  assert (Hcon6 : compiler.constants c6 = compiler.constants c5) by reflexivity.
  assert (Hlast6 : compiler.OpCode (compiler.lastInstruction c6) <> code.OpPop)
    by exact Hlast5.
  clearbody c6.
  assert (Halt : exists err c7,
             ((match alt with
               | Some a =>
                 check! compiler.CompileBlock a;;;
                 compiler.dropLastPop;; compiler.nil_
               | None => compiler.emit code.OpNull [];; compiler.nil_
               end) c6 = Ok (err, c7)) /\
             extends c6 c7).
  { destruct alt as [a|].
    - now apply appends_branch.
    - apply appends_emit_plain. simpl; auto. }
  destruct Halt as (err & c7 & Halt & [[added Hins7] [objects Hcon7]]).
  unfold check at 1. rewrite Halt.
  assert (Hext : extends c1 c7).
  { split.
    - eexists. rewrite Hins7, Hins6. rewrite <- !app_assoc. reflexivity.
    - destruct Hcon4 as [o Ho]. exists (o ++ objects).
      now rewrite Hcon7, Hcon6, Hcon5, Ho, app_assoc. }
  destruct err as [e|].
  { exists (Some e), c7. split; [reflexivity|].
    eapply extends_trans; eassumption. }
  rewrite bind_get.
  assert (Hins7' : compiler.instructions c7
                   = (compiler.instructions c1
                      ++ wide_instruction code.OpJumpNotTruthy
                           (len (compiler.instructions c5))
                      ++ flat (len (compiler.instructions c1) + 3) tcons)
                     ++ [code.OpJump;
                         Z.land (Z.shiftr (uint16 9999) 8) 255;
                         Z.land (uint16 9999) 255]
                     ++ added).
  { rewrite Hins7, Hins6. now rewrite <- !app_assoc. }
  assert (Hpos : len (compiler.instructions c4)
                 = len (compiler.instructions c1
                        ++ wide_instruction code.OpJumpNotTruthy
                             (len (compiler.instructions c5))
                        ++ flat (len (compiler.instructions c1) + 3) tcons)).
  { rewrite Hlen4, !len_app, len_flat.
    change (len (wide_instruction _ _)) with 3. lia. }
  rewrite Hpos.
  rewrite (bind_Ok _ _ _ _ _
             (changeOperand_jump code.OpJump _ c7 _ _ _ _
                ltac:(simpl; auto) Hins7')).
  eexists None, _. split; [reflexivity|].
  eapply extends_trans; [exact Hext1|].
  split.
  - unfold emitted. cbn [compiler.instructions]. eexists.
    rewrite <- !app_assoc. reflexivity.
  - unfold emitted. cbn [compiler.constants]. apply Hext.
Qed.

(** Whatever the node and the state of the compiler, [Compile] returns:
    no index or slice expression of the compiler is out of range. *)
Lemma appends_CompileExpression e : appends (compiler.CompileExpression e).
Proof.
  apply (Expression_induction
           (fun e => appends (compiler.CompileExpression e))
           (fun s => appends (compiler.CompileStatement s))
           (fun b => appends (compiler.CompileBlock b)));
    first
      [ exact appends_Identifier
      | exact (fun v => appends_constant _)
      | exact appends_Boolean
      | exact appends_Prefix
      | exact appends_Infix
      | exact appends_If
      | exact appends_Array
      | exact appends_Let
      | exact appends_ExpressionStatement
      | exact appends_Block
      | (intros; apply appends_Errorf)
      | (intros b IH; exact IH) ].
Qed.

Lemma appends_CompileStatement s : appends (compiler.CompileStatement s).
Proof.
  apply (Statement_induction
           (fun e => appends (compiler.CompileExpression e))
           (fun s => appends (compiler.CompileStatement s))
           (fun b => appends (compiler.CompileBlock b)));
    first
      [ exact appends_Identifier
      | exact (fun v => appends_constant _)
      | exact appends_Boolean
      | exact appends_Prefix
      | exact appends_Infix
      | exact appends_If
      | exact appends_Array
      | exact appends_Let
      | exact appends_ExpressionStatement
      | exact appends_Block
      | (intros; apply appends_Errorf)
      | (intros b IH; exact IH) ].
Qed.

Lemma appends_Compile node : appends (compiler.Compile node).
Proof.
  destruct node as [p|s|[ss]|e]; cbn [compiler.Compile].
  - apply appends_CompileStatements, Forall_forall.
    intros s _. apply appends_CompileStatement.
  - apply appends_CompileStatement.
  - apply appends_Block, Forall_forall. intros s _. apply appends_CompileStatement.
  - apply appends_CompileExpression.
Qed.

(** X11. [Compile] never panics: for every node and from every state of the
    compiler it returns, with an error or without. *)
Theorem Compile_returns node c :
  exists err c', compiler.Compile node c = Ok (err, c').
Proof. destruct (appends_Compile node c) as (err & c' & H & _). eauto. Qed.

(** X12. [Compile] only adds to the compiler: when it returns, with an error
    or without, the instructions and the constants it was given are still
    there, followed by what it added. *)
Theorem Compile_extends node c err c' :
  compiler.Compile node c = Ok (err, c') -> extends c c'.
Proof.
  intros H. destruct (appends_Compile node c) as (err' & c'' & H' & Hext).
  rewrite H in H'. now injection H' as <- <-.
Qed.

Lemma Compile_extends_witness :
  exists c',
    compiler.Compile
      (ast.NExpression
         (ast.InfixExpression (ast.IntegerLiteral 1) "%" (ast.IntegerLiteral 2)))
      (compiler.NewWithState compiler.NewSymbolTable [object.Integer 3 0] 4)
    = Ok (Some "unknown operator %", c') /\
    extends
      (compiler.NewWithState compiler.NewSymbolTable [object.Integer 3 0] 4) c'.
Proof.
  eexists. split; [vm_compute; reflexivity|].
  match goal with
  | |- extends ?c ?c' =>
    apply (Compile_extends
             (ast.NExpression
                (ast.InfixExpression (ast.IntegerLiteral 1) "%"
                   (ast.IntegerLiteral 2)))
             c (Some "unknown operator %") c')
  end.
  vm_compute. reflexivity.
Defined.

(** X13. An operator the compiler does not know is reported after its
    operands are compiled: the error names the operator, and the
    instructions and constants of the operands stay in the compiler. *)
Theorem Compile_unknown_operator :
  (forall Left Operator Right c c1 c2,
     compiler.CompileExpression Left c = Ok (None, c1) ->
     compiler.CompileExpression Right c1 = Ok (None, c2) ->
     ~ In Operator ["+"; "-"; "*"; "/"; "=="; "!="; "<"; ">"] ->
     compiler.CompileExpression (ast.InfixExpression Left Operator Right) c
     = Ok (Some ("unknown operator " +:+ Operator), c2)) /\
  (forall Operator Right c c1,
     compiler.CompileExpression Right c = Ok (None, c1) ->
     ~ In Operator ["!"; "-"] ->
     compiler.CompileExpression (ast.PrefixExpression Operator Right) c
     = Ok (Some ("unknown prefix operator " +:+ Operator), c1)).
Proof.
  split.
  - intros Left Operator Right c c1 c2 HL HR Hop.
    cbn [compiler.CompileExpression]. unfold check. rewrite HL, HR.
    repeat match goal with
           | |- context [String.eqb Operator ?s] =>
             destruct (String.eqb_spec Operator s) as [->|_];
               [exfalso; apply Hop; simpl; tauto|]
           end.
    reflexivity.
  - intros Operator Right c c1 HR Hop.
    cbn [compiler.CompileExpression]. unfold check. rewrite HR.
    repeat match goal with
           | |- context [String.eqb Operator ?s] =>
             destruct (String.eqb_spec Operator s) as [->|_];
               [exfalso; apply Hop; simpl; tauto|]
           end.
    reflexivity.
Qed.

Lemma Compile_unknown_operator_witness :
  exists c2,
    compiler.CompileExpression
      (ast.InfixExpression (ast.IntegerLiteral 1) "%" (ast.IntegerLiteral 2))
      compiler.New
    = Ok (Some "unknown operator %", c2) /\
    compiler.instructions c2 = [1; 0; 0; 1; 0; 1].
Proof.
  eexists. split.
  - eapply (proj1 Compile_unknown_operator (ast.IntegerLiteral 1) "%"
              (ast.IntegerLiteral 2) compiler.New).
    + vm_compute. reflexivity.
    + vm_compute. reflexivity.
    + simpl. intuition discriminate.
  - reflexivity.
Defined.

End CompilerTotal.

(** ** The virtual machine: the stack *)

Section Stack.

Import machine.

Lemma index_Ok {A} (l : list A) i :
  0 <= i < len l -> exists a, index l i = Ok a /\ l !! Z.to_nat i = Some a.
Proof.
  intros Hi. unfold index, len in *.
  replace (0 <=? i) with true by (symmetry; apply Z.leb_le; lia).
  replace (i <? Z.of_nat (length l)) with true by (symmetry; apply Z.ltb_lt; lia).
  cbn [andb].
  destruct (l !! Z.to_nat i) as [a|] eqn:Hl; [now exists a|].
  apply lookup_ge_None in Hl. lia.
Qed.

Lemma index_insert {A} (l : list A) i j x :
  0 <= i < len l -> 0 <= j ->
  index (<[Z.to_nat i := x]> l) j = if i =? j then Ok x else index l j.
Proof.
  intros Hi Hj. unfold index, len in *. rewrite length_insert.
  destruct (Z.eqb_spec i j) as [<-|Hne].
  - replace (0 <=? i) with true by (symmetry; apply Z.leb_le; lia).
    replace (i <? Z.of_nat (length l)) with true
      by (symmetry; apply Z.ltb_lt; lia).
    cbn [andb]. now rewrite list_lookup_insert_eq by lia.
  - rewrite list_lookup_insert_ne by lia. reflexivity.
Qed.

(** X14. A value pushed is the value popped: [push] stores it in the slot at
    the stack pointer, [pop] returns it and leaves it in that slot, where
    [LastPoppedStackElement] reads it; no other slot changes. *)
Theorem push_pop m o :
  0 <= vm.sp m < vm.StackSize ->
  vm.sp m < len (vm.stack m) ->
  exists m1 m2,
    vm.push o m = Ok (None, m1) /\
    vm.pop m1 = Ok (o, m2) /\
    vm.sp m1 = vm.sp m + 1 /\
    vm.sp m2 = vm.sp m /\
    vm.LastPoppedStackElement m2 = Ok o /\
    forall i, i <> vm.sp m -> index (vm.stack m2) i = index (vm.stack m) i.
Proof.
  intros Hsp Hlen.
  set (stack1 := <[Z.to_nat (vm.sp m) := o]> (vm.stack m)).
  exists (vm.set_stack m stack1 (vm.sp m + 1)), (vm.set_stack m stack1 (vm.sp m)).
  assert (Hpush : vm.push o m = Ok (None, vm.set_stack m stack1 (vm.sp m + 1))).
  { unfold vm.push, store.
    replace (vm.sp m >=? vm.StackSize) with false by (symmetry; lia).
    replace (0 <=? vm.sp m) with true by (symmetry; apply Z.leb_le; lia).
    replace (vm.sp m <? Z.of_nat (length (vm.stack m))) with true
      by (symmetry; apply Z.ltb_lt; exact Hlen).
    reflexivity. }
  assert (Hslot : index stack1 (vm.sp m) = Ok o).
  { unfold stack1. rewrite index_insert by lia. now rewrite Z.eqb_refl. }
  split; [exact Hpush|]. split; [|split; [reflexivity|]].
  { unfold vm.pop. cbn [vm.stack vm.sp vm.set_stack].
    replace (vm.sp m + 1 - 1) with (vm.sp m) by lia.
    rewrite Hslot. reflexivity. }
  split; [reflexivity|]. split; [exact Hslot|].
  intros i Hi. cbn [vm.stack vm.set_stack]. unfold stack1, index.
  rewrite length_insert.
  destruct ((0 <=? i) && (i <? Z.of_nat (length (vm.stack m)))) eqn:Hin;
    [|reflexivity].
  apply andb_true_iff in Hin. destruct Hin as [H0 H1].
  apply Z.leb_le in H0. apply Z.ltb_lt in H1.
  now rewrite list_lookup_insert_ne by lia.
Qed.

Lemma push_pop_witness :
  exists m1 m2,
    vm.push (Some vm.True_) (vm.NewWithState (compiler.mkBytecode [] []) [] 3)
    = Ok (None, m1) /\
    vm.pop m1 = Ok (Some vm.True_, m2) /\
    vm.sp m2 = 0 /\
    vm.LastPoppedStackElement m2 = Ok (Some vm.True_).
Proof.
  destruct (push_pop (vm.NewWithState (compiler.mkBytecode [] []) [] 3)
              (Some vm.True_))
    as (m1 & m2 & H1 & H2 & _ & H3 & H4 & _).
  - unfold vm.StackSize. cbn. lia.
  - cbn. unfold len. rewrite length_replicate. unfold vm.StackSize. lia.
  - exists m1, m2. auto.
Defined.

(** X15. On a full stack an instruction that pushes makes [Run] return the
    error [stack overflow], the machine staying as it is. *)
Theorem Run_stack_overflow m ip op fuel :
  index (vm.instructions m) ip = Ok op ->
  In op [code.OpNull; code.OpTrue; code.OpFalse] ->
  vm.StackSize <= vm.sp m ->
  vm.Run_loop (S fuel) ip m = Some (Ok (Some "stack overflow", m)).
Proof.
  intros Hop Hin Hsp. pose proof (index_lt _ _ _ Hop) as Hip.
  rewrite Run_loop_step by lia.
  unfold vm.Run_body. rewrite bind_get. rewrite Hop.
  unfold lift, mbind at 1, M_bind at 1.
  assert (Hpush : forall o, vm.returning (vm.push o) ip m
                            = Ok (vm.Return "stack overflow", m)).
  { intros o. unfold vm.returning, vm.push. run_monad.
    now replace (vm.sp m >=? vm.StackSize) with true by (symmetry; lia). }
  destruct Hin as [<- | [<- | [<- | []]]]; cbn; now rewrite Hpush.
Qed.

Lemma Run_stack_overflow_witness :
  vm.Run_loop 1 0
    (vm.set_stack (vm.NewWithState (compiler.mkBytecode [code.OpTrue] []) [] 3)
       (replicate 2048 (Some vm.Null)) 2048)
  = Some (Ok (Some "stack overflow",
              vm.set_stack
                (vm.NewWithState (compiler.mkBytecode [code.OpTrue] []) [] 3)
                (replicate 2048 (Some vm.Null)) 2048)).
Proof.
  apply (Run_stack_overflow _ 0 code.OpTrue 0).
  - reflexivity.
  - simpl. auto.
  - unfold vm.StackSize. cbn. lia.
Defined.

End Stack.

(** ** The virtual machine: prefix operators *)

Section OperatorEdges.

Import machine.

Lemma Run_body_OpMinus m ip :
  index (vm.instructions m) ip = Ok code.OpMinus ->
  vm.Run_body ip m = vm.returning vm.executeMinusOperator ip m.
Proof.
  intros Hop. unfold vm.Run_body. rewrite bind_get, Hop. reflexivity.
Qed.

Lemma Run_body_OpBang m ip :
  index (vm.instructions m) ip = Ok code.OpBang ->
  vm.Run_body ip m = vm.returning vm.executeBangOperator ip m.
Proof.
  intros Hop. unfold vm.Run_body. rewrite bind_get, Hop. reflexivity.
Qed.

(** X16. The error of [OpMinus] does abort [Run]: on an operand that is no
    integer, [Run] returns [unsupported type for negation] with the type of
    the operand, which has been popped. *)
Theorem OpMinus_error_aborts_Run m ip o m1 fuel :
  index (vm.instructions m) ip = Ok code.OpMinus ->
  vm.pop m = Ok (Some o, m1) ->
  object.Type_ o <> object.INTEGER_OBJ ->
  vm.Run_loop (S fuel) ip m
  = Some (Ok (Some ("unsupported type for negation: " +:+ object.Type_ o), m1)).
Proof.
  intros Hop Hpop Htype. pose proof (index_lt _ _ _ Hop) as Hip.
  rewrite Run_loop_step by lia. rewrite (Run_body_OpMinus _ _ Hop).
  unfold vm.returning, vm.executeMinusOperator. run_monad. rewrite Hpop.
  unfold vm.typeOf. run_monad.
  destruct (String.eqb_spec (object.Type_ o) object.INTEGER_OBJ) as [Heq|_];
    [contradiction|].
  reflexivity.
Qed.

Lemma OpMinus_error_aborts_Run_witness :
  let m1 := vm.set_stack
              (vm.NewWithState (compiler.mkBytecode [code.OpMinus] []) [] 3)
              (<[0%nat := Some vm.True_]> (replicate 2048 None)) 0 in
  vm.Run_loop 1 0 (vm.set_stack m1 (vm.stack m1) 1)
  = Some (Ok (Some "unsupported type for negation: BOOLEAN", m1)).
Proof.
  intros m1.
  apply (OpMinus_error_aborts_Run (vm.set_stack m1 (vm.stack m1) 1) 0
           vm.True_ m1 0).
  - reflexivity.
  - reflexivity.
  - discriminate.
Defined.

(** X17. Negation wraps as [int64] does: the integer pushed for [-v] is [-v]
    unless [v] is the least [int64], which is its own negation. *)
Theorem OpMinus_negates m ip a v m1 :
  index (vm.instructions m) ip = Ok code.OpMinus ->
  vm.pop m = Ok (Some (object.Integer a v), m1) ->
  - 2 ^ 63 <= v < 2 ^ 63 ->
  vm.Run_body ip m
  = vm.returning
      (vm.push (Some (object.Integer (vm.heap m1)
                        (if v =? - 2 ^ 63 then v else - v))))
      ip
      (vm.mkVM (vm.constants m1) (vm.instructions m1) (vm.global m1)
         (vm.stack m1) (vm.sp m1) (vm.heap m1 + 1)%N).
Proof.
  intros Hop Hpop Hv. rewrite (Run_body_OpMinus _ _ Hop).
  unfold vm.returning, vm.executeMinusOperator. run_monad. rewrite Hpop.
  unfold vm.typeOf. run_monad. cbn [object.Type_].
  change (String.eqb object.INTEGER_OBJ object.INTEGER_OBJ) with true.
  cbn [negb]. unfold vm.alloc.
  replace (wrap64 (- v)) with (if v =? - 2 ^ 63 then v else - v); [reflexivity|].
  unfold wrap64. destruct (Z.eqb_spec v (- 2 ^ 63)) as [->|Hne].
  - reflexivity.
  - change (2 ^ 63) with 9223372036854775808 in *.
    rewrite Z.mod_small by lia. lia.
Qed.

Lemma OpMinus_negates_witness :
  let m1 := vm.set_stack
              (vm.NewWithState (compiler.mkBytecode [code.OpMinus] []) [] 4)
              (<[0%nat := Some (object.Integer 3 (- 2 ^ 63))]>
                 (replicate 2048 None)) 0 in
  vm.Run_body 0 (vm.set_stack m1 (vm.stack m1) 1)
  = vm.returning
      (vm.push (Some (object.Integer 4 (- 2 ^ 63)))) 0
      (vm.mkVM (vm.constants m1) (vm.instructions m1) (vm.global m1)
         (vm.stack m1) (vm.sp m1) 5).
Proof.
  intros m1.
  apply (OpMinus_negates (vm.set_stack m1 (vm.stack m1) 1) 0 3 (- 2 ^ 63) m1).
  - reflexivity.
  - reflexivity.
  - lia.
Defined.

(** X18. [OpBang] is the negation of truthiness on the values the machine
    holds: it pushes [True] for [False] and for [Null], and [False] for
    every other value, the integer 0 and a missing value included. *)
Theorem OpBang_negates_truthiness m ip o m1 :
  index (vm.instructions m) ip = Ok code.OpBang ->
  vm.pop m = Ok (o, m1) ->
  canonical o ->
  vm.Run_body ip m
  = vm.returning
      (vm.push (vm.nativeBoolToBooleanObject (negb (vm.isTruthy o)))) ip m1.
Proof.
  intros Hop Hpop Hcan. rewrite (Run_body_OpBang _ _ Hop).
  unfold vm.returning, vm.executeBangOperator. run_monad. rewrite Hpop.
  destruct o as [[a v|a v|a v|a|a es|a ps]|]; cbn in Hcan |- *;
    try (destruct v); subst; try reflexivity;
    repeat match goal with
           | |- context [(?a =? ?k)%N] =>
             replace (a =? k)%N with false by (symmetry; apply N.eqb_neq; lia)
           end; reflexivity.
Qed.

Lemma OpBang_negates_truthiness_witness :
  let m1 := vm.set_stack
              (vm.NewWithState (compiler.mkBytecode [code.OpBang] []) [] 4)
              (<[0%nat := Some (object.Integer 3 0)]> (replicate 2048 None)) 0 in
  vm.Run_body 0 (vm.set_stack m1 (vm.stack m1) 1)
  = vm.returning (vm.push (Some vm.False_)) 0 m1.
Proof.
  intros m1.
  apply (OpBang_negates_truthiness (vm.set_stack m1 (vm.stack m1) 1) 0
           (Some (object.Integer 3 0)) m1).
  - reflexivity.
  - reflexivity.
  - cbn. lia.
Defined.

End OperatorEdges.

(** ** The virtual machine: binary operators *)

Section BinaryOperators.

Import machine.

Lemma Run_body_comparison m ip op :
  index (vm.instructions m) ip = Ok op ->
  op = code.OpEqual \/ op = code.OpNotEqual \/ op = code.OpLessThan
  \/ op = code.OpGreaterThan ->
  vm.Run_body ip m
  = match vm.executeComparison op m with
    | Ok (_, m') => Ok (vm.Next ip, m')
    | Panic => Panic
    end.
Proof.
  intros Hop Hcase. unfold vm.Run_body. run_monad. rewrite Hop.
  destruct Hcase as [-> | [-> | [-> | ->]]]; reflexivity.
Qed.

(** X19. [<] and [>] on operands that are not two integers:
    [executeComparison] returns the error [unknown operator], but the loop
    of [Run] drops it and goes on with the two operands popped and nothing
    pushed. *)
Theorem Run_discards_comparison_error m ip op l r m1 m2 :
  index (vm.instructions m) ip = Ok op ->
  op = code.OpLessThan \/ op = code.OpGreaterThan ->
  vm.pop m = Ok (Some r, m1) ->
  vm.pop m1 = Ok (Some l, m2) ->
  (object.Type_ l =? object.INTEGER_OBJ)%string
    && (object.Type_ r =? object.INTEGER_OBJ)%string = false ->
  vm.executeComparison op m
  = Ok (Some ("unknown operator: " +:+ itoa op +:+ " (" +:+ object.Type_ l
              +:+ " " +:+ object.Type_ r +:+ ")"), m2) /\
  vm.Run_body ip m = Ok (vm.Next ip, m2) /\
  vm.sp m2 = vm.sp m - 2.
Proof.
  intros Hop Hcase Hr Hl Hint.
  assert (Hcmp : vm.executeComparison op m
                 = Ok (Some ("unknown operator: " +:+ itoa op +:+ " (" +:+
                             object.Type_ l +:+ " " +:+ object.Type_ r +:+ ")"),
                       m2)).
  { unfold vm.executeComparison. run_monad. rewrite Hr, Hl.
    unfold vm.typeOf. run_monad. rewrite Hint.
    destruct Hcase as [-> | ->]; reflexivity. }
  split; [exact Hcmp|]. split.
  - rewrite (Run_body_comparison m ip op Hop) by tauto. now rewrite Hcmp.
  - apply pop_sp in Hr. apply pop_sp in Hl. lia.
Qed.

Lemma Run_discards_comparison_error_witness :
  let m2 := vm.set_stack
              (vm.NewWithState (compiler.mkBytecode [code.OpLessThan] []) [] 3)
              (<[0%nat := Some vm.True_]>
                 (<[1%nat := Some vm.False_]> (replicate 2048 None))) 0 in
  let m := vm.set_stack m2 (vm.stack m2) 2 in
  vm.executeComparison code.OpLessThan m
  = Ok (Some "unknown operator: 15 (BOOLEAN BOOLEAN)", m2) /\
  vm.Run_body 0 m = Ok (vm.Next 0, m2) /\
  vm.sp m2 = vm.sp m - 2.
Proof.
  intros m2 m.
  exact (Run_discards_comparison_error m 0 code.OpLessThan vm.True_ vm.False_
           (vm.set_stack m2 (vm.stack m2) 1) m2
           eq_refl (or_introl eq_refl) eq_refl eq_refl eq_refl).
Defined.

Lemma wrap64_range z : - 2 ^ 63 <= wrap64 z < 2 ^ 63.
Proof.
  unfold wrap64. change (2 ^ 63) with 9223372036854775808.
  pose proof (Z.mod_pos_bound (z + 9223372036854775808) 18446744073709551616
                ltac:(lia)).
  lia.
Qed.

Lemma wrap64_small z : - 2 ^ 63 <= z < 2 ^ 63 -> wrap64 z = z.
Proof.
  unfold wrap64. change (2 ^ 63) with 9223372036854775808. intros Hz.
  rewrite Z.mod_small by lia. lia.
Qed.

Lemma push_Ok m o :
  0 <= vm.sp m < vm.StackSize -> vm.sp m < len (vm.stack m) ->
  vm.push o m
  = Ok (None, vm.set_stack m (<[Z.to_nat (vm.sp m) := o]> (vm.stack m))
                (vm.sp m + 1)).
Proof.
  intros Hsp Hlen. unfold vm.push, store.
  replace (vm.sp m >=? vm.StackSize) with false by (symmetry; lia).
  replace (0 <=? vm.sp m) with true by (symmetry; apply Z.leb_le; lia).
  replace (vm.sp m <? Z.of_nat (length (vm.stack m))) with true
    by (symmetry; apply Z.ltb_lt; exact Hlen).
  reflexivity.
Qed.

(** X20. Integer arithmetic: for two integers on the stack, [OpAdd],
    [OpSub], [OpMul] and [OpDiv] (with a divisor other than 0) replace them
    by one new integer, computed with the operand pushed first on the left;
    the quotient is truncated toward zero, and a result outside [int64]
    wraps into it. *)
Theorem integer_arithmetic m ip op a x m1 b y m2 :
  index (vm.instructions m) ip = Ok op ->
  op = code.OpAdd \/ op = code.OpSub \/ op = code.OpMul
  \/ (op = code.OpDiv /\ x <> 0) ->
  vm.pop m = Ok (Some (object.Integer a x), m1) ->
  vm.pop m1 = Ok (Some (object.Integer b y), m2) ->
  len (vm.stack m) <= vm.StackSize ->
  exists m',
    vm.Run_body ip m = Ok (vm.Next ip, m') /\
    vm.sp m' = vm.sp m - 1 /\
    index (vm.stack m') (vm.sp m - 2)
    = Ok (Some (object.Integer (vm.heap m) (wrap64 (arithmetic op y x)))) /\
    - 2 ^ 63 <= wrap64 (arithmetic op y x) < 2 ^ 63 /\
    (- 2 ^ 63 <= arithmetic op y x < 2 ^ 63 ->
     wrap64 (arithmetic op y x) = arithmetic op y x).
Proof.
  intros Hop Hcase Hr Hl Hlen.
  pose proof (pop_sp _ _ _ Hr) as (Hsp1 & Hst1 & Hh1 & _ & _ & _ & Hpos1).
  pose proof (pop_sp _ _ _ Hl) as (Hsp2 & Hst2 & Hh2 & _ & _ & _ & Hpos2).
  assert (Hin1 : vm.sp m - 1 < len (vm.stack m)).
  { unfold vm.pop in Hr. unfold mbind, outcome_bind in Hr.
    destruct (index (vm.stack m) (vm.sp m - 1)) eqn:Hi; [|discriminate].
    apply index_lt in Hi. lia. }
  set (value := wrap64 (arithmetic op y x)).
  set (m3 := vm.mkVM (vm.constants m2) (vm.instructions m2) (vm.global m2)
               (vm.stack m2) (vm.sp m2) (vm.heap m2 + 1)%N).
  assert (Hexec : vm.executeBinaryOperation op m
                  = vm.push (Some (object.Integer (vm.heap m2) value)) m3).
  { unfold vm.executeBinaryOperation. run_monad. rewrite Hr, Hl.
    unfold vm.typeOf. run_monad. cbn [object.Type_].
    change (String.eqb object.INTEGER_OBJ object.INTEGER_OBJ) with true.
    cbn [andb]. unfold vm.executeBinaryIntegerOberation, vm.alloc. run_monad.
    subst value m3. unfold arithmetic.
    destruct Hcase as [-> | [-> | [-> | [-> Hx]]]]; try reflexivity.
    cbn. destruct (Z.eqb_spec x 0) as [|_]; [contradiction|reflexivity]. }
  assert (Hpush : vm.push (Some (object.Integer (vm.heap m2) value)) m3
                  = Ok (None,
                        vm.set_stack m3
                          (<[Z.to_nat (vm.sp m3) :=
                               Some (object.Integer (vm.heap m2) value)]>
                             (vm.stack m3))
                          (vm.sp m3 + 1))).
  { apply push_Ok; subst m3; cbn [vm.sp vm.stack]; rewrite ?Hst2, ?Hst1; lia. }
  eexists. split; [|split; [|split; [|split]]].
  - rewrite (Run_body_binary_operation m ip op Hop) by tauto.
    rewrite Hexec, Hpush. reflexivity.
  - subst m3. cbn [vm.sp vm.set_stack]. lia.
  - subst m3. cbn [vm.sp vm.stack vm.set_stack].
    rewrite index_insert by (rewrite ?Hst2, ?Hst1; lia).
    replace (vm.sp m2 =? vm.sp m - 2) with true by (symmetry; lia).
    now rewrite Hh2, Hh1.
  - apply wrap64_range.
  - apply wrap64_small.
Qed.

Lemma integer_arithmetic_witness :
  let m2 := vm.set_stack
              (vm.NewWithState (compiler.mkBytecode [code.OpSub] []) [] 5)
              (<[0%nat := Some (object.Integer 3 7)]>
                 (<[1%nat := Some (object.Integer 4 10)]> (replicate 2048 None)))
              0 in
  let m := vm.set_stack m2 (vm.stack m2) 2 in
  exists m',
    vm.Run_body 0 m = Ok (vm.Next 0, m') /\
    vm.sp m' = 1 /\
    index (vm.stack m') 0 = Ok (Some (object.Integer 5 (-3))).
Proof.
  intros m2 m.
  destruct (integer_arithmetic m 0 code.OpSub 4 10
              (vm.set_stack m2 (vm.stack m2) 1) 3 7 m2)
    as (m' & Hrun & Hsp & Hidx & _ & _).
  - reflexivity.
  - right. left. reflexivity.
  - reflexivity.
  - reflexivity.
  - vm_compute. discriminate.
  - exists m'. split; [exact Hrun|]. split; [exact Hsp|exact Hidx].
Defined.

(** X21. Division by zero is no error of the machine: [OpDiv] with the
    integer 0 on top of an integer panics, and so does [Run]. *)
Theorem OpDiv_by_zero_panics m ip a m1 b y m2 fuel :
  index (vm.instructions m) ip = Ok code.OpDiv ->
  vm.pop m = Ok (Some (object.Integer a 0), m1) ->
  vm.pop m1 = Ok (Some (object.Integer b y), m2) ->
  vm.Run_body ip m = Panic /\ vm.Run_loop (S fuel) ip m = Some Panic.
Proof.
  intros Hop Hr Hl. pose proof (index_lt _ _ _ Hop) as Hip.
  assert (Hbody : vm.Run_body ip m = Panic).
  { rewrite (Run_body_binary_operation m ip code.OpDiv Hop) by tauto.
    unfold vm.executeBinaryOperation. run_monad. rewrite Hr, Hl.
    unfold vm.typeOf. run_monad. reflexivity. }
  split; [exact Hbody|]. rewrite Run_loop_step by lia. now rewrite Hbody.
Qed.

Lemma OpDiv_by_zero_panics_witness :
  let m2 := vm.set_stack
              (vm.NewWithState (compiler.mkBytecode [code.OpDiv] []) [] 5)
              (<[0%nat := Some (object.Integer 3 1)]>
                 (<[1%nat := Some (object.Integer 4 0)]> (replicate 2048 None)))
              0 in
  vm.Run_loop 1 0 (vm.set_stack m2 (vm.stack m2) 2) = Some Panic.
Proof.
  intros m2.
  exact (proj2 (OpDiv_by_zero_panics (vm.set_stack m2 (vm.stack m2) 2) 0 4
                  (vm.set_stack m2 (vm.stack m2) 1) 3 1 m2 0
                  eq_refl eq_refl eq_refl)).
Defined.

(** X22. Strings: [OpAdd] on two strings pushes a new string, the left
    operand followed by the right one. Under [OpSub], [OpMul] and [OpDiv]
    two strings give the error [unknown interger operator], which the loop
    of [Run] drops: it goes on with the operands popped and nothing pushed. *)
Theorem string_operations m ip op a x m1 b y m2 :
  index (vm.instructions m) ip = Ok op ->
  op = code.OpAdd \/ op = code.OpSub \/ op = code.OpMul \/ op = code.OpDiv ->
  vm.pop m = Ok (Some (object.String a x), m1) ->
  vm.pop m1 = Ok (Some (object.String b y), m2) ->
  len (vm.stack m) <= vm.StackSize ->
  exists m',
    vm.Run_body ip m = Ok (vm.Next ip, m') /\
    if op =? code.OpAdd then
      vm.sp m' = vm.sp m - 1 /\
      index (vm.stack m') (vm.sp m - 2)
      = Ok (Some (object.String (vm.heap m) (y +:+ x)))
    else
      m' = m2 /\
      vm.executeBinaryOperation op m
      = Ok (Some ("unknown interger operator: " +:+ itoa op), m2).
Proof.
  intros Hop Hcase Hr Hl Hlen.
  pose proof (pop_sp _ _ _ Hr) as (Hsp1 & Hst1 & Hh1 & _ & _ & _ & Hpos1).
  pose proof (pop_sp _ _ _ Hl) as (Hsp2 & Hst2 & Hh2 & _ & _ & _ & Hpos2).
  assert (Hin1 : vm.sp m - 1 < len (vm.stack m)).
  { unfold vm.pop in Hr. unfold mbind, outcome_bind in Hr.
    destruct (index (vm.stack m) (vm.sp m - 1)) eqn:Hi; [|discriminate].
    apply index_lt in Hi. lia. }
  assert (Hexec : vm.executeBinaryOperation op m
                  = vm.executeBinaryStringOperation op
                      (Some (object.String b y)) (Some (object.String a x)) m2).
  { unfold vm.executeBinaryOperation. run_monad. rewrite Hr, Hl.
    unfold vm.typeOf. run_monad. reflexivity. }
  rewrite (Run_body_binary_operation m ip op Hop) by tauto. rewrite Hexec.
  unfold vm.executeBinaryStringOperation.
  destruct (Z.eqb_spec op code.OpAdd) as [->|Hne].
  - cbn [Z.eqb Pos.eqb code.OpAdd]. unfold vm.alloc. run_monad.
    set (m3 := vm.mkVM _ _ _ _ _ _).
    rewrite (push_Ok m3)
      by (subst m3; cbn [vm.sp vm.stack]; rewrite ?Hst2, ?Hst1; lia).
    eexists. split; [reflexivity|].
    subst m3. cbn [vm.sp vm.stack vm.set_stack]. split; [lia|].
    rewrite index_insert by (rewrite ?Hst2, ?Hst1; lia).
    replace (vm.sp m2 =? vm.sp m - 2) with true by (symmetry; lia).
    now rewrite Hh2, Hh1.
  - exists m2. replace (op =? code.OpAdd) with false
      by (symmetry; now apply Z.eqb_neq).
    split; [reflexivity|]. split; reflexivity.
Qed.

Lemma string_operations_witness :
  let m2 := vm.set_stack
              (vm.NewWithState (compiler.mkBytecode [code.OpAdd] []) [] 5)
              (<[0%nat := Some (object.String 3 "mon")]>
                 (<[1%nat := Some (object.String 4 "key")]>
                    (replicate 2048 None)))
              0 in
  let m := vm.set_stack m2 (vm.stack m2) 2 in
  exists m',
    vm.Run_body 0 m = Ok (vm.Next 0, m') /\
    vm.sp m' = 1 /\
    index (vm.stack m') 0 = Ok (Some (object.String 5 "monkey")).
Proof.
  intros m2 m.
  destruct (string_operations m 0 code.OpAdd 4 "key"
              (vm.set_stack m2 (vm.stack m2) 1) 3 "mon" m2)
    as (m' & Hrun & Hsp & Hidx).
  - reflexivity.
  - left. reflexivity.
  - reflexivity.
  - reflexivity.
  - vm_compute. discriminate.
  - exists m'. split; [exact Hrun|]. split; [exact Hsp|exact Hidx].
Defined.

End BinaryOperators.

(** ** The virtual machine: arrays *)

Section Arrays.

Import machine.

Lemma pushes_stack vs :
  forall m0 m,
    pushes vs m0 = Ok (None, m) ->
    0 <= vm.sp m0 <= len (vm.stack m0) ->
    vm.sp m = vm.sp m0 + len vs /\
    vm.stack m
    = take (Z.to_nat (vm.sp m0)) (vm.stack m0) ++ vs
      ++ drop (Z.to_nat (vm.sp m0) + length vs) (vm.stack m0) /\
    (Z.to_nat (vm.sp m0) + length vs <= length (vm.stack m0))%nat /\
    vm.heap m = vm.heap m0 /\ vm.instructions m = vm.instructions m0 /\
    vm.constants m = vm.constants m0 /\ vm.global m = vm.global m0.
Proof.
  induction vs as [|v vs IH]; intros m0 m; cbn [pushes].
  - intros [= <-] Hsp. unfold len in *. cbn [length app].
    rewrite Nat.add_0_r, take_drop. repeat split; lia.
  - unfold check, vm.push, store.
    destruct (vm.sp m0 >=? vm.StackSize); [discriminate|].
    destruct ((0 <=? vm.sp m0) && (vm.sp m0 <? Z.of_nat (length (vm.stack m0))))
      eqn:Hin; [|discriminate].
    unfold mbind, outcome_bind. intros Hrest Hsp.
    apply andb_true_iff in Hin. destruct Hin as [_ Hlt]. apply Z.ltb_lt in Hlt.
    apply IH in Hrest;
      [|cbn [vm.sp vm.stack vm.set_stack]; unfold len; rewrite length_insert;
        lia].
    cbn [vm.sp vm.stack vm.set_stack vm.heap vm.instructions vm.constants
           vm.global] in Hrest.
    destruct Hrest as (Hsp' & Hstack & Hlen & Hrest).
    rewrite length_insert in Hlen.
    split; [unfold len in *; cbn [length]; lia|].
    split; [|split; [cbn [length]; lia|exact Hrest]].
    rewrite Hstack.
    replace (Z.to_nat (vm.sp m0 + 1)) with (S (Z.to_nat (vm.sp m0))) by lia.
    rewrite (take_S_r _ _ v) by (apply list_lookup_insert_eq; lia).
    rewrite take_insert_ge by lia.
    rewrite drop_insert_lt by lia.
    cbn [length]. rewrite <- app_assoc. cbn [app].
    replace (S (Z.to_nat (vm.sp m0)) + length vs)%nat
      with (Z.to_nat (vm.sp m0) + S (length vs))%nat by lia.
    reflexivity.
Qed.

Lemma popElements_take n :
  forall m acc,
    (n <= Z.to_nat (vm.sp m) <= length (vm.stack m))%nat -> 0 <= vm.sp m ->
    vm.popElements n acc m
    = Ok (take n (drop (Z.to_nat (vm.sp m) - n) (vm.stack m)) ++ acc,
          vm.set_stack m (vm.stack m) (vm.sp m - Z.of_nat n)).
Proof.
  induction n as [|n IH]; intros m acc Hn Hsp; cbn [vm.popElements].
  - cbn [take app]. replace (vm.sp m - Z.of_nat 0) with (vm.sp m) by lia.
    destruct m; reflexivity.
  - unfold mbind at 1, M_bind at 1. unfold vm.pop.
    destruct (index_Ok (vm.stack m) (vm.sp m - 1)) as (o & Ho & Hlook);
      [unfold len; lia|].
    unfold mbind at 1, outcome_bind at 1. rewrite Ho.
    rewrite IH by (cbn [vm.sp vm.stack vm.set_stack]; lia).
    cbn [vm.sp vm.stack vm.set_stack].
    replace (vm.sp m - 1 - Z.of_nat n) with (vm.sp m - Z.of_nat (S n)) by lia.
    replace (Z.to_nat (vm.sp m - 1) - n)%nat
      with (Z.to_nat (vm.sp m) - S n)%nat by lia.
    f_equal. f_equal.
    rewrite (take_S_r _ _ o).
    + now rewrite <- app_assoc.
    + rewrite lookup_drop. rewrite <- Hlook. f_equal. lia.
Qed.

(** X23. [OpArray n] packs what [n] pushes left: after the values [vs] have
    been pushed, the instruction pops them all and pushes one new array that
    holds them in the order they were pushed. *)
Theorem OpArray_packs_pushed_values m0 vs m ip :
  pushes vs m0 = Ok (None, m) ->
  0 <= vm.sp m0 < vm.StackSize ->
  vm.sp m0 < len (vm.stack m0) ->
  index (vm.instructions m) ip = Ok code.OpArray ->
  vm.operand ip m = Ok (len vs, m) ->
  exists m',
    vm.Run_body ip m = Ok (vm.Next (ip + 2), m') /\
    vm.sp m' = vm.sp m0 + 1 /\
    index (vm.stack m') (vm.sp m0)
    = Ok (Some (object.Array (vm.heap m0) vs)).
Proof.
  intros Hpushes Hsp Hlen Hop Hoperand.
  destruct (pushes_stack vs m0 m Hpushes ltac:(lia))
    as (Hsp' & Hstack & Hfit & Hheap & _).
  assert (Hlenm : length (vm.stack m) = length (vm.stack m0)).
  { rewrite Hstack, !length_app, length_take, length_drop. lia. }
  unfold vm.Run_body. rewrite bind_get, Hop.
  unfold lift, mbind at 1, M_bind at 1.
  change (code.OpArray =? code.OpNull) with false.
  change (code.OpArray =? code.OpPop) with false.
  change (code.OpArray =? code.OpConstant) with false.
  change (code.OpArray =? code.OpTrue) with false.
  change (code.OpArray =? code.OpFalse) with false.
  change (code.OpArray =? code.OpArray) with true.
  cbv iota. unfold mbind at 1, M_bind at 1. rewrite Hoperand.
  unfold vm.alloc. unfold mbind at 1, M_bind at 1.
  unfold len. rewrite Nat2Z.id.
  set (m1 := vm.mkVM _ _ _ _ _ _).
  unfold mbind at 1, M_bind at 1.
  rewrite (popElements_take (length vs) m1 [])
    by (subst m1; cbn [vm.sp vm.stack]; unfold len in *; lia).
  subst m1. cbn [vm.sp vm.stack object.address].
  rewrite app_nil_r.
  replace (Z.to_nat (vm.sp m) - length vs)%nat with (Z.to_nat (vm.sp m0))
    by (unfold len in Hsp'; lia).
  replace (take (length vs) (drop (Z.to_nat (vm.sp m0)) (vm.stack m))) with vs.
  2:{ rewrite Hstack. rewrite drop_app_length'
        by (rewrite length_take; unfold len in Hlen; lia).
      now rewrite take_app_length. }
  unfold vm.returning. unfold mbind at 1, M_bind at 1.
  set (m2 := vm.set_stack _ _ _).
  rewrite (push_Ok m2)
    by (subst m2; cbn [vm.sp vm.stack vm.set_stack]; unfold len in *; lia).
  eexists. split; [reflexivity|].
  subst m2. cbn [vm.sp vm.stack vm.set_stack].
  split; [unfold len in *; lia|].
  rewrite index_insert by (unfold len in *; lia).
  replace (vm.sp m - Z.of_nat (length vs) =? vm.sp m0) with true
    by (symmetry; unfold len in *; lia).
  now rewrite Hheap.
Qed.

Lemma OpArray_packs_pushed_values_witness :
  let m0 := vm.NewWithState (compiler.mkBytecode [code.OpArray; 0; 2] []) [] 5 in
  exists m m',
    pushes [Some (object.Integer 3 1); Some (object.Integer 4 2)] m0
    = Ok (None, m) /\
    vm.Run_body 0 m = Ok (vm.Next 2, m') /\
    vm.sp m' = 1 /\
    index (vm.stack m') 0
    = Ok (Some (object.Array 5 [Some (object.Integer 3 1);
                                Some (object.Integer 4 2)])).
Proof.
  intros m0. eexists.
  assert (Hpushes : pushes [Some (object.Integer 3 1); Some (object.Integer 4 2)]
                      m0
                    = Ok (None,
                          vm.set_stack m0
                            (<[1%nat := Some (object.Integer 4 2)]>
                               (<[0%nat := Some (object.Integer 3 1)]>
                                  (vm.stack m0))) 2)) by reflexivity.
  destruct (OpArray_packs_pushed_values m0 _ _ 0 Hpushes)
    as (m' & Hrun & Hsp & Hidx).
  - unfold vm.StackSize. cbn. lia.
  - vm_compute. reflexivity.
  - reflexivity.
  - reflexivity.
  - exists m'. split; [exact Hpushes|]. split; [exact Hrun|].
    split; [exact Hsp|exact Hidx].
Defined.

End Arrays.

(** ** The virtual machine: hashes *)

Section Hashes.

Lemma pop_inv m o m' :
  vm.pop m = Ok (o, m') ->
  index (vm.stack m) (vm.sp m - 1) = Ok o /\
  m' = vm.set_stack m (vm.stack m) (vm.sp m - 1).
Proof.
  unfold vm.pop, mbind, outcome_bind.
  destruct (index (vm.stack m) (vm.sp m - 1)); [|discriminate].
  now intros [= <- <-].
Qed.

Lemma pop_heap m o m' h :
  vm.pop m = Ok (o, m') ->
  vm.pop (vm.mkVM (vm.constants m) (vm.instructions m) (vm.global m)
            (vm.stack m) (vm.sp m) h)
  = Ok (o, vm.mkVM (vm.constants m') (vm.instructions m') (vm.global m')
             (vm.stack m') (vm.sp m') h).
Proof.
  intros H. apply pop_inv in H. destruct H as [Hidx ->].
  unfold vm.pop, mbind, outcome_bind. cbn [vm.stack vm.sp]. now rewrite Hidx.
Qed.

(** X24. A key that is not hashable makes [OpHash] fail, and [Run] returns
    the error: [unusable as hash key] with the type of the key, after the
    value and the key are popped. *)
Theorem OpHash_unusable_key m ip n value k m1 m2 fuel :
  index (vm.instructions m) ip = Ok code.OpHash ->
  vm.operand ip m = Ok (n, m) ->
  0 < n ->
  vm.pop m = Ok (value, m1) ->
  vm.pop m1 = Ok (Some k, m2) ->
  object.HashKey_ k = None ->
  vm.Run_loop (S fuel) ip m
  = Some (Ok (Some ("unusable as hash key: " +:+ object.Type_ k),
              vm.mkVM (vm.constants m2) (vm.instructions m2) (vm.global m2)
                (vm.stack m2) (vm.sp m2) (vm.heap m + 1)%N)).
Proof.
  intros Hop Hoperand Hn Hvalue Hkey Hhash.
  pose proof (index_lt _ _ _ Hop) as Hip.
  rewrite Run_loop_step by lia.
  unfold vm.Run_body. rewrite bind_get, Hop.
  unfold lift, mbind at 1, M_bind at 1.
  change (code.OpHash =? code.OpNull) with false.
  change (code.OpHash =? code.OpPop) with false.
  change (code.OpHash =? code.OpConstant) with false.
  change (code.OpHash =? code.OpTrue) with false.
  change (code.OpHash =? code.OpFalse) with false.
  change (code.OpHash =? code.OpArray) with false.
  change (code.OpHash =? code.OpHash) with true.
  cbv iota. unfold mbind at 1, M_bind at 1. rewrite Hoperand.
  unfold vm.alloc. unfold mbind at 1, M_bind at 1.
  destruct (Z.to_nat n) as [|n'] eqn:Hnat; [lia|].
  cbn [vm.popPairs]. unfold mbind at 1, M_bind at 1.
  unfold mbind at 1, M_bind at 1.
  rewrite (pop_heap _ _ _ _ Hvalue).
  unfold mbind at 1, M_bind at 1.
  rewrite (pop_heap _ _ _ _ Hkey). rewrite Hhash.
  reflexivity.
Qed.

Lemma OpHash_unusable_key_witness :
  let m2 := vm.set_stack
              (vm.NewWithState (compiler.mkBytecode [code.OpHash; 0; 1] []) [] 5)
              (<[0%nat := Some (object.Array 3 [])]>
                 (<[1%nat := Some (object.Integer 4 2)]> (replicate 2048 None)))
              0 in
  vm.Run_loop 1 0 (vm.set_stack m2 (vm.stack m2) 2)
  = Some (Ok (Some "unusable as hash key: ARRAY",
              vm.mkVM (vm.constants m2) (vm.instructions m2) (vm.global m2)
                (vm.stack m2) (vm.sp m2) 6)).
Proof.
  intros m2.
  apply (OpHash_unusable_key (vm.set_stack m2 (vm.stack m2) 2) 0 1
           (Some (object.Integer 4 2)) (object.Array 3 [])
           (vm.set_stack m2 (vm.stack m2) 1) m2 0);
    reflexivity.
Defined.

(** X25. Of two pairs with the same hash key the one pushed first stays: the
    loop of [OpHash] pops the pairs last to first and writes each into the
    map, so that the pair pushed first is written last. *)
Theorem OpHash_first_pair_stays m value2 m1 key2 m2 value1 m3 key1 m4 h :
  vm.pop m = Ok (value2, m1) ->
  vm.pop m1 = Ok (Some key2, m2) ->
  vm.pop m2 = Ok (value1, m3) ->
  vm.pop m3 = Ok (Some key1, m4) ->
  object.HashKey_ key1 = Some h ->
  object.HashKey_ key2 = Some h ->
  vm.popPairs 2 [] m = Ok (inr [(h, (key1, value1))], m4).
Proof.
  intros H1 H2 H3 H4 Hk1 Hk2. cbn [vm.popPairs].
  unfold mbind, M_bind. rewrite H1, H2, Hk2, H3, H4, Hk1.
  cbn [object.map_set]. unfold object.HashKey_eqb.
  now rewrite String.eqb_refl, Z.eqb_refl.
Qed.

Lemma OpHash_first_pair_stays_witness :
  let m4 := vm.set_stack
              (vm.NewWithState (compiler.mkBytecode [] []) [] 7)
              [Some (object.Integer 3 1); Some (object.Integer 4 10);
               Some (object.Integer 5 1); Some (object.Integer 6 20)] 0 in
  vm.popPairs 2 [] (vm.set_stack m4 (vm.stack m4) 4)
  = Ok (inr [(object.mkHashKey object.INTEGER_OBJ 1,
              (object.Integer 3 1, Some (object.Integer 4 10)))], m4).
Proof.
  intros m4.
  exact (OpHash_first_pair_stays (vm.set_stack m4 (vm.stack m4) 4)
           (Some (object.Integer 6 20)) (vm.set_stack m4 (vm.stack m4) 3)
           (object.Integer 5 1) (vm.set_stack m4 (vm.stack m4) 2)
           (Some (object.Integer 4 10)) (vm.set_stack m4 (vm.stack m4) 1)
           (object.Integer 3 1) m4 (object.mkHashKey object.INTEGER_OBJ 1)
           eq_refl eq_refl eq_refl eq_refl eq_refl eq_refl).
Defined.

End Hashes.

(** ** The virtual machine: globals and jumps *)

Section GlobalsAndJumps.

Import scenario structured.

Lemma operand_instructions ip m m' v :
  vm.operand ip m = Ok (v, m) ->
  vm.instructions m' = vm.instructions m ->
  vm.operand ip m' = Ok (v, m').
Proof.
  unfold vm.operand. intros H Hins. rewrite Hins.
  unfold mbind, outcome_bind in *.
  destruct (slice_from (vm.instructions m) (ip + 1)) as [tail|]; [|discriminate].
  destruct (code.ReadUint16 tail) as [w|]; [|discriminate].
  now injection H as ->.
Qed.

Lemma Run_body_OpSetGlobal m ip i v m1 :
  index (vm.instructions m) ip = Ok code.OpSetGlobal ->
  vm.operand ip m = Ok (i, m) ->
  vm.pop m = Ok (v, m1) ->
  0 <= i < len (vm.global m) ->
  vm.Run_body ip m
  = Ok (vm.Next (ip + 2),
        vm.set_global m1 (<[Z.to_nat i := v]> (vm.global m1))).
Proof.
  intros Hop Hoperand Hpop Hi.
  pose proof (pop_sp _ _ _ Hpop) as (_ & _ & _ & _ & _ & Hglobal & _).
  unfold vm.Run_body. rewrite bind_get, Hop.
  unfold lift, mbind at 1, M_bind at 1. cbn.
  unfold mbind at 1, M_bind at 1. rewrite Hoperand.
  unfold mbind at 1, M_bind at 1. rewrite Hpop. rewrite bind_get.
  unfold store. rewrite Hglobal.
  replace (0 <=? i) with true by (symmetry; apply Z.leb_le; lia).
  replace (i <? Z.of_nat (length (vm.global m))) with true
    by (symmetry; apply Z.ltb_lt; unfold len in Hi; lia).
  reflexivity.
Qed.

Lemma Run_body_OpGetGlobal m ip i :
  index (vm.instructions m) ip = Ok code.OpGetGlobal ->
  vm.operand ip m = Ok (i, m) ->
  vm.Run_body ip m
  = match index (vm.global m) i with
    | Ok value => vm.returning (vm.push value) (ip + 2) m
    | Panic => Panic
    end.
Proof.
  intros Hop Hoperand.
  unfold vm.Run_body. rewrite bind_get, Hop.
  unfold lift, mbind at 1, M_bind at 1. cbn.
  unfold mbind at 1, M_bind at 1. rewrite Hoperand. rewrite bind_get.
  unfold mbind at 1, M_bind at 1.
  now destruct (index (vm.global m) i).
Qed.

(** X26. A global that is set is the global that is read: [OpSetGlobal i]
    followed by [OpGetGlobal i] leaves the stack as it was, the value on top
    of it now also in slot [i] of the globals; no other global changes. *)
Theorem SetGlobal_GetGlobal m ip i v m1 :
  index (vm.instructions m) ip = Ok code.OpSetGlobal ->
  vm.operand ip m = Ok (i, m) ->
  index (vm.instructions m) (ip + 3) = Ok code.OpGetGlobal ->
  vm.operand (ip + 3) m = Ok (i, m) ->
  vm.pop m = Ok (v, m1) ->
  0 <= i < len (vm.global m) ->
  vm.sp m <= vm.StackSize ->
  exists m',
    Run_prefix 2 ip m = Ok (ip + 6, m') /\
    vm.sp m' = vm.sp m /\
    index (vm.stack m') (vm.sp m - 1) = Ok v /\
    index (vm.global m') i = Ok v /\
    forall j, j <> i -> index (vm.global m') j = index (vm.global m) j.
Proof.
  intros Hset Hoperand Hget Hoperand' Hpop Hi Hsp.
  pose proof (pop_sp _ _ _ Hpop)
    as (Hsp1 & Hstack1 & _ & Hins1 & _ & Hglobal1 & Hpos).
  assert (Hin : vm.sp m - 1 < len (vm.stack m)).
  { unfold vm.pop in Hpop. unfold mbind, outcome_bind in Hpop.
    destruct (index (vm.stack m) (vm.sp m - 1)) eqn:Hidx; [|discriminate].
    apply index_lt in Hidx. lia. }
  assert (Htop : index (vm.stack m) (vm.sp m - 1) = Ok v).
  { unfold vm.pop in Hpop. unfold mbind, outcome_bind in Hpop.
    destruct (index (vm.stack m) (vm.sp m - 1)); [|discriminate].
    now injection Hpop as -> _. }
  set (m2 := vm.set_global m1 (<[Z.to_nat i := v]> (vm.global m1))).
  assert (Hglobal2 : forall j, 0 <= j ->
             index (vm.global m2) j
             = if i =? j then Ok v else index (vm.global m) j).
  { intros j Hj. subst m2. cbn [vm.global vm.set_global]. rewrite Hglobal1.
    now apply index_insert. }
  cbn [Run_prefix].
  rewrite (Run_body_OpSetGlobal m ip i v m1 Hset Hoperand Hpop Hi).
  fold m2. replace (ip + 2 + 1) with (ip + 3) by lia.
  rewrite (Run_body_OpGetGlobal m2 (ip + 3) i)
    by (first [now rewrite <- Hget; subst m2; cbn [vm.instructions vm.set_global];
                   rewrite Hins1
              |apply (operand_instructions _ m); [exact Hoperand'|];
               subst m2; cbn [vm.instructions vm.set_global]; exact Hins1]).
  rewrite (Hglobal2 i) by lia. rewrite Z.eqb_refl.
  unfold vm.returning. unfold mbind at 1, M_bind at 1.
  rewrite (push_Ok m2)
    by (subst m2; cbn [vm.sp vm.stack vm.set_global]; rewrite ?Hstack1; lia).
  eexists. split; [f_equal; f_equal; lia|].
  subst m2. cbn [vm.sp vm.stack vm.global vm.set_stack vm.set_global].
  split; [lia|]. split; [|split].
  - rewrite index_insert by (rewrite ?Hstack1; lia).
    now replace (vm.sp m1 =? vm.sp m - 1) with true by (symmetry; lia).
  - rewrite Hglobal1, index_insert by lia. now rewrite Z.eqb_refl.
  - intros j Hj. rewrite Hglobal1.
    destruct (Z.leb_spec 0 j) as [H0|Hneg].
    + rewrite index_insert by lia.
      now replace (i =? j) with false by (symmetry; apply Z.eqb_neq; lia).
    + unfold index. rewrite length_insert.
      now replace (0 <=? j) with false by (symmetry; apply Z.leb_gt; lia).
Qed.

Lemma SetGlobal_GetGlobal_witness :
  let m1 := vm.set_stack
              (vm.NewWithState
                 (compiler.mkBytecode
                    [code.OpSetGlobal; 0; 1; code.OpGetGlobal; 0; 1] [])
                 [None; None] 4)
              (<[0%nat := Some (object.Integer 3 7)]> (replicate 2048 None)) 0 in
  exists m',
    Run_prefix 2 0 (vm.set_stack m1 (vm.stack m1) 1) = Ok (6, m') /\
    vm.sp m' = 1 /\
    index (vm.stack m') 0 = Ok (Some (object.Integer 3 7)) /\
    index (vm.global m') 1 = Ok (Some (object.Integer 3 7)).
Proof.
  intros m1.
  destruct (SetGlobal_GetGlobal (vm.set_stack m1 (vm.stack m1) 1) 0 1
              (Some (object.Integer 3 7)) m1)
    as (m' & Hrun & Hsp & Htop & Hglobal & _).
  - reflexivity.
  - reflexivity.
  - reflexivity.
  - reflexivity.
  - reflexivity.
  - vm_compute. split; [discriminate|reflexivity].
  - vm_compute. discriminate.
  - exists m'. auto.
Defined.

(** X27. The conditional jump pops its condition and goes on at its target
    when the condition is [False] or [Null], and at the next instruction for
    every other value, the integer 0 included. *)
Theorem JumpNotTruthy_branches m ip target condition m1 fuel :
  index (vm.instructions m) ip = Ok code.OpJumpNotTruthy ->
  vm.operand ip m = Ok (target, m) ->
  vm.pop m = Ok (condition, m1) ->
  vm.Run_loop (S fuel) ip m
  = vm.Run_loop fuel (if vm.isTruthy condition then ip + 3 else target) m1.
Proof.
  intros Hop Hoperand Hpop. pose proof (index_lt _ _ _ Hop) as Hip.
  rewrite Run_loop_step by lia.
  unfold vm.Run_body. rewrite bind_get, Hop.
  unfold lift, mbind at 1, M_bind at 1. cbn.
  unfold mbind at 1, M_bind at 1. rewrite Hoperand.
  unfold mbind at 1, M_bind at 1. rewrite Hpop.
  destruct (vm.isTruthy condition); cbn [negb]; unfold mret, M_ret;
    f_equal; lia.
Qed.

Lemma JumpNotTruthy_branches_witness :
  let m1 := vm.set_stack
              (vm.NewWithState
                 (compiler.mkBytecode [code.OpJumpNotTruthy; 0; 4; code.OpNull]
                    [])
                 [] 4)
              (<[0%nat := Some (object.Integer 3 0)]> (replicate 2048 None)) 0 in
  vm.Run_loop 2 0 (vm.set_stack m1 (vm.stack m1) 1) = vm.Run_loop 1 3 m1.
Proof.
  intros m1.
  exact (JumpNotTruthy_branches (vm.set_stack m1 (vm.stack m1) 1) 0 4
           (Some (object.Integer 3 0)) m1 1 eq_refl eq_refl eq_refl).
Defined.

(** X28. [Run] has no bound on its iterations: on an [OpJump] whose target
    is its own offset the loop never ends. *)
Theorem Run_self_jump_never_returns m ip :
  index (vm.instructions m) ip = Ok code.OpJump ->
  vm.operand ip m = Ok (ip, m) ->
  forall fuel, vm.Run_loop fuel ip m = None.
Proof.
  intros Hop Hoperand fuel. pose proof (index_lt _ _ _ Hop) as Hip.
  induction fuel as [|fuel IH].
  - cbn [vm.Run_loop].
    now replace (ip <? len (vm.instructions m)) with true
      by (symmetry; apply Z.ltb_lt; lia).
  - rewrite Run_loop_step by lia.
    unfold vm.Run_body. rewrite bind_get, Hop.
    unfold lift, mbind at 1, M_bind at 1. cbn.
    unfold mbind at 1, M_bind at 1. rewrite Hoperand.
    unfold mret, M_ret. replace (ip - 1 + 1) with ip by lia. exact IH.
Qed.

Lemma Run_self_jump_never_returns_witness :
  vm.Run 1000 (vm.NewWithState (compiler.mkBytecode [code.OpJump; 0; 0] []) [] 3)
  = None.
Proof.
  exact (Run_self_jump_never_returns
           (vm.NewWithState (compiler.mkBytecode [code.OpJump; 0; 0] []) [] 3) 0
           eq_refl eq_refl 1000%nat).
Defined.

End GlobalsAndJumps.

(** ** The loop of [Run] on compiled code *)

Section Termination.

Import structured.

(** X29. [Run] ends on compiled code: for a program that [Compile] accepts
    with fewer than 2^16 bytes of instructions, and a machine in any state
    that holds these instructions, the loop of [Run] finishes after some
    number of iterations: it returns, with an error or without, or it
    panics. *)
Theorem Run_terminates_on_compiled_code program c m :
  compiler.Compile (ast.NProgram program) compiler.New = Ok (None, c) ->
  len (compiler.instructions c) < 65536 ->
  vm.instructions m = compiler.instructions c ->
  exists fuel r, vm.Run fuel m = Some r.
Proof.
  cbn [compiler.Compile]. intros Hcompile Hlen Hm.
  apply CompileProgram_code in Hcompile.
  destruct Hcompile as [(t & Hwf & _ & Hins) _].
  change (compiler.instructions compiler.New) with (@nil Z) in Hins.
  cbn [app] in Hins. change (len []) with 0 in Hins.
  assert (Hsize : size t < 65536) by now rewrite <- (len_flat 0), <- Hins.
  destruct (simulates_exec t 0 m) as [n Hn].
  - rewrite Hm, Hins. apply code_at_start.
  - exact Hwf.
  - apply jumps_fit_short; lia.
  - unfold vm.Run. exists (n + 0)%nat. rewrite Hn.
    destruct (exec t m) as [[[err|] m']|] eqn:Hexec; eauto.
    eexists. apply Run_loop_done.
    apply exec_instructions in Hexec. rewrite Hexec, Hm, Hins, len_flat. lia.
Qed.

Lemma Run_terminates_on_compiled_code_witness :
  exists c,
    compiler.Compile (ast.NProgram scenario.conditional_program) compiler.New
    = Ok (None, c) /\
    exists fuel r,
      vm.Run fuel (vm.New (compiler.Bytecode_ c) (compiler.heap c)) = Some r.
Proof.
  eexists. split; [vm_compute; reflexivity|].
  eapply (Run_terminates_on_compiled_code scenario.conditional_program).
  - vm_compute. reflexivity.
  - vm_compute. reflexivity.
  - reflexivity.
Defined.

End Termination.

(** ** The read-eval-print loop on an empty program *)

Section ReplEdges.

Variable Inspect : object.Object -> string.

(** X30. An empty program crashes the read-eval-print loop: it compiles to
    no instruction, [Run] returns at once, [LastPoppedStackElement] is the
    [nil] of the empty stack, and calling [Inspect] on it panics. The lines
    after it are not read. *)
Theorem Start_empty_program_panics fuel before after out texts :
  Forall2 (fun line text => repl.Start_line Inspect fuel line = Some (Ok text))
    before texts ->
  repl.Start_loop Inspect fuel (before ++ repl.Parsed [] :: after) out
  = Some Panic.
Proof.
  intros Hbefore. revert out.
  induction Hbefore as [|line text before texts Hline _ IH]; intros out.
  - cbn [app repl.Start_loop].
    destruct fuel; reflexivity.
  - cbn [app repl.Start_loop]. rewrite Hline. apply IH.
Qed.

End ReplEdges.

Lemma Start_empty_program_panics_witness :
  repl.Start (fun _ => "value") 4
    [ repl.Parsed [ast.ExpressionStatement (ast.IntegerLiteral 1)];
      repl.Parsed [];
      repl.Parsed [ast.ExpressionStatement (ast.IntegerLiteral 2)] ]
  = Some Panic.
Proof.
  apply (Start_empty_program_panics (fun _ => "value") 4
           [repl.Parsed [ast.ExpressionStatement (ast.IntegerLiteral 1)]]
           [repl.Parsed [ast.ExpressionStatement (ast.IntegerLiteral 2)]]
           "" ["value" +:+ LF]).
  repeat constructor.
Defined.
